(** * OAHashTable: an open-addressing hash table (OAHashTable.h / OAHashTable.cpp)

    A shallow embedding of the class template [OAHashTable<T>]: the slot
    array is a list indexed with stdpp's lookup and insert, every
    [unsigned] is an integer in [0, 2^32) with its wrap-around written
    out, every [double] is a binary64 float with the rounding of the
    machine, and every member function is a function from the object's state
    to an outcome and the state it leaves behind, so that a state
    changed before an exception is thrown is the state the caller finds.
    The [while] loops take a fuel argument.

    Keys are texts without a NUL character, compared as [strcmp] does.
    Allocation always succeeds.  Not modelled, because never read: the
    [probes] member of a slot and the two hash-function pointers copied
    into the statistics. *)

From Stdlib Require Import ZArith Uint63 SpecFloat PrimFloat FloatOps String List Lia.
From stdpp Require Import base tactics option list strings.

Local Open Scope Z_scope.

(** ** Machine integers *)

Definition UINT_MOD : Z := 2 ^ 32.

(** Value of an [unsigned] expression: arithmetic modulo 2^32. *)
Definition u32 (x : Z) : Z := x mod UINT_MOD.

(** Conversion [unsigned -> int] of an in-range-or-not value. *)
Definition to_int (x : Z) : Z :=
  if u32 x <? 2 ^ 31 then u32 x else u32 x - UINT_MOD.

(** ** Doubles

    A [double] is a binary64 float; the operations round to nearest,
    ties to even, as the arithmetic of the source does. *)

(** [static_cast<double>] of an [unsigned], and the conversion of an
    [unsigned] operand of a [double] product: exact below 2^53. *)
Definition of_unsigned (x : Z) : float := PrimFloat.of_uint63 (Uint63.of_Z x).

(** The integer [std::ceil] rounds a finite double up to; nothing for
    an infinity or a NaN. *)
Definition double_ceil (x : float) : option Z :=
  match Prim2SF x with
  | S754_zero _ => Some 0
  | S754_finite s m e =>
      let v := if s then Z.neg m else Z.pos m in
      Some (if 0 <=? e then v * 2 ^ e else - ((- v) / 2 ^ (- e)))
  | S754_infinity _ | S754_nan => None
  end.

(** ** Declarations of OAHashTable.h *)

(** [typedef unsigned ( *HASHFUNC)(const char *, unsigned)] *)
Definition HASHFUNC : Type := string -> Z -> Z.

(** Size of the [Key] array of a slot: a key and its terminator fit when
    the key has fewer than [MAX_KEYLEN] characters. *)
Definition MAX_KEYLEN : Z := 32.

Inductive OAHASHTABLE_EXCEPTION : Set :=
  | E_ITEM_NOT_FOUND
  | E_DUPLICATE
  | E_NO_MEMORY.

Inductive OAHTDeletionPolicy : Set := MARK | PACK.

Inductive OAHTSlot_State : Set := OCCUPIED | UNOCCUPIED | DELETED.

Definition OAHTSlot_State_eqb (a b : OAHTSlot_State) : bool :=
  match a, b with
  | OCCUPIED, OCCUPIED | UNOCCUPIED, UNOCCUPIED | DELETED, DELETED => true
  | _, _ => false
  end.

Record OAHTStats : Set := mkStats {
  Count_ : Z;
  TableSize_ : Z;
  Probes_ : Z;
  Expansions_ : Z
}.

(** [FreeProc_] records whether a callback is configured; the values it
    is called on are logged in the table state. *)
Record OAHTConfig : Type := mkConfig {
  InitialTableSize_ : Z;
  PrimaryHashFunc_ : HASHFUNC;
  SecondaryHashFunc_ : option HASHFUNC;
  MaxLoadFactor_ : float;
  GrowthFactor_ : float;
  DeletionPolicy_ : OAHTDeletionPolicy;
  FreeProc_ : bool
}.

(** What a call does: return, throw an [OAHashTableException], run into
    undefined behaviour (a slot access outside the array, a conversion
    out of range, a copy of a string onto itself), or use up its fuel. *)
Inductive outcome (A : Type) : Type :=
  | Done (a : A)
  | Throw (e : OAHASHTABLE_EXCEPTION)
  | Fault
  | Timeout.
Arguments Done {A} a.
Arguments Throw {A} e.
Arguments Fault {A}.
Arguments Timeout {A}.

(** ** Support.h

    The primality test and the search below make up the model of
    [GetClosestPrime]. *)

Fixpoint no_divisor_from (fuel : nat) (d n : Z) : bool :=
  match fuel with
  | O => true
  | S fuel' =>
      if n <? d * d then true
      else if n mod d =? 0 then false
      else no_divisor_from fuel' (d + 1) n
  end.

Definition is_prime (n : Z) : bool :=
  (2 <=? n) && no_divisor_from (Z.to_nat n) 2 n.

(** The candidates [n], [n + 1], ... in turn, [2 ^ depth] of them: the
    first prime among them, or else the candidate after the last. *)
Fixpoint first_prime_from (depth : nat) (n : Z) : Z + Z :=
  match depth with
  | O => if is_prime n then inl n else inr (n + 1)
  | S depth' =>
      match first_prime_from depth' n with
      | inl p => inl p
      | inr n' => first_prime_from depth' n'
      end
  end.

(** Modelled from the spec: [GetClosestPrime] is declared in Support.h,
    which is not part of the sources; the specification (4.4) gives the
    new capacity as the smallest prime greater than or equal to its
    argument.  The search covers the candidates up to [(n - 1)! + 1],
    one of which is a prime. *)
Definition GetClosestPrime (n : Z) : Z :=
  match first_prime_from (Z.to_nat (n * Z.log2_up n) + 2) n with
  | inl p => p
  | inr n' => n'
  end.

Section OAHashTable.

Context {T : Type}.

(** Value of the [Data] member of a slot that was never written. *)
Variable T_default : T.

Record OAHTSlot : Type := mkSlot {
  Key : string;
  Data : T;
  State : OAHTSlot_State
}.

Definition set_State (s : OAHTSlot) (st : OAHTSlot_State) : OAHTSlot :=
  mkSlot (Key s) (Data s) st.

(** A slot of a new array, after the loop that marks it unoccupied. *)
Definition fresh_slot : OAHTSlot := mkSlot EmptyString T_default UNOCCUPIED.

(** The object: [mTable], [mConfig], [mStats], and the log of the values
    handed to [FreeProc_] (most recent first). *)
Record OAHashTable : Type := mkTable {
  mTable : list OAHTSlot;
  mConfig : OAHTConfig;
  mStats : OAHTStats;
  freed : list T
}.

Definition set_Count (n : Z) (s : OAHTStats) : OAHTStats :=
  mkStats n (TableSize_ s) (Probes_ s) (Expansions_ s).
Definition set_Probes (n : Z) (s : OAHTStats) : OAHTStats :=
  mkStats (Count_ s) (TableSize_ s) n (Expansions_ s).

Definition with_table (tb : list OAHTSlot) (t : OAHashTable) : OAHashTable :=
  mkTable tb (mConfig t) (mStats t) (freed t).
Definition with_stats (s : OAHTStats) (t : OAHashTable) : OAHashTable :=
  mkTable (mTable t) (mConfig t) s (freed t).
Definition with_probes (p : Z) (t : OAHashTable) : OAHashTable :=
  with_stats (set_Probes p (mStats t)) t.

(** [table[i]] for an [unsigned] (or non-negative [int]) index. *)
Definition slot_at (table : list OAHTSlot) (i : Z) : option OAHTSlot :=
  if i <? 0 then None else table !! Z.to_nat i.

Definition store_at (table : list OAHTSlot) (i : Z) (s : OAHTSlot) : list OAHTSlot :=
  <[Z.to_nat i := s]> table.

(** ** Construction *)

Definition OAHashTable_new (Config : OAHTConfig) : OAHashTable :=
  mkTable (replicate (Z.to_nat (u32 (InitialTableSize_ Config))) fresh_slot)
          Config
          (mkStats 0 (u32 (InitialTableSize_ Config)) 0 0)
          [].

(** ** The probe step shared by the three walks

    [index += stride; if (index > tableSize - 1) index -= tableSize;] *)
Definition advance (index stride tableSize : Z) : Z :=
  let index := u32 (index + stride) in
  if index >? u32 (tableSize - 1) then u32 (index - tableSize) else index.

(** [stride = 1], or [SecondaryHashFunc_(Key, tableSize - 1) + 1]. *)
Definition stride_of (Config : OAHTConfig) (Key : string) (tableSize : Z) : Z :=
  match SecondaryHashFunc_ Config with
  | Some h2 => u32 (u32 (h2 Key (u32 (tableSize - 1))) + 1)
  | None => 1
  end.

Definition start_of (Config : OAHTConfig) (Key : string) (tableSize : Z) : Z :=
  u32 (PrimaryHashFunc_ Config Key tableSize).

(** ** CheckForMarkInsertionDuplicate *)

(** The [while] loop; the result is the probe counter. *)
Fixpoint CheckForMarkInsertionDuplicate_loop (fuel : nat)
    (table : list OAHTSlot) (tableSize : Z) (Key0 : string)
    (stride duplicateCheckIndex probes : Z) : outcome unit * Z :=
  match fuel with
  | O => (Timeout, probes)
  | S fuel' =>
      match slot_at table duplicateCheckIndex with
      | None => (Fault, probes)
      | Some s =>
          match State s with
          | UNOCCUPIED => (Done tt, probes)
          | _ =>
              let probes := u32 (probes + 1) in
              if String.eqb (Key s) Key0 then (Throw E_DUPLICATE, probes)
              else CheckForMarkInsertionDuplicate_loop fuel' table tableSize Key0
                     stride (advance duplicateCheckIndex stride tableSize) probes
          end
      end
  end.

Definition CheckForMarkInsertionDuplicate (fuel : nat) (index stride : Z)
    (table : list OAHTSlot) (tableSize : Z) (Key0 : string) (probes : Z)
    : outcome unit * Z :=
  let duplicateCheckIndex := u32 (index + stride) in
  match CheckForMarkInsertionDuplicate_loop fuel table tableSize Key0
          stride duplicateCheckIndex probes with
  | (Done _, probes) => (Done tt, u32 (probes + 1))
  | r => r
  end.

(** ** InsertInTable *)

(** The search for an open spot; the result is the index it stops at. *)
Fixpoint InsertInTable_loop (fuel : nat) (table : list OAHTSlot)
    (tableSize : Z) (Key0 : string) (stride index probes : Z)
    : outcome Z * Z :=
  match fuel with
  | O => (Timeout, probes)
  | S fuel' =>
      match slot_at table index with
      | None => (Fault, probes)
      | Some s =>
          match State s with
          | OCCUPIED =>
              if String.eqb (Key s) Key0 then (Throw E_DUPLICATE, probes)
              else InsertInTable_loop fuel' table tableSize Key0 stride
                     (advance index stride tableSize) (u32 (probes + 1))
          | _ => (Done index, probes)
          end
      end
  end.

(** [table] is the array written to ([mTable] or the new array of
    [GrowTable]); the probe counter is the only other state touched.
    [strcpy] of a key that does not fit the [Key] array writes past it. *)
Definition InsertInTable (Config : OAHTConfig) (fuel : nat)
    (table : list OAHTSlot) (tableSize : Z) (Key0 : string) (Data0 : T)
    (probes : Z) : outcome (list OAHTSlot) * Z :=
  let index := start_of Config Key0 tableSize in
  let stride := stride_of Config Key0 tableSize in
  match InsertInTable_loop fuel table tableSize Key0 stride index probes with
  | (Done index, probes) =>
      match slot_at table index with
      | None => (Fault, probes)
      | Some s =>
          let guard :=
            match State s, DeletionPolicy_ Config with
            | DELETED, MARK =>
                CheckForMarkInsertionDuplicate fuel index stride table
                  tableSize Key0 probes
            | _, _ => (Done tt, probes)
            end in
          match guard with
          | (Done _, probes) =>
              if Z.of_nat (String.length Key0) <? MAX_KEYLEN
              then (Done (store_at table index (mkSlot Key0 Data0 OCCUPIED)),
                    u32 (probes + 1))
              else (Fault, u32 (probes + 1))
          | (Throw e, probes) => (Throw e, probes)
          | (Fault, probes) => (Fault, probes)
          | (Timeout, probes) => (Timeout, probes)
          end
      end
  | (Throw e, probes) => (Throw e, probes)
  | (Fault, probes) => (Fault, probes)
  | (Timeout, probes) => (Timeout, probes)
  end.

(** ** GrowTable *)

(** [loadFactor > mConfig.MaxLoadFactor_], where [loadFactor] is the
    [double] quotient of [Count_ + 1] (computed in [unsigned]) by
    [TableSize_].  A division by [0.0] gives an infinity, or a NaN for
    [0.0 / 0.0]; no comparison with a NaN holds. *)
Definition loadFactor_exceeds (count1 tableSize : Z) (maxLoadFactor : float) : bool :=
  PrimFloat.ltb maxLoadFactor
    (PrimFloat.div (of_unsigned count1) (of_unsigned tableSize)).

(** [std::ceil(mStats.TableSize_ * mConfig.GrowthFactor_)]: the ceiling
    of the rounded [double] product.  When the product is an infinity or
    a NaN the result is [-1]: the conversion to [unsigned] that follows
    in [GrowTable] is undefined for it, as it is for every value outside
    [0, 2^32). *)
Definition growth_target (tableSize : Z) (growthFactor : float) : Z :=
  default (-1)
    (double_ceil (PrimFloat.mul (of_unsigned tableSize) growthFactor)).

(** The loop that re-inserts the occupied slots among the indices [idxs] of the old array
    into the new one, in ascending order. *)
Fixpoint GrowTable_loop (Config : OAHTConfig) (fuel : nat)
    (old : list OAHTSlot) (idxs : list nat)
    (newTable : list OAHTSlot) (newTableSize probes : Z)
    : outcome (list OAHTSlot) * Z :=
  match idxs with
  | [] => (Done newTable, probes)
  | i :: rest =>
      match old !! i with
      | None => (Fault, probes)
      | Some s =>
          match State s with
          | OCCUPIED =>
              match InsertInTable Config fuel newTable newTableSize
                      (Key s) (Data s) probes with
              | (Done newTable', probes') =>
                  GrowTable_loop Config fuel old rest newTable' newTableSize probes'
              | r => r
              end
          | _ => GrowTable_loop Config fuel old rest newTable newTableSize probes
          end
      end
  end.

(** The conversion [static_cast<unsigned>(factor)] is undefined for a
    factor outside [0, 2^32); the size that [GetClosestPrime] answers
    is an [unsigned].  An exception of the re-insertion leaves the
    function before [mTable] and the statistics are assigned. *)
Definition GrowTable (fuel : nat) (t : OAHashTable) : outcome unit * OAHashTable :=
  let stats := mStats t in
  let factor := growth_target (TableSize_ stats) (GrowthFactor_ (mConfig t)) in
  if (factor <? 0) || (UINT_MOD <=? factor) then (Fault, t)
  else
    let newTableSize := u32 (GetClosestPrime factor) in
    let newTable := replicate (Z.to_nat newTableSize) fresh_slot in
    match GrowTable_loop (mConfig t) fuel (mTable t)
            (seq 0 (Z.to_nat (TableSize_ stats))) newTable newTableSize
            (Probes_ stats) with
    | (Done newTable', probes) =>
        (Done tt,
         mkTable newTable' (mConfig t)
           (mkStats (Count_ stats) newTableSize probes
                    (u32 (Expansions_ stats + 1)))
           (freed t))
    | (Throw e, probes) => (Throw e, with_probes probes t)
    | (Fault, probes) => (Fault, with_probes probes t)
    | (Timeout, probes) => (Timeout, with_probes probes t)
    end.

(** ** insert *)

Definition insert (fuel : nat) (t : OAHashTable) (Key0 : string) (Data0 : T)
    : outcome unit * OAHashTable :=
  let grown :=
    if loadFactor_exceeds (u32 (Count_ (mStats t) + 1)) (TableSize_ (mStats t))
         (MaxLoadFactor_ (mConfig t))
    then GrowTable fuel t
    else (Done tt, t) in
  match grown with
  | (Done _, t) =>
      match InsertInTable (mConfig t) fuel (mTable t) (TableSize_ (mStats t))
              Key0 Data0 (Probes_ (mStats t)) with
      | (Done table', probes) =>
          let stats := mStats t in
          (Done tt,
           mkTable table' (mConfig t)
             (mkStats (u32 (Count_ stats + 1)) (TableSize_ stats) probes
                      (Expansions_ stats))
             (freed t))
      | (Throw e, probes) => (Throw e, with_probes probes t)
      | (Fault, probes) => (Fault, with_probes probes t)
      | (Timeout, probes) => (Timeout, with_probes probes t)
      end
  | r => r
  end.

(** ** IndexOf *)

(** [++mStats.Probes_] when [mTable[index]] is unoccupied. *)
Definition probe_if_unoccupied (s : OAHTSlot) (probes : Z) : Z :=
  match State s with
  | UNOCCUPIED => u32 (probes + 1)
  | _ => probes
  end.

(** The walk.  The result is the returned [int] together with the slot
    that [Slot] was set to refer to, given as its index in [mTable]. *)
Fixpoint IndexOf_loop (fuel : nat) (table : list OAHTSlot) (tableSize : Z)
    (Key0 : string) (stride originalIndex index probes : Z)
    : outcome (Z * option Z) * Z :=
  match fuel with
  | O => (Timeout, probes)
  | S fuel' =>
      match slot_at table index with
      | None => (Fault, probes)
      | Some s =>
          match State s with
          | UNOCCUPIED => (Done (-1, None), probes)
          | _ =>
              let probes := u32 (probes + 1) in
              if String.eqb (Key s) Key0
              then (Done (to_int index, Some index), probes)
              else
                let index := advance index stride tableSize in
                match slot_at table index with
                | None => (Fault, probes)
                | Some s' =>
                    let probes := probe_if_unoccupied s' probes in
                    if index =? originalIndex then (Done (-1, None), probes)
                    else IndexOf_loop fuel' table tableSize Key0 stride
                           originalIndex index probes
                end
          end
      end
  end.

Definition IndexOf (fuel : nat) (t : OAHashTable) (Key0 : string)
    : outcome (Z * option Z) * OAHashTable :=
  let tableSize := TableSize_ (mStats t) in
  let index := start_of (mConfig t) Key0 tableSize in
  let stride := stride_of (mConfig t) Key0 tableSize in
  match slot_at (mTable t) index with
  | None => (Fault, t)
  | Some s =>
      let probes := probe_if_unoccupied s (Probes_ (mStats t)) in
      let (r, probes) :=
        IndexOf_loop fuel (mTable t) tableSize Key0 stride index index probes in
      (r, with_probes probes t)
  end.

(** ** find *)

Definition find (fuel : nat) (t : OAHashTable) (Key0 : string)
    : outcome T * OAHashTable :=
  match IndexOf fuel t Key0 with
  | (Done (index, slot), t) =>
      if index =? -1 then (Throw E_ITEM_NOT_FOUND, t)
      else
        match slot ≫= slot_at (mTable t) with
        | Some s => (Done (Data s), t)
        | None => (Fault, t)
        end
  | (Throw e, t) => (Throw e, t)
  | (Fault, t) => (Fault, t)
  | (Timeout, t) => (Timeout, t)
  end.

(** ** remove *)

(** [index++] followed by the wrap-around test of the PACK branch. *)
Definition next_index (index tableSize : Z) : Z :=
  let index := index + 1 in
  if u32 index >? u32 (tableSize - 1) then 0 else index.

(** The repair loop hands [InsertInTable] the key of the slot it has just
    marked unoccupied, as a pointer into the array.  When the open spot
    found for the key is that very slot, [strcpy] copies the key onto
    itself, which is undefined.  [InsertInTable] writes a single slot,
    so this is the case when slot [index] of the array it leaves is
    occupied again. *)
Definition copied_onto_itself (table' : list OAHTSlot) (index : Z) : bool :=
  match slot_at table' index with
  | Some s' => OAHTSlot_State_eqb (State s') OCCUPIED
  | None => false
  end.

(** The PACK loop over the rest of the cluster. *)
Fixpoint remove_loop (fuel : nat) (t : OAHashTable) (originalIndex index : Z)
    : outcome unit * OAHashTable :=
  match fuel with
  | O => (Timeout, t)
  | S fuel' =>
      match slot_at (mTable t) index with
      | None => (Fault, t)
      | Some s =>
          if OAHTSlot_State_eqb (State s) OCCUPIED && negb (index =? originalIndex)
          then
            let t := with_table (store_at (mTable t) index (set_State s UNOCCUPIED)) t in
            match InsertInTable (mConfig t) fuel (mTable t) (TableSize_ (mStats t))
                    (Key s) (Data s) (Probes_ (mStats t)) with
            | (Done table', probes) =>
                if copied_onto_itself table' index
                then (Fault, with_probes probes t)
                else
                  remove_loop fuel' (with_probes probes (with_table table' t))
                    originalIndex (next_index index (TableSize_ (mStats t)))
            | (Throw e, probes) => (Throw e, with_probes probes t)
            | (Fault, probes) => (Fault, with_probes probes t)
            | (Timeout, probes) => (Timeout, with_probes probes t)
            end
          else (Done tt, t)
      end
  end.

Definition remove (fuel : nat) (t : OAHashTable) (Key0 : string)
    : outcome unit * OAHashTable :=
  match IndexOf fuel t Key0 with
  | (Done (index, slot), t) =>
      if index =? -1 then (Throw E_ITEM_NOT_FOUND, t)
      else
        let t := with_stats (set_Count (u32 (Count_ (mStats t) - 1)) (mStats t)) t in
        match DeletionPolicy_ (mConfig t) with
        | PACK =>
            match slot, slot ≫= slot_at (mTable t) with
            | Some si, Some s =>
                let t := if FreeProc_ (mConfig t)
                         then mkTable (mTable t) (mConfig t) (mStats t)
                                (Data s :: freed t)
                         else t in
                let t := with_table (store_at (mTable t) si (set_State s UNOCCUPIED)) t in
                remove_loop fuel t index (next_index index (TableSize_ (mStats t)))
            | _, _ => (Fault, t)
            end
        | MARK =>
            match slot_at (mTable t) index with
            | Some s =>
                (Done tt, with_table (store_at (mTable t) index (set_State s DELETED)) t)
            | None => (Fault, t)
            end
        end
  | (Throw e, t) => (Throw e, t)
  | (Fault, t) => (Fault, t)
  | (Timeout, t) => (Timeout, t)
  end.

(** ** clear *)

(** The body of the [for] loop at slot [i]. *)
Definition clear_slot (t : OAHashTable) (i : nat) : outcome unit * OAHashTable :=
  match mTable t !! i with
  | None => (Fault, t)
  | Some s =>
      match State s with
      | UNOCCUPIED => (Done tt, t)
      | st =>
          let stats :=
            match st with
            | DELETED => mStats t
            | _ => set_Count (u32 (Count_ (mStats t) - 1)) (mStats t)
            end in
          let fr := if FreeProc_ (mConfig t) then Data s :: freed t else freed t in
          (Done tt,
           mkTable (<[i := set_State s UNOCCUPIED]> (mTable t)) (mConfig t) stats fr)
      end
  end.

Fixpoint clear_loop (t : OAHashTable) (idxs : list nat) : outcome unit * OAHashTable :=
  match idxs with
  | [] => (Done tt, t)
  | i :: rest =>
      match clear_slot t i with
      | (Done _, t') => clear_loop t' rest
      | r => r
      end
  end.

Definition clear (t : OAHashTable) : outcome unit * OAHashTable :=
  clear_loop t (seq 0 (Z.to_nat (TableSize_ (mStats t)))).

(** ** GetStats, GetTable *)

Definition GetStats (t : OAHashTable) : OAHTStats := mStats t.
Definition GetTable (t : OAHashTable) : list OAHTSlot := mTable t.

(** ** A client: a sequence of calls, each in its own try block *)

Inductive call : Type :=
  | call_insert (Key0 : string) (Data0 : T)
  | call_remove (Key0 : string)
  | call_find (Key0 : string)
  | call_clear.

Definition forget {A : Type} (r : outcome A * OAHashTable) : outcome unit * OAHashTable :=
  match r with
  | (Done _, t) => (Done tt, t)
  | (Throw e, t) => (Throw e, t)
  | (Fault, t) => (Fault, t)
  | (Timeout, t) => (Timeout, t)
  end.

Definition do_call (fuel : nat) (t : OAHashTable) (c : call) : outcome unit * OAHashTable :=
  match c with
  | call_insert k v => insert fuel t k v
  | call_remove k => remove fuel t k
  | call_find k => forget (find fuel t k)
  | call_clear => clear t
  end.

(** The table after the calls [cs]; exceptions are caught and the run
    goes on, undefined behaviour or exhausted fuel ends it. *)
Fixpoint run (fuel : nat) (t : OAHashTable) (cs : list call) : option OAHashTable :=
  match cs with
  | [] => Some t
  | c :: rest =>
      match do_call fuel t c with
      | (Done _, t') | (Throw _, t') => run fuel t' rest
      | _ => None
      end
  end.

(** ** Observations used in the statements *)

Definition occupied (s : OAHTSlot) : bool := OAHTSlot_State_eqb (State s) OCCUPIED.

(** Number of slots in state OCCUPIED. *)
Definition occupied_count (table : list OAHTSlot) : Z :=
  Z.of_nat (length (filter (fun s => occupied s = true) table)).

(** The keys logically present: those held by the occupied slots, in
    slot order. *)
Definition keys_of (table : list OAHTSlot) : list string :=
  map Key (filter (fun s => occupied s = true) table).

(** Some occupied slot holds the key. *)
Definition present (table : list OAHTSlot) (k : string) : Prop :=
  k ∈ keys_of table.

Definition presentb (table : list OAHTSlot) (k : string) : bool :=
  existsb (fun s => occupied s && String.eqb (Key s) k) table.

(** What a table built by calls of [insert] alone satisfies; [allkeys]
    bounds the keys it may hold. *)
Record inserts_inv (Config : OAHTConfig) (allkeys : list string)
    (t : OAHashTable) : Prop := {
  inv_config : mConfig t = Config;
  inv_length : length (mTable t) = Z.to_nat (TableSize_ (mStats t));
  inv_no_tombstone : Forall (fun s => State s <> DELETED) (mTable t);
  inv_count : Count_ (mStats t) = occupied_count (mTable t);
  inv_room : occupied_count (mTable t) <= TableSize_ (mStats t);
  inv_keys : forall k, k ∈ keys_of (mTable t) -> k ∈ allkeys;
  inv_nodup : NoDup (keys_of (mTable t))
}.

(** A walk over an array of [m] slots that starts in range, with a
    stride that one subtraction normalises and that is coprime to [m]. *)
Definition good_walk (m stride start : Z) : Prop :=
  0 < m <= 2 ^ 31 ∧ 0 <= start < m ∧ 0 <= stride <= m ∧ Z.gcd stride m = 1.

(** [t'] is [t] with, at most, another probe counter. *)
Definition same_but_probes (t t' : OAHashTable) : Prop :=
  mTable t' = mTable t ∧ mConfig t' = mConfig t ∧ freed t' = freed t ∧
  Count_ (mStats t') = Count_ (mStats t) ∧
  TableSize_ (mStats t') = TableSize_ (mStats t) ∧
  Expansions_ (mStats t') = Expansions_ (mStats t).

(** The probe sequence of a walk: [n] applications of the probe step. *)
Fixpoint probe_index (tableSize stride start : Z) (n : nat) : Z :=
  match n with
  | O => start
  | S n' => advance (probe_index tableSize stride start n') stride tableSize
  end.

(** [insert] of each pair followed immediately by [find] of its key,
    every call returning and [find] giving back the value inserted. *)
Fixpoint roundtrip (fuel : nat) (t : OAHashTable) (kvs : list (string * T)) : Prop :=
  match kvs with
  | [] => True
  | (k, v) :: rest =>
      ∃ t1 t2, insert fuel t k v = (Done tt, t1) ∧
               find fuel t1 k = (Done v, t2) ∧
               roundtrip fuel t2 rest
  end.

(** [find] returns a value. *)
Definition finds (fuel : nat) (t : OAHashTable) (k : string) : bool :=
  match find fuel t k with
  | (Done _, _) => true
  | _ => false
  end.

End OAHashTable.

Arguments OAHTSlot T : clear implicits.
Arguments OAHashTable T : clear implicits.
Arguments call T : clear implicits.

(** ** Contents of a table *)

(** The key/value pairs logically present: those of the occupied slots,
    in slot order. *)
Definition entries_of {T : Type} (table : list (OAHTSlot T)) : list (string * T) :=
  map (fun s => (Key s, Data s)) (filter (fun s => occupied s = true) table).

(** The values of the slots that [clear] hands to the release callback:
    those of the slots that are not unoccupied, in slot order. *)
Definition held_values {T : Type} (table : list (OAHTSlot T)) : list T :=
  map Data (filter (fun s => OAHTSlot_State_eqb (State s) UNOCCUPIED = false) table).

(** No slot is a tombstone. *)
Definition no_tombstone {T : Type} (table : list (OAHTSlot T)) : Prop :=
  Forall (fun s => State s <> DELETED) table.

(** The destructor: [clear()], then the array is given back.  What is
    left of the object is the log of released values. *)
Definition OAHashTable_delete {T : Type} (t : OAHashTable T) : outcome unit * list T :=
  let (r, t') := clear t in (r, freed t').

(** ** Sequences of calls *)

(** The calls other than [remove]. *)
Definition remove_free {T : Type} (c : call T) : bool :=
  match c with
  | call_remove _ => false
  | _ => true
  end.

(** The array has [TableSize_] slots, fewer than 2^32, and none of them
    is a tombstone. *)
Definition packed {T : Type} (t : OAHashTable T) : Prop :=
  length (mTable t) = Z.to_nat (TableSize_ (mStats t)) /\
  0 <= TableSize_ (mStats t) < UINT_MOD /\
  no_tombstone (mTable t).

Definition is_insert {T : Type} (c : call T) : bool :=
  match c with
  | call_insert _ _ => true
  | _ => false
  end.

(** The number of [insert] calls. *)
Fixpoint insert_calls {T : Type} (cs : list (call T)) : nat :=
  match cs with
  | [] => O
  | c :: rest => (if is_insert c then 1 else 0) + insert_calls rest
  end.

(** The key a call is made with. *)
Definition call_key {T : Type} (c : call T) : option string :=
  match c with
  | call_insert k _ | call_remove k | call_find k => Some k
  | call_clear => None
  end.

Definition call_keys {T : Type} (cs : list (call T)) : list string :=
  omap call_key cs.

(** [Config] with another deletion policy. *)
Definition with_policy (policy : OAHTDeletionPolicy) (Config : OAHTConfig) : OAHTConfig :=
  mkConfig (InitialTableSize_ Config) (PrimaryHashFunc_ Config)
           (SecondaryHashFunc_ Config) (MaxLoadFactor_ Config)
           (GrowthFactor_ Config) policy (FreeProc_ Config).

(** The table [t] as an object configured with [policy]. *)
Definition repolicy {T : Type} (policy : OAHTDeletionPolicy) (t : OAHashTable T)
    : OAHashTable T :=
  mkTable (mTable t) (with_policy policy (mConfig t)) (mStats t) (freed t).

(** Every occupied slot is met by the probe sequence of its key, and
    before it the sequence meets occupied slots with other keys only. *)
Definition reachable {T : Type} (Config : OAHTConfig) (m : Z)
    (table : list (OAHTSlot T)) : Prop :=
  forall (i : Z) (s : OAHTSlot T),
    slot_at table i = Some s -> State s = OCCUPIED ->
    exists n : nat,
      probe_index m (stride_of Config (Key s) m) (start_of Config (Key s) m) n = i /\
      forall j : nat, (j < n)%nat ->
        exists sj,
          slot_at table
            (probe_index m (stride_of Config (Key s) m) (start_of Config (Key s) m) j)
          = Some sj /\
          State sj = OCCUPIED /\ Key sj <> Key s.

(** The table is laid out as its lookups expect, and holds no key twice. *)
Definition mapped {T : Type} (t : OAHashTable T) : Prop :=
  reachable (mConfig t) (TableSize_ (mStats t)) (mTable t) /\
  NoDup (keys_of (mTable t)).

(** The layout while the repair loop of [remove] runs: as [reachable],
    but the probe sequence of a slot that [pending] holds for may pass
    over the hole [g]. *)
Definition reachable_but {T : Type} (Config : OAHTConfig) (m : Z)
    (table : list (OAHTSlot T)) (g : Z) (pending : Z -> Prop) : Prop :=
  forall (i : Z) (s : OAHTSlot T),
    slot_at table i = Some s -> State s = OCCUPIED ->
    exists n : nat,
      probe_index m (stride_of Config (Key s) m) (start_of Config (Key s) m) n = i /\
      forall j : nat, (j < n)%nat ->
        (exists sj,
           slot_at table
             (probe_index m (stride_of Config (Key s) m) (start_of Config (Key s) m) j)
           = Some sj /\
           State sj = OCCUPIED /\ Key sj <> Key s) \/
        (probe_index m (stride_of Config (Key s) m) (start_of Config (Key s) m) j = g /\
         pending i).

(** What a table under PACK with linear probing keeps: its shape and
    layout, a count that is the number of occupied slots, and a free
    slot. *)
Definition packed_map {T : Type} (Config : OAHTConfig) (t : OAHashTable T) : Prop :=
  mConfig t = Config /\ packed t /\ mapped t /\
  Count_ (mStats t) = occupied_count (mTable t) /\
  occupied_count (mTable t) < TableSize_ (mStats t).

(** ** Capacities a configuration can lead to *)

(** The size [GrowTable] moves to from [tableSize]. *)
Definition next_capacity (Config : OAHTConfig) (tableSize : Z) : Z :=
  u32 (GetClosestPrime (growth_target tableSize (GrowthFactor_ Config))).

(** The initial size and the sizes after the first [n] expansions. *)
Fixpoint capacities (Config : OAHTConfig) (tableSize : Z) (n : nat) : list Z :=
  match n with
  | O => [tableSize]
  | S n' => tableSize :: capacities Config (next_capacity Config tableSize) n'
  end.

(** The key fits a slot, and at size [m] the hash functions stay in
    range for it and its stride is coprime to [m]. *)
Definition good_key (Config : OAHTConfig) (m : Z) (k : string) : bool :=
  (Z.of_nat (String.length k) <? MAX_KEYLEN) &&
  (0 <=? PrimaryHashFunc_ Config k m) && (PrimaryHashFunc_ Config k m <? m) &&
  (1 <=? stride_of Config k m) && (stride_of Config k m <=? m) &&
  (Z.gcd (stride_of Config k m) m =? 1).

(** The capacities the table takes while [n] new keys are inserted one
    after the other, from capacity [tableSize] and count [count] on:
    each insert grows the table when the load test says so. *)
Fixpoint insert_capacities (Config : OAHTConfig) (tableSize count : Z) (n : nat)
    : list Z :=
  match n with
  | O => [tableSize]
  | S n' =>
      let count1 := u32 (count + 1) in
      if loadFactor_exceeds count1 tableSize (MaxLoadFactor_ Config)
      then tableSize
           :: insert_capacities Config (next_capacity Config tableSize) count1 n'
      else insert_capacities Config tableSize count1 n'
  end.

(** The size after [n] expansions. *)
Fixpoint capacity_after (Config : OAHTConfig) (tableSize : Z) (n : nat) : Z :=
  match n with
  | O => tableSize
  | S n' => capacity_after Config (next_capacity Config tableSize) n'
  end.

(** A table of [tableSize] slots is not grown for any of its first
    [n] entries: the load test of [insert] fails at the counts 1 to [n]. *)
Definition holds_without_growth (Config : OAHTConfig) (tableSize : Z) (n : nat)
    : bool :=
  forallb
    (fun count1 =>
       negb (loadFactor_exceeds (Z.of_nat count1) tableSize (MaxLoadFactor_ Config)))
    (seq 1 n).

(** Size [m] fits the machine arithmetic, growing from it enlarges the
    table, the load test of an insert into a table with [m] entries
    asks for a growth, and all of [keys] are good at [m]. *)
Definition good_capacity (Config : OAHTConfig) (keys : list string) (m : Z) : bool :=
  (0 <? m) && (m <? 2 ^ 31) &&
  (0 <=? growth_target m (GrowthFactor_ Config)) &&
  (growth_target m (GrowthFactor_ Config) <? UINT_MOD) &&
  (m <? next_capacity Config m) &&
  loadFactor_exceeds (m + 1) m (MaxLoadFactor_ Config) &&
  forallb (good_key Config m) keys.

(** Size [m] is positive, at most 2^31, growing from it enlarges the
    table, and the load test of an insert that would fill the last free
    slot asks for a growth. *)
Definition roomy_capacity (Config : OAHTConfig) (m : Z) : bool :=
  (0 <? m) && (m <=? 2 ^ 31) && (m <? next_capacity Config m) &&
  loadFactor_exceeds m m (MaxLoadFactor_ Config).

Definition fuel_bound (caps : list Z) : nat :=
  S (Z.to_nat (foldr Z.max 0 caps)).

(** ** Sample configurations *)

Module Samples.

Local Open Scope string_scope.

Fixpoint char_sum (k : string) : Z :=
  match k with
  | EmptyString => 0
  | String c rest => Z.of_N (Ascii.N_of_ascii c) + char_sum rest
  end.

(** A primary hash function: the sum of the characters modulo the size. *)
Definition sum_hash : HASHFUNC := fun k m => char_sum k mod m.

(** Linear probing with the default factors 0.5 and 2.0. *)
Definition linear (size : Z) (policy : OAHTDeletionPolicy) : OAHTConfig :=
  mkConfig size sum_hash None 0.5%float 2%float policy false.

(** Double hashing where every key starts at 0 with stride 3 (for sizes
    above 3). *)
Definition strided (size : Z) : OAHTConfig :=
  mkConfig size (fun _ _ => 0) (Some (fun _ n => 2 mod n))
           0.5%float 2%float PACK false.

(** Double hashing with the character sum as both hash functions. *)
Definition double (size : Z) (policy : OAHTDeletionPolicy) : OAHTConfig :=
  mkConfig size sum_hash (Some sum_hash) 0.5%float 2%float policy false.

(** Maximum load factor 1/8. *)
Definition sparse (size : Z) : OAHTConfig :=
  mkConfig size sum_hash None 0.125%float 2%float PACK false.

Definition new (Config : OAHTConfig) : OAHashTable Z := OAHashTable_new 0 Config.

(** The table after the calls [cs] on a new table. *)
Definition after (Config : OAHTConfig) (cs : list (call Z)) : OAHashTable Z :=
  default (new Config) (run 0 50 (new Config) cs).

Definition states (t : OAHashTable Z) : list OAHTSlot_State := map State (mTable t).

(** The table [strided 9] after the inserts of "a", "b" and "c", with
    probe counter [p]. *)
Definition strided9_abc (p : Z) : OAHashTable Z :=
  mkTable
    [mkSlot "a" 1 OCCUPIED; mkSlot "" 0 UNOCCUPIED; mkSlot "" 0 UNOCCUPIED;
     mkSlot "b" 2 OCCUPIED; mkSlot "" 0 UNOCCUPIED; mkSlot "" 0 UNOCCUPIED;
     mkSlot "c" 3 OCCUPIED; mkSlot "" 0 UNOCCUPIED; mkSlot "" 0 UNOCCUPIED]
    (strided 9) (mkStats 3 9 p 0) [].

(** The table [linear 3 MARK] after "A", "B" and "C" have each been
    inserted and removed: three tombstones. *)
Definition tombstones3 : OAHashTable Z :=
  mkTable
    [mkSlot "B" 2 DELETED; mkSlot "C" 3 DELETED; mkSlot "A" 1 DELETED]
    (linear 3 MARK) (mkStats 0 3 6 0) [].

(** Tables reached by a few calls. *)
Definition mark7_A : OAHashTable Z :=
  after (linear 7 MARK) [call_insert "A" 1].
Definition mark7_A_removed : OAHashTable Z :=
  after (linear 7 MARK) [call_insert "A" 1; call_remove "A"].
Definition mark7_AH_removed : OAHashTable Z :=
  after (linear 7 MARK)
    [call_insert "A" 1; call_insert "H" 2; call_remove "A"; call_remove "H"].
Definition mark3_A_removed : OAHashTable Z :=
  after (linear 3 MARK) [call_insert "A" 1; call_remove "A"].
Definition pack7_A : OAHashTable Z :=
  after (linear 7 PACK) [call_insert "A" 1].
Definition pack3_A : OAHashTable Z :=
  after (linear 3 PACK) [call_insert "A" 1].

Definition pack7_FIb_F_removed : OAHashTable Z :=
  after (double 7 PACK)
    [call_insert "F" 1; call_insert "I" 2; call_insert "b" 3; call_remove "F"].

(** Linear probing with a release callback. *)
Definition releasing (size : Z) (policy : OAHTDeletionPolicy) : OAHTConfig :=
  mkConfig size sum_hash None 0.5%float 2%float policy true.

Definition releasing7_AB_A_removed : OAHashTable Z :=
  after (releasing 7 MARK) [call_insert "A" 1; call_insert "B" 2; call_remove "A"].

(** Calls without [remove]: a duplicate, a missing key, a growth from 3
    to 7 slots and a [clear] among them. *)
Definition remove_free_calls : list (call Z) :=
  [call_insert "A" 1; call_insert "A" 2; call_find "B"; call_insert "B" 3;
   call_insert "C" 4; call_clear; call_insert "D" 5; call_insert "K" 6].


(** Calls on three keys that collide at 7 slots, with removals from
    the head and the middle of their cluster. *)
Definition cluster_calls : list (call Z) :=
  [call_insert "A" 1; call_insert "H" 2; call_insert "O" 3; call_remove "A";
   call_find "O"; call_remove "Z"; call_insert "A" 4; call_remove "O"].

(** Factors that are not dyadic: the doubles 1.0 / 3.0 and 7.0 / 3.0 as
    maximum load factor and growth factor. *)
Definition thirds (size : Z) : OAHTConfig :=
  mkConfig size sum_hash None (1 / 3)%float (7 / 3)%float PACK false.

Definition thirds3_A : OAHashTable Z :=
  after (thirds 3) [call_insert "A" 1].

(** Three keys that collide at 7 slots, with a release callback. *)
Definition releasing7_AHO : OAHashTable Z :=
  after (releasing 7 PACK)
    [call_insert "A" 1; call_insert "H" 2; call_insert "O" 3].

(** Thirty keys; a table of 3 slots grows four times, to 79 slots, while
    they are inserted. *)
Definition thirty_pairs : list (string * Z) :=
  [("A", 1); ("B", 2); ("C", 3); ("D", 4); ("E", 5); ("F", 6); ("G", 7);
   ("H", 8); ("I", 9); ("J", 10); ("K", 11); ("L", 12); ("M", 13);
   ("N", 14); ("O", 15); ("P", 16); ("Q", 17); ("R", 18); ("S", 19);
   ("T", 20); ("U", 21); ("V", 22); ("W", 23); ("X", 24); ("Y", 25);
   ("Z", 26); ("a", 27); ("b", 28); ("c", 29); ("d", 30)].

(** Forty-one calls: those of [cluster_calls], an [insert] for each of
    the thirty keys, and three more.  A table of 7 slots grows three
    times under them. *)
Definition long_calls : list (call Z) :=
  cluster_calls
  ++ map (fun kv => call_insert (fst kv) (snd kv)) thirty_pairs
  ++ [call_remove "d"; call_remove "q"; call_find "Z"].

Definition long_table : OAHashTable Z :=
  default (new (linear 7 PACK)) (run 0 200 (new (linear 7 PACK)) long_calls).

End Samples.

(** * Properties *)

(** ** Machine arithmetic and the probe step *)

Lemma u32_small (x : Z) : 0 <= x < UINT_MOD -> u32 x = x.
Proof. intros H. unfold u32. now apply Z.mod_small. Qed.

Lemma u32_range (x : Z) : 0 <= u32 x < UINT_MOD.
Proof. unfold u32, UINT_MOD. apply Z.mod_pos_bound. lia. Qed.

Lemma to_int_small (x : Z) : 0 <= x < 2 ^ 31 -> to_int x = x.
Proof.
  intros H. unfold to_int. rewrite u32_small by (unfold UINT_MOD; lia).
  destruct (Z.ltb_spec x (2 ^ 31)); lia.
Qed.

Lemma advance_mod (i st m : Z) :
  0 < m <= 2 ^ 31 -> 0 <= i < m -> 0 <= st <= m ->
  advance i st m = (i + st) mod m.
Proof.
  intros Hm Hi Hst. unfold advance.
  assert (HM : UINT_MOD = 2 * 2 ^ 31) by reflexivity.
  rewrite (u32_small (i + st)) by lia.
  rewrite (u32_small (m - 1)) by lia.
  destruct (Z.gtb_spec (i + st) (m - 1)) as [Hgt | Hle].
  - rewrite u32_small by lia.
    apply Z.mod_unique with (q := 1); lia.
  - symmetry. apply Z.mod_small. lia.
Qed.

Lemma advance_range (i st m : Z) :
  0 < m <= 2 ^ 31 -> 0 <= i < m -> 0 <= st <= m ->
  0 <= advance i st m < m.
Proof.
  intros Hm Hi Hst. rewrite advance_mod by assumption.
  apply Z.mod_pos_bound. lia.
Qed.

Lemma probe_index_mod (m st s : Z) (n : nat) :
  0 < m <= 2 ^ 31 -> 0 <= s < m -> 0 <= st <= m ->
  probe_index m st s n = (s + Z.of_nat n * st) mod m.
Proof.
  intros Hm Hs Hst. induction n as [| n IH].
  - simpl. rewrite Z.add_0_r. symmetry. now apply Z.mod_small.
  - cbn [probe_index]. rewrite advance_mod; try assumption.
    + rewrite IH, Zplus_mod_idemp_l. f_equal. lia.
    + rewrite IH. apply Z.mod_pos_bound. lia.
Qed.

Lemma probe_index_range (m st s : Z) (n : nat) :
  0 < m <= 2 ^ 31 -> 0 <= s < m -> 0 <= st <= m ->
  0 <= probe_index m st s n < m.
Proof.
  intros Hm Hs Hst. rewrite probe_index_mod by assumption.
  apply Z.mod_pos_bound. lia.
Qed.

(** With a stride coprime to the size the probe sequence reaches every
    index of the array. *)
Lemma probe_index_onto (m st s i : Z) :
  0 < m <= 2 ^ 31 -> 0 <= s < m -> 0 <= st <= m -> Z.gcd st m = 1 ->
  0 <= i < m ->
  exists n, Z.of_nat n < m /\ probe_index m st s n = i.
Proof.
  intros Hm Hs Hst Hg Hi.
  destruct (Z.gcd_bezout st m 1 Hg) as (a & b & Hab).
  set (n := ((i - s) * a) mod m).
  assert (Hn : 0 <= n < m) by (apply Z.mod_pos_bound; lia).
  exists (Z.to_nat n). split; [lia |].
  rewrite probe_index_mod by assumption.
  rewrite Z2Nat.id by lia.
  symmetry. apply Z.mod_unique with (q := - ((i - s) * a / m) * st - (i - s) * b).
  - lia.
  - unfold n. rewrite Z.mod_eq by lia.
    generalize ((i - s) * a / m). intros d.
    assert (H1 : (i - s) * (a * st + b * m) = i - s) by (rewrite Hab; ring).
    lia.
Qed.

(** ... and does not come back to an index before [m] steps. *)
Lemma probe_index_inj (m st s : Z) (a b : nat) :
  0 < m <= 2 ^ 31 -> 0 <= s < m -> 0 <= st <= m -> Z.gcd st m = 1 ->
  (a < b)%nat -> Z.of_nat b < m ->
  probe_index m st s a <> probe_index m st s b.
Proof.
  intros Hm Hs Hst Hg Hab Hb.
  rewrite !probe_index_mod by assumption. intros Heq.
  assert (Hd : (m | (Z.of_nat b - Z.of_nat a) * st)).
  { apply Z.mod_divide; [lia |].
    replace ((Z.of_nat b - Z.of_nat a) * st)
      with ((s + Z.of_nat b * st) - (s + Z.of_nat a * st)) by ring.
    rewrite Zminus_mod, Heq, Z.sub_diag. reflexivity. }
  rewrite Z.mul_comm in Hd.
  apply Z.gauss in Hd.
  - apply Z.divide_pos_le in Hd; lia.
  - now rewrite Z.gcd_comm.
Qed.

(** ** Slot arrays *)

Section Slots.

Context {T : Type}.
Implicit Types (tb : list (OAHTSlot T)) (s : OAHTSlot T) (k : string).

Lemma slot_at_lookup tb (i : Z) :
  0 <= i -> slot_at tb i = tb !! Z.to_nat i.
Proof. intros H. unfold slot_at. destruct (Z.ltb_spec i 0); [lia | reflexivity]. Qed.

Lemma slot_at_in_range tb (i : Z) :
  0 <= i < Z.of_nat (length tb) -> exists s, slot_at tb i = Some s.
Proof.
  intros H. rewrite slot_at_lookup by lia.
  destruct (lookup_lt_is_Some_2 tb (Z.to_nat i)) as [s Hs]; [lia | eauto].
Qed.

Lemma slot_at_store_eq tb (i : Z) s :
  0 <= i < Z.of_nat (length tb) -> slot_at (store_at tb i s) i = Some s.
Proof.
  intros H. rewrite slot_at_lookup by lia. unfold store_at.
  apply list_lookup_insert_eq. lia.
Qed.

Lemma slot_at_store_ne tb (i j : Z) s :
  0 <= i -> 0 <= j -> i <> j -> slot_at (store_at tb i s) j = slot_at tb j.
Proof.
  intros Hi Hj Hne. rewrite !slot_at_lookup by lia. unfold store_at.
  apply list_lookup_insert_ne. lia.
Qed.

Lemma length_store_at tb (i : Z) s : length (store_at tb i s) = length tb.
Proof. apply length_insert. Qed.

Lemma keys_of_app tb1 tb2 : keys_of (tb1 ++ tb2) = keys_of tb1 ++ keys_of tb2.
Proof. unfold keys_of. now rewrite filter_app, map_app. Qed.

Lemma keys_of_cons s tb :
  keys_of (s :: tb) = if occupied s then Key s :: keys_of tb else keys_of tb.
Proof.
  unfold keys_of. destruct (occupied s) eqn:E.
  - now rewrite filter_cons_True.
  - rewrite filter_cons_False; [reflexivity | congruence].
Qed.

Lemma occupied_true s : occupied s = true <-> State s = OCCUPIED.
Proof. unfold occupied. destruct (State s); simpl; split; congruence. Qed.

Lemma occupied_count_keys tb : occupied_count tb = Z.of_nat (length (keys_of tb)).
Proof. unfold occupied_count, keys_of. now rewrite length_map. Qed.

Lemma occupied_count_le tb : occupied_count tb <= Z.of_nat (length tb).
Proof. unfold occupied_count. pose proof (length_filter (fun s => occupied s = true) tb). lia. Qed.

Lemma keys_of_replicate_fresh (d : T) (n : nat) : keys_of (replicate n (fresh_slot d)) = [].
Proof. induction n as [| n IH]; [reflexivity |]. simpl. now rewrite keys_of_cons. Qed.

(** A key held by the occupied slot at some index is present. *)
Lemma keys_of_lookup tb (i : nat) s :
  tb !! i = Some s -> State s = OCCUPIED -> Key s ∈ keys_of tb.
Proof.
  intros Hl Hs. unfold keys_of. apply list_elem_of_fmap. exists s. split; [reflexivity |].
  apply list_elem_of_filter. split.
  - now apply occupied_true.
  - eapply list_elem_of_lookup_2; eauto.
Qed.

(** Writing an occupied slot over one that is not adds its key. *)
Lemma keys_of_store tb (i : nat) s0 k (v : T) :
  tb !! i = Some s0 -> State s0 <> OCCUPIED ->
  keys_of (<[i := mkSlot k v OCCUPIED]> tb) ≡ₚ k :: keys_of tb.
Proof.
  intros Hl Hs.
  assert (Hi : (i < length tb)%nat) by (eapply lookup_lt_Some; eauto).
  rewrite insert_take_drop by assumption.
  rewrite <- (take_drop_middle tb i s0 Hl) at 3.
  rewrite !keys_of_app, !keys_of_cons. simpl.
  destruct (occupied s0) eqn:E; [apply occupied_true in E; contradiction |].
  symmetry. apply Permutation_middle.
Qed.

Lemma full_table_count tb :
  (forall i, (i < length tb)%nat -> exists s, tb !! i = Some s /\ State s = OCCUPIED) ->
  occupied_count tb = Z.of_nat (length tb).
Proof.
  intros H. unfold occupied_count. f_equal. f_equal.
  induction tb as [| s tb IH]; [reflexivity |].
  destruct (H 0%nat) as (s' & Hs' & Ho); [simpl; lia |]. simpl in Hs'. injection Hs' as <-.
  rewrite filter_cons_True by now apply occupied_true.
  f_equal. apply IH. intros i Hi. apply (H (S i)). simpl. lia.
Qed.

End Slots.

(** ** The walks of InsertInTable and IndexOf *)

Section Walks.

Context {T : Type}.
Implicit Types (tb : list (OAHTSlot T)) (s : OAHTSlot T) (k : string).

(** A table with a free slot cannot be occupied all along a good walk. *)
Lemma walk_meets_free tb m st h :
  good_walk m st h -> length tb = Z.to_nat m -> occupied_count tb < m ->
  ~ (forall i : nat, Z.of_nat i < m ->
       exists s, slot_at tb (probe_index m st h i) = Some s /\ State s = OCCUPIED).
Proof.
  intros (Hm & Hs & Hst & Hg) Hlen Hroom Hall.
  assert (Hfull : occupied_count tb = Z.of_nat (length tb)).
  { apply full_table_count. intros j Hj.
    destruct (probe_index_onto m st h (Z.of_nat j)) as (n & Hn & Hp); try assumption; [lia |].
    destruct (Hall n Hn) as (s & Hs1 & Hs2).
    exists s. split; [| assumption].
    rewrite Hp, slot_at_lookup, Nat2Z.id in Hs1 by lia. assumption. }
  lia.
Qed.

Lemma InsertInTable_loop_finds tb m k st h :
  good_walk m st h -> length tb = Z.to_nat m ->
  k ∉ keys_of tb -> occupied_count tb < m ->
  forall (fuel n : nat) (p : Z),
    m < Z.of_nat n + Z.of_nat fuel ->
    (forall i : nat, (i < n)%nat ->
       exists s, slot_at tb (probe_index m st h i) = Some s /\ State s = OCCUPIED) ->
    exists (n' : nat) (p' : Z) (s' : OAHTSlot T),
      Z.of_nat n' < m /\
      InsertInTable_loop fuel tb m k st (probe_index m st h n) p
        = (Done (probe_index m st h n'), p') /\
      (forall i : nat, (i < n')%nat ->
         exists s, slot_at tb (probe_index m st h i) = Some s /\ State s = OCCUPIED) /\
      slot_at tb (probe_index m st h n') = Some s' /\ State s' <> OCCUPIED.
Proof.
  intros Hw Hlen Hk Hroom.
  pose proof Hw as (Hm & Hs & Hst & Hg).
  induction fuel as [| fuel IH]; intros n p Hfuel Hocc.
  - exfalso. apply (walk_meets_free tb m st h Hw Hlen Hroom).
    intros i Hi. apply Hocc. lia.
  - pose proof (probe_index_range m st h n Hm Hs Hst) as Hr.
    destruct (slot_at_in_range tb (probe_index m st h n)) as [s Hslot]; [lia |].
    cbn [InsertInTable_loop]. rewrite Hslot.
    destruct (State s) eqn:Est.
    + assert (Hne : Key s <> k).
      { intros <-. apply Hk.
        rewrite slot_at_lookup in Hslot by lia. eapply keys_of_lookup; eauto. }
      apply String.eqb_neq in Hne. rewrite Hne.
      apply (IH (S n)); [lia |].
      intros i Hi. destruct (Nat.eq_dec i n) as [-> | Hin].
      * exists s. split; assumption.
      * apply Hocc. lia.
    + assert (Hn : Z.of_nat n < m).
      { destruct (Z.lt_ge_cases (Z.of_nat n) m) as [| Hge]; [assumption |].
        exfalso. apply (walk_meets_free tb m st h Hw Hlen Hroom).
        intros i Hi. apply Hocc. lia. }
      exists n, p, s. repeat split; try assumption. congruence.
    + assert (Hn : Z.of_nat n < m).
      { destruct (Z.lt_ge_cases (Z.of_nat n) m) as [| Hge]; [assumption |].
        exfalso. apply (walk_meets_free tb m st h Hw Hlen Hroom).
        intros i Hi. apply Hocc. lia. }
      exists n, p, s. repeat split; try assumption. congruence.
Qed.

(** [InsertInTable] of a key that is not present, into an array without
    tombstones that has a free slot: the key goes to the first free slot
    of its probe sequence. *)
Lemma InsertInTable_fresh_key (Config : OAHTConfig) tb m k (v : T) (p : Z) (fuel : nat) :
  let st := stride_of Config k m in
  let h := start_of Config k m in
  good_walk m st h -> Z.of_nat (String.length k) < MAX_KEYLEN ->
  length tb = Z.to_nat m ->
  Forall (fun s => State s <> DELETED) tb ->
  k ∉ keys_of tb -> occupied_count tb < m -> m < Z.of_nat fuel ->
  exists (n' : nat) (p' : Z) (s' : OAHTSlot T),
    Z.of_nat n' < m /\
    InsertInTable Config fuel tb m k v p
      = (Done (store_at tb (probe_index m st h n') (mkSlot k v OCCUPIED)), p') /\
    (forall i : nat, (i < n')%nat ->
       exists s, slot_at tb (probe_index m st h i) = Some s /\ State s = OCCUPIED) /\
    slot_at tb (probe_index m st h n') = Some s' /\ State s' = UNOCCUPIED.
Proof.
  intros st h Hw Hfit Hlen Hnd Hk Hroom Hfuel.
  destruct (InsertInTable_loop_finds tb m k st h Hw Hlen Hk Hroom fuel 0%nat p)
    as (n' & p' & s' & Hn' & Hloop & Hocc & Hslot & Hst); [lia | intros i Hi; lia |].
  assert (Hun : State s' = UNOCCUPIED).
  { pose proof Hw as (Hm & Hs & Hst' & Hg).
    pose proof (probe_index_range m st h n' Hm Hs Hst') as Hr.
    rewrite slot_at_lookup in Hslot by lia.
    apply list_elem_of_lookup_2 in Hslot.
    rewrite Forall_forall in Hnd. specialize (Hnd s' Hslot).
    destruct (State s'); congruence. }
  exists n', (u32 (p' + 1)), s'. repeat split; try assumption.
  unfold InsertInTable. fold st h. cbn [probe_index] in Hloop.
  rewrite Hloop, Hslot, Hun.
  destruct (Z.ltb_spec (Z.of_nat (String.length k)) MAX_KEYLEN); [reflexivity | lia].
Qed.

(** After the key has been written at the end of its walk, the walk of
    [IndexOf] follows the same slots and stops there. *)
Lemma IndexOf_loop_after_insert tb m k (v : T) st h (n' : nat) s' :
  good_walk m st h -> length tb = Z.to_nat m -> k ∉ keys_of tb ->
  Z.of_nat n' < m ->
  (forall i : nat, (i < n')%nat ->
     exists s, slot_at tb (probe_index m st h i) = Some s /\ State s = OCCUPIED) ->
  slot_at tb (probe_index m st h n') = Some s' -> State s' <> OCCUPIED ->
  let tb' := store_at tb (probe_index m st h n') (mkSlot k v OCCUPIED) in
  forall (fuel j : nat) (p : Z),
    (j <= n')%nat -> (n' - j < fuel)%nat ->
    exists p',
      IndexOf_loop fuel tb' m k st h (probe_index m st h j) p
        = (Done (probe_index m st h n', Some (probe_index m st h n')), p').
Proof.
  intros Hw Hlen Hk Hn' Hocc Hslot Hst tb'.
  pose proof Hw as (Hm & Hs & Hst' & Hg).
  assert (Hr : forall n, 0 <= probe_index m st h n < m)
    by (intros n; now apply probe_index_range).
  induction fuel as [| fuel IH]; intros j p Hj Hfuel; [lia |].
  cbn [IndexOf_loop].
  destruct (Nat.eq_dec j n') as [-> | Hne].
  - unfold tb'. rewrite slot_at_store_eq by (specialize (Hr n'); lia).
    cbn [State Key]. rewrite String.eqb_refl.
    rewrite to_int_small by (specialize (Hr n'); lia). eauto.
  - assert (Hdiff : probe_index m st h n' <> probe_index m st h j).
    { intros Heq. symmetry in Heq. revert Heq.
      apply probe_index_inj; try assumption; lia. }
    unfold tb' at 1. rewrite slot_at_store_ne by (try apply Hr; assumption).
    destruct (Hocc j) as (s & Hsj & Hoj); [lia |].
    rewrite Hsj, Hoj.
    assert (Hkey : Key s <> k).
    { intros <-. apply Hk. rewrite slot_at_lookup in Hsj by apply Hr.
      eapply keys_of_lookup; eauto. }
    apply String.eqb_neq in Hkey. rewrite Hkey.
    change (advance (probe_index m st h j) st m) with (probe_index m st h (S j)).
    destruct (slot_at_in_range tb' (probe_index m st h (S j))) as [s2 Hs2].
    { unfold tb'. rewrite length_store_at. specialize (Hr (S j)). lia. }
    rewrite Hs2.
    assert (Hback : probe_index m st h (S j) <> h).
    { change h with (probe_index m st h 0) at 2.
      intros Heq. symmetry in Heq. revert Heq.
      apply probe_index_inj; try assumption; lia. }
    apply Z.eqb_neq in Hback. rewrite Hback.
    apply IH; lia.
Qed.

End Walks.

(** ** GrowTable *)

Section Growth.

Context {T : Type} (T_default : T).
Implicit Types (tb : list (OAHTSlot T)) (s : OAHTSlot T) (k : string).

Lemma occupied_false_keys s tb : State s <> OCCUPIED -> keys_of (tb ++ [s]) = keys_of tb.
Proof.
  intros H. rewrite keys_of_app, keys_of_cons.
  destruct (occupied s) eqn:E; [apply occupied_true in E; contradiction |].
  apply app_nil_r.
Qed.

Lemma occupied_true_keys s tb : State s = OCCUPIED -> keys_of (tb ++ [s]) = keys_of tb ++ [Key s].
Proof.
  intros H. rewrite keys_of_app, keys_of_cons.
  apply occupied_true in H. now rewrite H.
Qed.

(** Re-inserting the occupied slots of a table with pairwise distinct
    keys into a large enough array succeeds and moves exactly its keys. *)
Lemma GrowTable_loop_ok (Config : OAHTConfig) (allkeys : list string) (m' : Z) (fuel : nat) :
  (forall k, k ∈ allkeys ->
     good_walk m' (stride_of Config k m') (start_of Config k m') /\
     Z.of_nat (String.length k) < MAX_KEYLEN) ->
  m' < Z.of_nat fuel ->
  forall (suf pre : list (OAHTSlot T)) (nt : list (OAHTSlot T)) (p : Z),
    length nt = Z.to_nat m' ->
    Forall (fun s => State s <> DELETED) nt ->
    keys_of nt ≡ₚ keys_of pre ->
    NoDup (keys_of (pre ++ suf)) ->
    (forall k, k ∈ keys_of (pre ++ suf) -> k ∈ allkeys) ->
    occupied_count (pre ++ suf) < m' ->
    exists nt' p',
      GrowTable_loop Config fuel (pre ++ suf) (seq (length pre) (length suf)) nt m' p
        = (Done nt', p') /\
      length nt' = Z.to_nat m' /\
      Forall (fun s => State s <> DELETED) nt' /\
      keys_of nt' ≡ₚ keys_of (pre ++ suf).
Proof.
  intros Hgood Hfuel.
  induction suf as [| s suf IH]; intros pre nt p Hlen Hnd Hkeys Hdup Hall Hroom.
  - cbn [length seq GrowTable_loop]. exists nt, p.
    rewrite app_nil_r. auto.
  - cbn [length seq GrowTable_loop].
    rewrite (list_lookup_middle pre suf s) by reflexivity.
    assert (Hsplit : pre ++ s :: suf = (pre ++ [s]) ++ suf)
      by (now rewrite <- app_assoc).
    assert (Hlen' : S (length pre) = length (pre ++ [s]))
      by (rewrite length_app; simpl; lia).
    destruct (State s) eqn:Est.
    + assert (Hin : Key s ∈ keys_of (pre ++ s :: suf)).
      { rewrite Hsplit, keys_of_app, occupied_true_keys by assumption.
        rewrite !elem_of_app. left. right. apply list_elem_of_singleton. reflexivity. }
      assert (Hfresh : Key s ∉ keys_of nt).
      { rewrite Hkeys. intros Hpre.
        rewrite Hsplit, keys_of_app, occupied_true_keys in Hdup by assumption.
        apply NoDup_app in Hdup as (Hdup & _ & _).
        apply NoDup_app in Hdup as (_ & Hdis & _).
        apply (Hdis _ Hpre). apply list_elem_of_singleton. reflexivity. }
      assert (Hcnt : occupied_count nt < m').
      { rewrite occupied_count_keys, Hkeys.
        rewrite occupied_count_keys, Hsplit, keys_of_app, occupied_true_keys in Hroom
          by assumption.
        rewrite !length_app in Hroom. lia. }
      destruct (InsertInTable_fresh_key Config nt m' (Key s) (Data s) p fuel)
        as (n' & p' & s' & Hn' & Hins & _ & Hslot & Hun);
        try assumption; [apply Hgood, Hall, Hin | apply Hgood, Hall, Hin |].
      rewrite Hins.
      pose proof (Hgood _ (Hall _ Hin)) as ((Hm & Hs & Hst & Hg) & _).
      pose proof (probe_index_range m' _ _ n' Hm Hs Hst) as Hr.
      rewrite Hsplit, Hlen'. apply IH.
      * now rewrite length_store_at.
      * unfold store_at. apply Forall_insert; [assumption | simpl; congruence].
      * rewrite occupied_true_keys by assumption.
        unfold store_at. rewrite slot_at_lookup in Hslot by lia.
        rewrite (keys_of_store nt _ s') by (assumption || congruence).
        rewrite Hkeys. apply Permutation_cons_append.
      * now rewrite <- Hsplit.
      * now rewrite <- Hsplit.
      * now rewrite <- Hsplit.
    + rewrite Hsplit, Hlen'. apply IH; try assumption; try (now rewrite <- Hsplit).
      rewrite occupied_false_keys by congruence. assumption.
    + rewrite Hsplit, Hlen'. apply IH; try assumption; try (now rewrite <- Hsplit).
      rewrite occupied_false_keys by congruence. assumption.
Qed.

End Growth.

(** ** The load test *)

(** Where a count above the capacity trips the load test, a table that
    holds no more entries than it has slots and passes the test has a
    free slot. *)
Lemma loadFactor_within (c m : Z) (mlf : float) :
  loadFactor_exceeds (m + 1) m mlf = true ->
  c <= m -> loadFactor_exceeds (c + 1) m mlf = false -> c < m.
Proof.
  intros Hfull Hc H.
  destruct (Z.eq_dec c m) as [-> | Hne]; [congruence | lia].
Qed.

(** ** insert followed by find *)

Lemma good_key_walk (Config : OAHTConfig) (m : Z) (k : string) :
  0 < m < 2 ^ 31 -> good_key Config m k = true ->
  good_walk m (stride_of Config k m) (start_of Config k m) /\
  Z.of_nat (String.length k) < MAX_KEYLEN.
Proof.
  intros Hm H. unfold good_key in H.
  repeat (apply andb_prop in H as [H ?]).
  unfold good_walk, start_of.
  rewrite u32_small by (unfold UINT_MOD; lia).
  repeat split; lia.
Qed.

Lemma good_capacity_full (Config : OAHTConfig) (keys : list string) (m : Z) :
  good_capacity Config keys m = true ->
  loadFactor_exceeds (m + 1) m (MaxLoadFactor_ Config) = true.
Proof.
  intros H. unfold good_capacity in H.
  repeat (apply andb_prop in H as [H ?]). assumption.
Qed.

Lemma good_capacity_spec (Config : OAHTConfig) (keys : list string) (m : Z) :
  good_capacity Config keys m = true ->
  0 < m < 2 ^ 31 /\
  0 <= growth_target m (GrowthFactor_ Config) < UINT_MOD /\
  m < next_capacity Config m /\
  forall k, k ∈ keys ->
    good_walk m (stride_of Config k m) (start_of Config k m) /\
    Z.of_nat (String.length k) < MAX_KEYLEN.
Proof.
  intros H. unfold good_capacity in H.
  repeat (apply andb_prop in H as [H ?]).
  assert (Hm : 0 < m < 2 ^ 31) by lia.
  split; [lia | split; [lia | split; [lia |]]].
  intros k Hk. apply good_key_walk; [assumption |].
  rewrite forallb_forall in H0. apply H0. now apply list_elem_of_In.
Qed.

Section RoundTrip.

Context {T : Type} (T_default : T).
Implicit Types (t : OAHashTable T) (k : string) (v : T).

Lemma inserts_inv_with_probes Config allkeys t p :
  inserts_inv Config allkeys t -> inserts_inv Config allkeys (with_probes p t).
Proof. intros [? ? ? ? ? ? ?]. split; assumption. Qed.

(** The placement of a new key in a table that has a free slot, and the
    lookup that follows. *)
Lemma place_and_find Config allkeys t k v (fuel : nat) :
  let m := TableSize_ (mStats t) in
  inserts_inv Config allkeys t ->
  occupied_count (mTable t) < m ->
  good_capacity Config allkeys m = true ->
  k ∈ allkeys -> k ∉ keys_of (mTable t) -> m < Z.of_nat fuel ->
  exists tb' p',
    InsertInTable (mConfig t) fuel (mTable t) m k v (Probes_ (mStats t)) = (Done tb', p') /\
    let t1 := mkTable tb' (mConfig t)
                (mkStats (u32 (Count_ (mStats t) + 1)) m p' (Expansions_ (mStats t)))
                (freed t) in
    inserts_inv Config allkeys t1 /\
    keys_of tb' ≡ₚ k :: keys_of (mTable t) /\
    exists p, find fuel t1 k = (Done v, with_probes p t1).
Proof.
  intros m [Hcfg Hlen Hnd Hcnt Hroom Hkeys Hdup] Hfree Hgood Hk Hfresh Hfuel.
  apply good_capacity_spec in Hgood as (Hm & _ & _ & Hwalk).
  destruct (Hwalk k Hk) as [Hwalk' Hfit]. clear Hwalk. rename Hwalk' into Hwalk.
  rewrite Hcfg.
  set (st := stride_of Config k m) in *. set (h := start_of Config k m) in *.
  pose proof Hwalk as (Hm' & Hh & Hst & Hg).
  destruct (InsertInTable_fresh_key Config (mTable t) m k v (Probes_ (mStats t)) fuel)
    as (n' & p' & s' & Hn' & Hins & Hocc & Hslot & Hun); try assumption.
  fold st h in Hins, Hocc, Hslot.
  pose proof (probe_index_range m st h n' Hm' Hh Hst) as Hr.
  set (tb' := store_at (mTable t) (probe_index m st h n') (mkSlot k v OCCUPIED)) in *.
  assert (Hperm : keys_of tb' ≡ₚ k :: keys_of (mTable t)).
  { unfold tb', store_at. rewrite slot_at_lookup in Hslot by lia.
    apply (keys_of_store _ _ s'); [assumption | congruence]. }
  exists tb', p'. split; [assumption |]. cbn zeta. split; [| split; [assumption |]].
  - split; cbn [mTable mConfig mStats TableSize_ Count_].
    + reflexivity.
    + unfold tb'. now rewrite length_store_at.
    + unfold tb', store_at. apply Forall_insert; [assumption | simpl; congruence].
    + rewrite Hcnt. rewrite (occupied_count_keys tb'), Hperm. cbn [length].
      rewrite occupied_count_keys in Hfree |- *.
      rewrite u32_small by (unfold UINT_MOD; lia). lia.
    + rewrite (occupied_count_keys tb'), Hperm. cbn [length].
      rewrite occupied_count_keys in Hfree. lia.
    + intros k' Hk'. rewrite Hperm in Hk'. apply elem_of_cons in Hk' as [-> | Hk']; auto.
    + rewrite Hperm. now apply NoDup_cons.
  - destruct (slot_at_in_range tb' h) as [sh Hsh].
    { unfold tb'. rewrite length_store_at. lia. }
    destruct (IndexOf_loop_after_insert (mTable t) m k v st h n' s') with
      (fuel := fuel) (j := 0%nat) (p := probe_if_unoccupied sh p') as [p1 Hp1];
      try assumption; try congruence; try lia.
    fold tb' in Hp1. cbn [probe_index] in Hp1.
    exists p1. unfold find, IndexOf.
    cbn [mTable mConfig mStats TableSize_ Probes_].
    fold st h. rewrite Hsh, Hp1.
    destruct (Z.eqb_spec (probe_index m st h n') (-1)) as [Hneg | _]; [lia |].
    cbn [mbind option_bind with_probes with_stats mTable].
    unfold tb'. rewrite slot_at_store_eq by lia. reflexivity.
Qed.

Lemma GrowTable_ok Config allkeys t (fuel : nat) :
  let m := TableSize_ (mStats t) in
  inserts_inv Config allkeys t ->
  good_capacity Config allkeys m = true ->
  good_capacity Config allkeys (next_capacity Config m) = true ->
  next_capacity Config m < Z.of_nat fuel ->
  exists t',
    GrowTable T_default fuel t = (Done tt, t') /\
    inserts_inv Config allkeys t' /\
    TableSize_ (mStats t') = next_capacity Config m /\
    Expansions_ (mStats t') = u32 (Expansions_ (mStats t) + 1) /\
    keys_of (mTable t') ≡ₚ keys_of (mTable t) /\
    occupied_count (mTable t') < next_capacity Config m /\
    Count_ (mStats t') = Count_ (mStats t).
Proof.
  intros m [Hcfg Hlen Hnd Hcnt Hroom Hkeys Hdup] Hgood Hgood' Hfuel.
  apply good_capacity_spec in Hgood as (Hm & Htarget & Hgrow & _).
  apply good_capacity_spec in Hgood' as (Hm' & _ & _ & Hwalk').
  unfold GrowTable. rewrite Hcfg. fold m.
  destruct (Z.ltb_spec (growth_target m (GrowthFactor_ Config)) 0) as [| _]; [lia |].
  destruct (Z.leb_spec UINT_MOD (growth_target m (GrowthFactor_ Config))) as [| _]; [lia |].
  cbn [orb]. change (u32 (GetClosestPrime (growth_target m (GrowthFactor_ Config))))
    with (next_capacity Config m).
  set (m' := next_capacity Config m) in *.
  destruct (GrowTable_loop_ok Config allkeys m' fuel Hwalk' Hfuel (mTable t) []
              (replicate (Z.to_nat m') (fresh_slot T_default)) (Probes_ (mStats t)))
    as (nt' & p' & Hloop & Hlen' & Hnd' & Hperm).
  - apply length_replicate.
  - apply Forall_replicate. simpl. congruence.
  - now rewrite keys_of_replicate_fresh.
  - assumption.
  - assumption.
  - simpl. lia.
  - cbn [app length] in Hloop. rewrite Hlen in Hloop. fold m in Hloop. rewrite Hloop.
    cbn [app] in Hperm.
    eexists. split; [reflexivity |].
    cbn [mTable mConfig mStats TableSize_ Count_ Expansions_].
    repeat split; try assumption; cbn [mTable mConfig mStats TableSize_ Count_];
      try reflexivity.
    + rewrite Hcnt. rewrite !occupied_count_keys. now rewrite Hperm.
    + rewrite occupied_count_keys, Hperm, <- occupied_count_keys. lia.
    + intros k Hk. rewrite Hperm in Hk. auto.
    + now rewrite Hperm.
    + rewrite occupied_count_keys, Hperm, <- occupied_count_keys. lia.
Qed.

(** One [insert] of a new key, growing or not, and the [find] after it. *)
Lemma insert_step Config allkeys t k v (fuel : nat) :
  let m := TableSize_ (mStats t) in
  let grows := loadFactor_exceeds (u32 (Count_ (mStats t) + 1)) m
                 (MaxLoadFactor_ Config) in
  inserts_inv Config allkeys t ->
  good_capacity Config allkeys m = true ->
  (grows = true ->
   good_capacity Config allkeys (next_capacity Config m) = true /\
   next_capacity Config m < Z.of_nat fuel) ->
  k ∈ allkeys -> k ∉ keys_of (mTable t) ->
  m < Z.of_nat fuel ->
  exists t1 p,
    insert T_default fuel t k v = (Done tt, t1) /\
    find fuel t1 k = (Done v, with_probes p t1) /\
    inserts_inv Config allkeys t1 /\
    keys_of (mTable t1) ≡ₚ k :: keys_of (mTable t) /\
    Count_ (mStats t1) = u32 (Count_ (mStats t) + 1) /\
    TableSize_ (mStats t1) = if grows then next_capacity Config m else m.
Proof.
  intros m grows Hinv Hgood Hnext Hk Hfresh Hfuel.
  pose proof Hinv as [Hcfg Hlen Hnd Hcnt Hroom Hkeys Hdup].
  unfold insert. fold m. rewrite Hcfg. fold grows.
  destruct grows eqn:Hload.
  - destruct (Hnext eq_refl) as [Hgood' Hfuel'].
    destruct (GrowTable_ok Config allkeys t fuel Hinv Hgood Hgood' Hfuel')
      as (tg & Hg & Hinvg & Hsize & _ & Hperm & Hroomg & Hcntg).
    rewrite Hg. fold m in Hsize.
    destruct (place_and_find Config allkeys tg k v fuel)
      as (tb' & p' & Hins & Hinv1 & Hperm1 & p & Hfind);
      try assumption; try (rewrite Hsize; assumption).
    + now rewrite Hperm.
    + rewrite Hins. eexists. exists p. split; [reflexivity |].
      split; [exact Hfind |]. split; [exact Hinv1 |].
      split; [now rewrite Hperm1, Hperm |].
      cbn [mStats Count_ TableSize_]. rewrite Hcntg. split; [reflexivity | exact Hsize].
  - pose proof Hgood as Hgood2. apply good_capacity_spec in Hgood2 as (Hm & _).
    pose proof (good_capacity_full _ _ _ Hgood) as Hfull. fold m in Hfull.
    pose proof (occupied_count_le (mTable t)) as Hle.
    pose proof (occupied_count_keys (mTable t)) as Hnn.
    unfold grows in Hload.
    rewrite u32_small in Hload by (unfold UINT_MOD; rewrite Hcnt; fold m in Hroom; lia).
    apply loadFactor_within in Hload; [| assumption | rewrite Hcnt; exact Hroom].
    destruct (place_and_find Config allkeys t k v fuel)
      as (tb' & p' & Hins & Hinv1 & Hperm1 & p & Hfind);
      try assumption; [fold m; lia |].
    subst m. rewrite Hins. eexists. exists p.
    split; [reflexivity |].
    split; [exact Hfind |]. split; [exact Hinv1 |]. split; [exact Hperm1 |].
    split; reflexivity.
Qed.

Lemma insert_capacities_head Config (n : nat) :
  forall m c, exists tl, insert_capacities Config m c n = m :: tl.
Proof.
  induction n as [| n IH]; intros m c; cbn [insert_capacities]; [eauto |].
  destruct (loadFactor_exceeds _ _ _); eauto.
Qed.

Lemma fuel_bound_covers (caps : list Z) (fuel : nat) :
  (fuel_bound caps <= fuel)%nat -> Forall (fun m => m < Z.of_nat fuel) caps.
Proof.
  unfold fuel_bound. revert fuel.
  induction caps as [| c caps IH]; intros fuel H; [constructor |].
  cbn [foldr] in H. apply Forall_cons. split; [lia |]. apply IH. lia.
Qed.

Lemma inserts_inv_new Config allkeys :
  inserts_inv Config allkeys (OAHashTable_new T_default Config).
Proof.
  unfold OAHashTable_new. split; cbn [mTable mConfig mStats TableSize_ Count_].
  - reflexivity.
  - apply length_replicate.
  - apply Forall_replicate. simpl. congruence.
  - now rewrite occupied_count_keys, keys_of_replicate_fresh.
  - rewrite occupied_count_keys, keys_of_replicate_fresh. simpl.
    pose proof (u32_range (InitialTableSize_ Config)). lia.
  - rewrite keys_of_replicate_fresh. intros k Hk. now apply elem_of_nil in Hk.
  - rewrite keys_of_replicate_fresh. constructor.
Qed.

Lemma roundtrip_from Config allkeys (fuel : nat) :
  forall (kvs : list (string * T)) t,
    inserts_inv Config allkeys t ->
    NoDup (map fst kvs) ->
    (forall k, k ∈ map fst kvs -> k ∈ allkeys /\ k ∉ keys_of (mTable t)) ->
    Forall (fun m => good_capacity Config allkeys m = true /\ m < Z.of_nat fuel)
      (insert_capacities Config (TableSize_ (mStats t)) (Count_ (mStats t))
         (length kvs)) ->
    roundtrip T_default fuel t kvs.
Proof.
  induction kvs as [| [k v] rest IH]; intros t Hinv Hdup Hkeys Hcaps.
  - exact I.
  - cbn [roundtrip]. cbn [map fst] in Hdup, Hkeys.
    apply NoDup_cons in Hdup as [Hk Hdup].
    destruct (Hkeys k) as [Hin Hfresh]; [left |].
    assert (Hhere : good_capacity Config allkeys (TableSize_ (mStats t)) = true /\
                    TableSize_ (mStats t) < Z.of_nat fuel).
    { destruct (insert_capacities_head Config (length ((k, v) :: rest))
                  (TableSize_ (mStats t)) (Count_ (mStats t))) as [tl Htl].
      rewrite Htl in Hcaps. now apply Forall_cons in Hcaps as [? _]. }
    destruct Hhere as [Hgood Hfuel].
    cbn [length insert_capacities] in Hcaps.
    destruct (insert_step Config allkeys t k v fuel)
      as (t1 & p & Hins & Hfind & Hinv1 & Hperm & Hcnt1 & Hsize);
      try assumption.
    { intros Hgrows. rewrite Hgrows in Hcaps.
      apply Forall_cons in Hcaps as [_ Hcaps].
      destruct (insert_capacities_head Config (length rest)
                  (next_capacity Config (TableSize_ (mStats t)))
                  (u32 (Count_ (mStats t) + 1))) as [tl Htl].
      rewrite Htl in Hcaps. now apply Forall_cons in Hcaps as [? _]. }
    exists t1, (with_probes p t1). split; [assumption |]. split; [assumption |].
    apply IH.
    + now apply inserts_inv_with_probes.
    + assumption.
    + intros k' Hk'. destruct (Hkeys k') as [Hin' Hfresh']; [now right |].
      split; [assumption |]. cbn [with_probes with_stats mTable]. rewrite Hperm.
      intros [-> | Hold]%elem_of_cons; contradiction.
    + cbn [with_probes with_stats mStats set_Probes TableSize_ Count_].
      rewrite Hcnt1, Hsize.
      destruct (loadFactor_exceeds _ _ _).
      * now apply Forall_cons in Hcaps as [_ Hcaps].
      * assumption.
Qed.

(** C4 (as amended): for every sequence of inserts of pairwise distinct
    keys, each shorter than MAX_KEYLEN, into a newly constructed table,
    every [insert k v] returns and the [find k] that follows it returns
    [v], under either deletion policy and across growths, when every
    capacity the table takes during the sequence is below 2^31 and
    smaller than the one it grows to (the growth target fitting an
    [unsigned]), would be grown by the insert into a full table, and
    gives primary hash values in range and each key a stride in
    [1, capacity] that is coprime to the capacity.  The capacities are
    those the load test of the source, in double arithmetic, leads to:
    one per growth. *)
Theorem insert_find_roundtrip (Config : OAHTConfig) (kvs : list (string * T)) (fuel : nat) :
  let caps := insert_capacities Config (u32 (InitialTableSize_ Config)) 0
                (length kvs) in
  NoDup (map fst kvs) ->
  forallb (good_capacity Config (map fst kvs)) caps = true ->
  (fuel_bound caps <= fuel)%nat ->
  roundtrip T_default fuel (OAHashTable_new T_default Config) kvs.
Proof.
  intros caps Hdup Hgood Hfuel.
  apply (roundtrip_from Config (map fst kvs)); try assumption.
  - apply inserts_inv_new.
  - intros k Hk. split; [assumption |].
    cbn [OAHashTable_new mTable]. rewrite keys_of_replicate_fresh. apply not_elem_of_nil.
  - apply fuel_bound_covers in Hfuel.
    rewrite forallb_forall in Hgood. rewrite Forall_forall in Hfuel |- *.
    intros m Hm. split; [apply Hgood; now apply list_elem_of_In | now apply Hfuel].
Qed.

End RoundTrip.

Lemma insert_find_roundtrip_witness :
  insert_capacities (Samples.double 3 MARK) 3 0 30 = [3; 7; 17; 37; 79] /\
  roundtrip 0 80 (OAHashTable_new 0 (Samples.double 3 MARK)) Samples.thirty_pairs.
Proof.
  split; [vm_compute; reflexivity |].
  apply (insert_find_roundtrip 0 (Samples.double 3 MARK) Samples.thirty_pairs 80).
  - apply (bool_decide_unpack _). vm_compute. exact I.
  - vm_compute. reflexivity.
  - vm_compute. lia.
Defined.

(** ** A stride that is not coprime to the capacity *)

Section Strided.

Import Samples.
Local Open Scope string_scope.

Lemma strided_hashes_in_range (k : string) (m : Z) :
  1 < m ->
  0 <= PrimaryHashFunc_ (strided 9) k m < m /\
  forall h2, SecondaryHashFunc_ (strided 9) = Some h2 -> 0 <= h2 k (m - 1) < m - 1.
Proof.
  intros Hm. split; [simpl; lia |].
  intros h2 [= <-]. apply Z.mod_pos_bound. lia.
Qed.

Lemma strided9_walk_cycles (fuel : nat) :
  forall (index p q : Z), index = 0 \/ index = 3 \/ index = 6 ->
    fst (InsertInTable_loop fuel (mTable (strided9_abc q)) 9 "d" 3 index p) = Timeout.
Proof.
  induction fuel as [| fuel IH]; intros index p q H; [reflexivity |].
  destruct H as [-> | [-> | ->]]; cbn [InsertInTable_loop].
  - change (slot_at (mTable (strided9_abc q)) 0) with (Some (mkSlot "a" 1 OCCUPIED)).
    change (advance 0 3 9) with 3. cbn. apply (IH _ _ q). auto.
  - change (slot_at (mTable (strided9_abc q)) 3) with (Some (mkSlot "b" 2 OCCUPIED)).
    change (advance 3 3 9) with 6. cbn. apply (IH _ _ q). auto.
  - change (slot_at (mTable (strided9_abc q)) 6) with (Some (mkSlot "c" 3 OCCUPIED)).
    change (advance 6 3 9) with 0. cbn. apply (IH _ _ q). auto.
Qed.

Lemma strided9_insert_hangs (fuel : nat) (q : Z) :
  fst (insert 0 fuel (strided9_abc q) "d" 4) = Timeout.
Proof.
  unfold insert.
  change (loadFactor_exceeds _ _ _) with false. cbv beta iota.
  unfold InsertInTable.
  change (start_of _ _ _) with 0. change (stride_of _ _ _) with 3.
  pose proof (strided9_walk_cycles fuel 0 (Probes_ (mStats (strided9_abc q))) q) as H.
  destruct (InsertInTable_loop _ _ _ _ _ _ _) as [r p'].
  simpl in H. rewrite H by auto. reflexivity.
Qed.

(** C4 (counterexample): capacity 9, both hash functions in range, every
    key starting at slot 0 with stride 3.  The fourth insert of a new key
    finds slots 0, 3 and 6 occupied and walks them for ever: with no
    amount of fuel do the four inserts, each followed by its find, all
    return. *)
Lemma insert_find_roundtrip_fails :
  NoDup (map fst [("a", 1); ("b", 2); ("c", 3); ("d", 4)]) /\
  (forall k m, 1 < m ->
     0 <= PrimaryHashFunc_ (strided 9) k m < m /\
     forall h2, SecondaryHashFunc_ (strided 9) = Some h2 -> 0 <= h2 k (m - 1) < m - 1) /\
  forall fuel : nat,
    ~ roundtrip 0 fuel (new (strided 9)) [("a", 1); ("b", 2); ("c", 3); ("d", 4)].
Proof.
  split; [apply (bool_decide_unpack _); vm_compute; exact I |].
  split; [intros k m Hm; apply strided_hashes_in_range; assumption |].
  intros fuel H. cbn [roundtrip] in H.
  destruct H as (t1 & t2 & H1 & H2 & t3 & t4 & H3 & H4 & t5 & t6 & H5 & H6 & t7 & t8 & H7 & _).
  assert (Hhang : forall q, fst (insert 0 fuel (strided9_abc q) "d" 4) = Timeout)
    by (intros q; apply strided9_insert_hangs).
  do 4 (destruct fuel as [| fuel];
        [ vm_compute in H1; try discriminate; injection H1 as <-;
          vm_compute in H2; try discriminate; injection H2 as <-;
          vm_compute in H3; try discriminate; injection H3 as <-;
          vm_compute in H4; try discriminate; injection H4 as <-;
          vm_compute in H5; try discriminate; injection H5 as <-;
          vm_compute in H6; try discriminate; injection H6 as <-;
          vm_compute in H7; discriminate | ]).
  vm_compute in H1. injection H1 as <-.
  vm_compute in H2. injection H2 as <-.
  vm_compute in H3. injection H3 as <-.
  vm_compute in H4. injection H4 as <-.
  vm_compute in H5. injection H5 as <-.
  vm_compute in H6. injection H6 as <-.
  apply (f_equal fst) in H7. cbn [fst] in H7.
  specialize (Hhang 12).
  assert (Hdone : fst (insert 0 (S (S (S (S fuel)))) (strided9_abc 12) "d" 4) = Done tt)
    by exact H7.
  rewrite Hhang in Hdone. discriminate.
Qed.

End Strided.

(** ** Tombstones under MARK *)

Section Tombstones.

Import Samples.
Local Open Scope string_scope.

Lemma sum_hash_in_range (k : string) (m : Z) : 0 < m -> 0 <= sum_hash k m < m.
Proof. intros Hm. unfold sum_hash. apply Z.mod_pos_bound. assumption. Qed.

(** C1 (the code at a failing input): capacity 7, linear probing, MARK.
    After [insert "A" 1], the key is present; [remove "A"] returns and
    takes one off the count; but the [find "A"] that follows returns the
    value 1 again, although no occupied slot holds "A" any more:
    [IndexOf] compares the key of the slot it left in state DELETED. *)
Lemma find_after_remove_MARK :
  presentb (mTable mark7_A) "A" = true /\
  fst (remove 50 mark7_A "A") = Done tt /\
  Count_ (mStats mark7_A) = 1 /\
  Count_ (mStats (snd (remove 50 mark7_A "A"))) = 0 /\
  presentb (mTable (snd (remove 50 mark7_A "A"))) "A" = false /\
  states (snd (remove 50 mark7_A "A"))
    = [UNOCCUPIED; UNOCCUPIED; DELETED; UNOCCUPIED; UNOCCUPIED;
       UNOCCUPIED; UNOCCUPIED] /\
  fst (find 50 (snd (remove 50 mark7_A "A")) "A") = Done 1.
Proof. vm_compute. repeat split; reflexivity. Qed.

(** Under PACK the repair after a removal walks the adjacent slots, not
    the probe sequences that went through the vacated slot.  Capacity 7,
    double hashing: "F" sits in slot 0, "I" in slot 3, and "b", which
    starts at 0 with stride 3, in slot 6.  After [remove "F"] slot 6
    still holds "b", but neither [find "b"] nor [remove "b"] reaches it,
    and [insert "b" 9] stores the key a second time. *)
Lemma PACK_double_hashing_loses_key :
  states pack7_FIb_F_removed
    = [UNOCCUPIED; UNOCCUPIED; UNOCCUPIED; OCCUPIED; UNOCCUPIED; UNOCCUPIED;
       OCCUPIED] /\
  presentb (mTable pack7_FIb_F_removed) "b" = true /\
  fst (find 50 pack7_FIb_F_removed "b") = Throw E_ITEM_NOT_FOUND /\
  fst (remove 50 pack7_FIb_F_removed "b") = Throw E_ITEM_NOT_FOUND /\
  fst (insert 0 50 pack7_FIb_F_removed "b" 9) = Done tt.
Proof. vm_compute. repeat split; reflexivity. Qed.

(** C2 (the code at a failing input): capacity 7, linear probing, MARK;
    "A" and "H" both hash to slot 2.  After both have been inserted and
    removed, no occupied slot holds "H", yet [insert "H" 3] throws
    E_DUPLICATE: the guard run from the tombstone of "A" compares the key
    of the tombstone of "H". *)
Lemma insert_absent_key_duplicate_MARK :
  sum_hash "A" 7 = 2 /\ sum_hash "H" 7 = 2 /\
  states mark7_AH_removed
    = [UNOCCUPIED; UNOCCUPIED; DELETED; DELETED; UNOCCUPIED;
       UNOCCUPIED; UNOCCUPIED] /\
  presentb (mTable mark7_AH_removed) "H" = false /\
  fst (insert 0 50 mark7_AH_removed "H" 3) = Throw E_DUPLICATE.
Proof. vm_compute. repeat split; reflexivity. Qed.

(** C3 (the code at a failing input): capacity 7, linear probing, MARK.
    The second [remove "A"] finds the tombstone of "A", does not throw,
    and decrements the count again: the count wraps to 2^32 - 1 while no
    slot is occupied. *)
Lemma count_after_repeated_remove_MARK :
  (fun t => (Count_ (mStats t), occupied_count (mTable t)))
    <$> run 0 50 (new (linear 7 MARK))
          [call_insert "A" 1; call_remove "A"; call_remove "A"]
  = Some (4294967295, 0).
Proof. vm_compute. reflexivity. Qed.

Lemma tombstones3_reachable :
  run 0 50 (new (linear 3 MARK))
    [call_insert "A" 1; call_remove "A"; call_insert "B" 2; call_remove "B";
     call_insert "C" 3; call_remove "C"]
  = Some tombstones3.
Proof. vm_compute. reflexivity. Qed.

Lemma tombstones3_guard_cycles (fuel : nat) :
  forall (index p : Z), index = 0 \/ index = 1 \/ index = 2 ->
    fst (CheckForMarkInsertionDuplicate_loop fuel (mTable tombstones3) 3 "E" 1 index p)
    = Timeout.
Proof.
  induction fuel as [| fuel IH]; intros index p H; [reflexivity |].
  destruct H as [-> | [-> | ->]]; cbn [CheckForMarkInsertionDuplicate_loop].
  - change (slot_at (mTable tombstones3) 0) with (Some (mkSlot "B" 2 DELETED)).
    change (advance 0 1 3) with 1. cbn. apply IH. auto.
  - change (slot_at (mTable tombstones3) 1) with (Some (mkSlot "C" 3 DELETED)).
    change (advance 1 1 3) with 2. cbn. apply IH. auto.
  - change (slot_at (mTable tombstones3) 2) with (Some (mkSlot "A" 1 DELETED)).
    change (advance 2 1 3) with 0. cbn. apply IH. auto.
Qed.

(** C5 (the code at a failing input): capacity 3, linear probing, MARK,
    after "A", "B" and "C" have each been inserted and removed.  The
    count is 0, so [insert "E" 5] does not grow; slot 0 is a tombstone,
    so the guard runs, and with no unoccupied slot and no key "E" in the
    table its loop never ends: the call times out whatever the fuel. *)
Lemma insert_guard_never_returns :
  run 0 50 (new (linear 3 MARK))
    [call_insert "A" 1; call_remove "A"; call_insert "B" 2; call_remove "B";
     call_insert "C" 3; call_remove "C"]
  = Some tombstones3 /\
  forall fuel : nat, fst (insert 0 fuel tombstones3 "E" 5) = Timeout.
Proof.
  split; [apply tombstones3_reachable |].
  intros fuel. unfold insert.
  change (loadFactor_exceeds _ _ _) with false. cbv beta iota.
  unfold InsertInTable.
  change (start_of _ _ _) with 0. change (stride_of _ _ _) with 1.
  destruct fuel as [| fuel]; [reflexivity |].
  cbn [InsertInTable_loop].
  change (slot_at (mTable tombstones3) 0) with (Some (mkSlot "B" 2 DELETED)).
  cbn [State DeletionPolicy_ mConfig tombstones3 linear].
  unfold CheckForMarkInsertionDuplicate. change (u32 (0 + 1)) with 1.
  pose proof (tombstones3_guard_cycles (S fuel) 1 (Probes_ (mStats tombstones3))) as H.
  destruct (CheckForMarkInsertionDuplicate_loop _ _ _ _ _ _ _) as [r p'].
  simpl in H. rewrite H by auto. reflexivity.
Qed.

(** C7 (the code at a failing input): capacity 7, linear probing, the
    calls [insert "A" 1; remove "A"].  After the second call [find "A"]
    succeeds under MARK and fails under PACK. *)
Lemma MARK_PACK_differ :
  (fun t => finds 50 t "A")
    <$> run 0 50 (new (linear 7 MARK)) [call_insert "A" 1; call_remove "A"]
  = Some true /\
  (fun t => finds 50 t "A")
    <$> run 0 50 (new (linear 7 PACK)) [call_insert "A" 1; call_remove "A"]
  = Some false.
Proof. vm_compute. split; reflexivity. Qed.

(** C10 (the code at a failing input): capacity 3, linear probing, MARK;
    "A" and "D" both hash to slot 2, in range.  After "A" has been
    inserted and removed, [insert "D" 2] stops at the tombstone in slot
    2 and the guard starts at index 2 + 1 = 3 without the wrap-around
    test: a slot access outside the array. *)
Lemma guard_first_index_out_of_bounds :
  (forall k m, 0 < m -> 0 <= PrimaryHashFunc_ (linear 3 MARK) k m < m) /\
  start_of (linear 3 MARK) "D" 3 = 2 /\ stride_of (linear 3 MARK) "D" 3 = 1 /\
  states mark3_A_removed = [UNOCCUPIED; UNOCCUPIED; DELETED] /\
  slot_at (mTable mark3_A_removed) (u32 (2 + 1)) = None /\
  fst (CheckForMarkInsertionDuplicate 50 2 1 (mTable mark3_A_removed) 3 "D"
         (Probes_ (mStats mark3_A_removed))) = Fault /\
  fst (insert 0 50 mark3_A_removed "D" 2) = Fault.
Proof.
  split; [intros k m Hm; now apply sum_hash_in_range |].
  vm_compute. repeat split; reflexivity.
Qed.

End Tombstones.

(** ** Primes *)

Lemma no_divisor_from_sound (fuel : nat) :
  forall d n : Z,
    2 <= d -> n < (d + Z.of_nat fuel) * (d + Z.of_nat fuel) ->
    no_divisor_from fuel d n = true ->
    forall q, d <= q -> q * q <= n -> ~ (q | n).
Proof.
  induction fuel as [| fuel IH]; intros d n Hd Hn H q Hq Hqq.
  - nia.
  - cbn [no_divisor_from] in H.
    destruct (Z.ltb_spec n (d * d)) as [Hlt | _]; [nia |].
    destruct (Z.eqb_spec (n mod d) 0) as [| Hmod]; [discriminate |].
    destruct (Z.eq_dec q d) as [-> | Hne].
    + intros Hdiv. apply Hmod. apply Z.mod_divide; [lia | assumption].
    + apply (IH (d + 1) n); try assumption; lia.
Qed.

Lemma is_prime_sound (n : Z) : is_prime n = true -> Z.prime n.
Proof.
  unfold is_prime. intros [Hn H]%andb_prop.
  apply Z.leb_le in Hn.
  assert (Hsmall : forall q, 2 <= q -> q * q <= n -> ~ (q | n)).
  { apply (no_divisor_from_sound (Z.to_nat n) 2 n); [lia | nia | assumption]. }
  split; [lia |].
  intros q Hq [c Hc].
  assert (Hc1 : 1 < c) by nia.
  destruct (Z.le_gt_cases (q * q) n) as [Hle | Hgt].
  - apply (Hsmall q); [lia | assumption | exists c; assumption].
  - apply (Hsmall c); [lia | nia | exists q; lia].
Qed.

Lemma no_divisor_from_complete (fuel : nat) :
  forall d n : Z, 2 <= d -> Z.prime n -> no_divisor_from fuel d n = true.
Proof.
  induction fuel as [| fuel IH]; intros d n Hd Hp; cbn [no_divisor_from]; [reflexivity |].
  destruct (Z.ltb_spec n (d * d)) as [| Hle]; [reflexivity |].
  destruct (Z.eqb_spec (n mod d) 0) as [Hmod | _]; [| apply IH; [lia | assumption]].
  exfalso. destruct Hp as [Hn Hp].
  apply (Hp d); [nia |]. apply Z.mod_divide; [lia | assumption].
Qed.

Lemma is_prime_complete (n : Z) : Z.prime n -> is_prime n = true.
Proof.
  intros Hp. unfold is_prime. apply andb_true_intro. split.
  - destruct Hp as [Hn _]. apply Z.leb_le. lia.
  - apply no_divisor_from_complete; [lia | assumption].
Qed.

(** What the search returns. *)
Lemma first_prime_from_spec (depth : nat) :
  forall n,
    match first_prime_from depth n with
    | inl p =>
        n <= p < n + 2 ^ Z.of_nat depth /\ is_prime p = true /\
        forall q, n <= q < p -> is_prime q = false
    | inr n' =>
        n' = n + 2 ^ Z.of_nat depth /\
        forall q, n <= q < n' -> is_prime q = false
    end.
Proof.
  induction depth as [| depth IH]; intros n.
  - cbn [first_prime_from]. change (2 ^ Z.of_nat 0) with 1.
    destruct (is_prime n) eqn:E.
    + split; [lia |]. split; [assumption |]. intros q Hq. lia.
    + split; [reflexivity |]. intros q Hq. now replace q with n by lia.
  - cbn [first_prime_from].
    assert (Hpow : 2 ^ Z.of_nat (S depth) = 2 ^ Z.of_nat depth + 2 ^ Z.of_nat depth).
    { rewrite Nat2Z.inj_succ, Z.pow_succ_r by lia. lia. }
    assert (Hpos : 0 < 2 ^ Z.of_nat depth) by (apply Z.pow_pos_nonneg; lia).
    pose proof (IH n) as H1.
    destruct (first_prime_from depth n) as [p | n1].
    + destruct H1 as (Hp & Hprime & Hleast). repeat split; try assumption; lia.
    + destruct H1 as (-> & Hnone).
      pose proof (IH (n + 2 ^ Z.of_nat depth)) as H2.
      destruct (first_prime_from depth (n + 2 ^ Z.of_nat depth)) as [p | n2].
      * destruct H2 as (Hp & Hprime & Hleast). split; [lia |]. split; [assumption |].
        intros q Hq. destruct (Z.lt_ge_cases q (n + 2 ^ Z.of_nat depth)).
        -- apply Hnone. lia.
        -- apply Hleast. lia.
      * destruct H2 as (-> & Hnone2). split; [lia |].
        intros q Hq. destruct (Z.lt_ge_cases q (n + 2 ^ Z.of_nat depth)).
        -- apply Hnone. lia.
        -- apply Hnone2. lia.
Qed.

(** Every number above 1 has a prime divisor. *)
Lemma prime_divisor (n : Z) : 1 < n -> exists p, Z.prime p /\ (p | n).
Proof.
  assert (H : forall (k : nat) n, 1 < n <= Z.of_nat k -> exists p, Z.prime p /\ (p | n)).
  { induction k as [| k IH]; intros m Hm; [lia |].
    destruct (Znumtheory.prime_dec m) as [Hp | Hnp].
    - exists m. split; [now apply Znumtheory.prime_alt | apply Z.divide_refl].
    - destruct (Znumtheory.not_prime_divide m ltac:(lia) Hnp) as (d & Hd & Hdiv).
      destruct (IH d) as (p & Hp & Hpd); [lia |].
      exists p. split; [assumption |]. now apply Z.divide_trans with d. }
  intros Hn. apply (H (Z.to_nat n)). lia.
Qed.

(** The product of the numbers from 1 to [k]. *)
Lemma divide_fact (k : nat) :
  forall d, 1 <= d <= Z.of_nat k -> (d | Z.of_nat (fact k)).
Proof.
  induction k as [| k IH]; intros d Hd; [lia |].
  change (fact (S k)) with (S k * fact k)%nat. rewrite Nat2Z.inj_mul.
  destruct (Z.eq_dec d (Z.of_nat (S k))) as [-> | Hne].
  - apply Z.divide_factor_l.
  - apply Z.divide_mul_r. apply IH. lia.
Qed.

Lemma fact_le_pow (k : nat) : Z.of_nat (fact k) <= Z.of_nat k ^ Z.of_nat k.
Proof.
  induction k as [| k IH]; [simpl; lia |].
  change (fact (S k)) with (S k * fact k)%nat. rewrite Nat2Z.inj_mul.
  rewrite (Nat2Z.inj_succ k) at 3. rewrite Z.pow_succ_r by lia.
  apply Z.mul_le_mono_nonneg_l; [lia |].
  etransitivity; [exact IH |].
  apply Z.pow_le_mono_l. lia.
Qed.

(** Euclid: a prime among [n], ..., [(n - 1)! + 1]. *)
Lemma prime_from (n : Z) :
  2 <= n -> exists p, Z.prime p /\ n <= p <= Z.of_nat (fact (Z.to_nat (n - 1))) + 1.
Proof.
  intros Hn. set (f := Z.of_nat (fact (Z.to_nat (n - 1)))).
  assert (Hf : 1 <= f).
  { unfold f. pose proof (lt_O_fact (Z.to_nat (n - 1))). lia. }
  destruct (prime_divisor (f + 1)) as (p & Hp & Hdiv); [lia |].
  exists p. split; [assumption |].
  pose proof Hp as [Hp1 _].
  split; [| apply Z.divide_pos_le in Hdiv; lia].
  destruct (Z.lt_ge_cases p n) as [Hlt |]; [| lia].
  exfalso.
  assert (Hpf : (p | f)) by (apply divide_fact; lia).
  assert (H1 : (p | 1)).
  { replace 1 with (f + 1 - f) by lia. now apply Z.divide_sub_r. }
  apply Z.divide_1_r_nonneg in H1; lia.
Qed.

Lemma search_depth_covers (n : Z) :
  0 <= n -> exists p, Z.prime p /\ n <= p < n + 2 ^ Z.of_nat (Z.to_nat (n * Z.log2_up n) + 2).
Proof.
  intros Hn.
  assert (Hlog : 0 <= Z.log2_up n) by apply Z.log2_up_nonneg.
  rewrite Nat2Z.inj_add, Z2Nat.id by nia.
  rewrite Z.pow_add_r by nia. change (2 ^ Z.of_nat 2) with 4.
  assert (Hpos : 1 <= 2 ^ (n * Z.log2_up n)).
  { pose proof (Z.pow_pos_nonneg 2 (n * Z.log2_up n)). nia. }
  destruct (Z.le_gt_cases n 2) as [Hsmall | Hbig].
  - exists 2. split; [apply Z.prime_2 | lia].
  - destruct (prime_from n) as (p & Hp & Hge & Hle); [lia |].
    exists p. split; [assumption |]. split; [assumption |].
    pose proof (fact_le_pow (Z.to_nat (n - 1))) as Hfact.
    rewrite Z2Nat.id in Hfact by lia.
    assert (Hpow : (n - 1) ^ (n - 1) <= 2 ^ (n * Z.log2_up n)).
    { transitivity (n ^ n).
      - transitivity (n ^ (n - 1)).
        + apply Z.pow_le_mono_l. lia.
        + apply Z.pow_le_mono_r; lia.
      - rewrite Z.mul_comm, Z.pow_mul_r by lia.
        apply Z.pow_le_mono_l. split; [lia |].
        apply Z.log2_up_spec. lia. }
    lia.
Qed.

Lemma GetClosestPrime_spec (n : Z) :
  0 <= n ->
  is_prime (GetClosestPrime n) = true /\ n <= GetClosestPrime n /\
  forall q, n <= q < GetClosestPrime n -> is_prime q = false.
Proof.
  intros Hn. unfold GetClosestPrime.
  pose proof (first_prime_from_spec (Z.to_nat (n * Z.log2_up n) + 2) n) as H.
  destruct (first_prime_from _ n) as [p | n'].
  - destruct H as (Hp & Hprime & Hleast). repeat split; try assumption; lia.
  - exfalso. destruct H as (-> & Hnone).
    destruct (search_depth_covers n Hn) as (p & Hp & Hrange).
    apply is_prime_complete in Hp. rewrite Hnone in Hp by lia. discriminate.
Qed.

Lemma GetClosestPrime_ge (n : Z) : n <= GetClosestPrime n.
Proof.
  unfold GetClosestPrime.
  pose proof (first_prime_from_spec (Z.to_nat (n * Z.log2_up n) + 2) n) as H.
  destruct (first_prime_from _ n) as [p | n'].
  - lia.
  - destruct H as (-> & _).
    pose proof (Z.pow_pos_nonneg 2 (Z.of_nat (Z.to_nat (n * Z.log2_up n) + 2))). lia.
Qed.

(** [GetClosestPrime n] is the smallest prime that is not below [n]. *)
Lemma GetClosestPrime_prime (n : Z) : 0 <= n -> Z.prime (GetClosestPrime n).
Proof. intros Hn. apply is_prime_sound. now apply GetClosestPrime_spec. Qed.

Lemma GetClosestPrime_least (n p : Z) :
  0 <= n -> Z.prime p -> n <= p -> GetClosestPrime n <= p.
Proof.
  intros Hn Hp Hle. destruct (GetClosestPrime_spec n Hn) as (_ & _ & Hleast).
  destruct (Z.le_gt_cases (GetClosestPrime n) p) as [| Hgt]; [assumption |].
  apply is_prime_complete in Hp. rewrite Hleast in Hp by lia. discriminate.
Qed.

(** ** What insert does to the capacity *)

Section Capacity.

Context {T : Type} (T_default : T).
Implicit Types (t : OAHashTable T) (k : string) (v : T).

Lemma same_but_probes_with_probes t p : same_but_probes t (with_probes p t).
Proof. repeat split. Qed.

Lemma same_but_probes_refl t : same_but_probes t t.
Proof. repeat split. Qed.

Lemma GrowTable_cases (fuel : nat) t (r : outcome unit) t' :
  GrowTable T_default fuel t = (r, t') ->
  match r with
  | Done _ =>
      mConfig t' = mConfig t /\ freed t' = freed t /\
      Count_ (mStats t') = Count_ (mStats t) /\
      TableSize_ (mStats t') = next_capacity (mConfig t) (TableSize_ (mStats t)) /\
      Expansions_ (mStats t') = u32 (Expansions_ (mStats t) + 1)
  | _ => same_but_probes t t'
  end.
Proof.
  unfold GrowTable.
  destruct (_ || _).
  - intros [= <- <-]. apply same_but_probes_refl.
  - destruct (GrowTable_loop _ _ _ _ _ _ _) as [[nt | e | |] p];
      intros [= <- <-]; try apply same_but_probes_with_probes.
    repeat split.
Qed.

(** C8 (as amended): a new table has the configured initial size as its
    capacity, prime or not.  An [insert] that returns adds one to the
    count.  If the double quotient (count + 1) / capacity did not exceed
    MaxLoadFactor, the capacity and the expansion counter are unchanged
    and count / capacity does not exceed MaxLoadFactor afterwards.
    Otherwise the table has grown, once, to
    GetClosestPrime(ceil(capacity * GrowthFactor)), the product being
    the rounded double one; nothing is promised about the load after a
    growth.  The capacity stays prime if it was, and does not decrease
    when ceil(capacity * GrowthFactor) is not below it (for a prime
    that fits an [unsigned]). *)
Theorem insert_capacity (fuel : nat) t k v t' :
  let m := TableSize_ (mStats t) in
  let target := growth_target m (GrowthFactor_ (mConfig t)) in
  let grows := loadFactor_exceeds (u32 (Count_ (mStats t) + 1)) m
                 (MaxLoadFactor_ (mConfig t)) in
  insert T_default fuel t k v = (Done tt, t') ->
  TableSize_ (mStats (OAHashTable_new T_default (mConfig t)))
    = u32 (InitialTableSize_ (mConfig t)) /\
  Count_ (mStats t') = u32 (Count_ (mStats t) + 1) /\
  (grows = false ->
   TableSize_ (mStats t') = m /\
   Expansions_ (mStats t') = Expansions_ (mStats t) /\
   loadFactor_exceeds (Count_ (mStats t')) (TableSize_ (mStats t'))
     (MaxLoadFactor_ (mConfig t)) = false) /\
  (grows = true ->
   0 <= target < UINT_MOD /\
   TableSize_ (mStats t') = u32 (GetClosestPrime target) /\
   Expansions_ (mStats t') = u32 (Expansions_ (mStats t) + 1)) /\
  (Z.prime m -> GetClosestPrime target < UINT_MOD -> Z.prime (TableSize_ (mStats t'))) /\
  (m <= target -> GetClosestPrime target < UINT_MOD -> m <= TableSize_ (mStats t')).
Proof.
  intros m target grows H. split; [reflexivity |].
  unfold insert in H. fold m grows in H.
  destruct grows eqn:Hgrows.
  - destruct (GrowTable T_default fuel t) as [r tg] eqn:Hg.
    pose proof (GrowTable_cases fuel t r tg Hg) as Hc.
    destruct r as [[] | e | |]; try discriminate.
    destruct Hc as (Hcfg & Hfr & Hcnt & Hsize & Hexp).
    assert (Htarget : 0 <= target < UINT_MOD).
    { unfold GrowTable in Hg. fold m target in Hg.
      destruct (Z.ltb_spec target 0); [discriminate |].
      destruct (Z.leb_spec UINT_MOD target); [discriminate | lia]. }
    destruct (InsertInTable _ _ _ _ _ _ _) as [[tb | e | |] p]; try discriminate.
    injection H as <-. cbn [mStats Count_ TableSize_ Expansions_].
    fold m in Hsize. unfold next_capacity in Hsize. fold target in Hsize.
    rewrite Hcnt, Hsize, Hexp.
    split; [reflexivity |]. split; [discriminate |]. split; [auto |].
    pose proof (GetClosestPrime_ge target) as Hge.
    split.
    + intros _ Hlt.
      rewrite u32_small by lia. apply GetClosestPrime_prime. lia.
    + intros Hm Hlt. rewrite u32_small by lia. lia.
  - destruct (InsertInTable _ _ _ _ _ _ _) as [[tb | e | |] p]; try discriminate.
    injection H as <-. cbn [mStats Count_ TableSize_ Expansions_].
    split; [reflexivity |]. split.
    + intros _. split; [reflexivity |]. split; [reflexivity |]. exact Hgrows.
    + split; [discriminate |]. split; [auto | intros; lia].
Qed.

End Capacity.

Section CapacitySamples.

Import Samples.
Local Open Scope string_scope.

(** The load test and the growth product are the rounded ones.  With
    the doubles 1.0 / 3.0 and 7.0 / 3.0 as factors and 3 slots, the
    first insert does not grow the table, 1.0 / 3.0 not being above the
    maximum load factor, and a growth moves to 7 slots, 3 * (7.0 / 3.0)
    being 7.0. *)
Lemma double_factors :
  loadFactor_exceeds 1 3 (MaxLoadFactor_ (thirds 3)) = false /\
  TableSize_ (mStats thirds3_A) = 3 /\
  Expansions_ (mStats thirds3_A) = 0 /\
  growth_target 3 (GrowthFactor_ (thirds 3)) = 7 /\
  next_capacity (thirds 3) 3 = 7 /\
  TableSize_ (mStats (snd (insert 0 50 thirds3_A "B" 2))) = 7 /\
  growth_target 3 (PrimFloat.infinity) = -1 /\
  fst (GrowTable 0 50 (new (mkConfig 3 sum_hash None 0.5 infinity PACK false))) = Fault.
Proof. vm_compute. repeat split; reflexivity. Qed.

Lemma insert_capacity_witness :
  insert 0 50 pack3_A "B" 2 = (Done tt, snd (insert 0 50 pack3_A "B" 2)) /\
  TableSize_ (mStats pack3_A) = 3 /\
  TableSize_ (mStats (snd (insert 0 50 pack3_A "B" 2))) = 7 /\
  Count_ (mStats (snd (insert 0 50 pack3_A "B" 2))) = 2 /\
  Z.prime (TableSize_ (mStats (snd (insert 0 50 pack3_A "B" 2)))).
Proof.
  assert (H : insert 0 50 pack3_A "B" 2 = (Done tt, snd (insert 0 50 pack3_A "B" 2)))
    by (vm_compute; reflexivity).
  split; [exact H |].
  destruct (insert_capacity 0 50 pack3_A "B" 2 _ H) as (_ & Hc & _ & Hg & Hp & _).
  split; [vm_compute; reflexivity |].
  split; [apply Hg; vm_compute; reflexivity |].
  split; [exact Hc |].
  apply Hp; [| vm_compute; reflexivity].
  apply is_prime_sound. vm_compute. reflexivity.
Defined.

(** C8 (counterexample): with the configured initial size 4 the capacity
    is 4, not a prime, after construction and after an insert; and with
    initial size 3, maximum load factor 0.125 and growth factor 2 the
    first insert grows the table to capacity 7 and leaves a quotient
    count / capacity = 1.0 / 7.0, above 0.125. *)
Lemma capacity_prime_load_fails :
  TableSize_ (mStats (new (linear 4 PACK))) = 4 /\
  (fun t => TableSize_ (mStats t))
    <$> run 0 50 (new (linear 4 PACK)) [call_insert "A" 1] = Some 4 /\
  ~ Z.prime 4 /\
  (fun t => (Count_ (mStats t), TableSize_ (mStats t), Expansions_ (mStats t)))
    <$> run 0 50 (new (sparse 3)) [call_insert "A" 1] = Some (1, 7, 1) /\
  loadFactor_exceeds 1 7 (MaxLoadFactor_ (sparse 3)) = true.
Proof.
  split; [reflexivity |]. split; [vm_compute; reflexivity |].
  split; [| split; vm_compute; reflexivity].
  intros [_ H]. apply (H 2); [lia | exists 2; reflexivity].
Qed.

End CapacitySamples.

(** ** clear *)

Section Clear.

Context {T : Type}.
Implicit Types (t : OAHashTable T) (s : OAHTSlot T) (k : string).

Lemma set_State_same s : State s = UNOCCUPIED -> set_State s UNOCCUPIED = s.
Proof. destruct s as [k v st]. simpl. intros ->. reflexivity. Qed.

Lemma decrements_u32 (n : nat) (c : Z) :
  0 <= c < UINT_MOD ->
  Nat.iter n (fun c => u32 (c - 1)) c = u32 (c - Z.of_nat n).
Proof.
  intros Hc. induction n as [| n IH].
  - simpl. rewrite Z.sub_0_r. symmetry. now apply u32_small.
  - rewrite Nat.iter_succ, IH. unfold u32.
    rewrite Zminus_mod_idemp_l. f_equal. lia.
Qed.

(** The loop of [clear] from slot [length pre] on: every remaining slot
    becomes unoccupied, and the count goes down once per occupied one. *)
Lemma clear_loop_spec (suf : list (OAHTSlot T)) :
  forall (pre : list (OAHTSlot T)) (cfg : OAHTConfig) (st : OAHTStats) (fr : list T),
  exists st' fr',
    clear_loop (mkTable (pre ++ suf) cfg st fr) (seq (length pre) (length suf))
      = (Done tt, mkTable (pre ++ map (fun s => set_State s UNOCCUPIED) suf) cfg st' fr') /\
    TableSize_ st' = TableSize_ st /\ Probes_ st' = Probes_ st /\
    Expansions_ st' = Expansions_ st /\
    Count_ st' = Nat.iter (length (keys_of suf)) (fun c => u32 (c - 1)) (Count_ st).
Proof.
  induction suf as [| s suf IH]; intros pre cfg st fr.
  - exists st, fr. simpl. repeat split.
  - cbn [length seq clear_loop map]. unfold clear_slot. cbn [mTable].
    rewrite (list_lookup_middle pre suf s) by reflexivity.
    assert (Hsplit : forall x : OAHTSlot T, pre ++ x :: suf = (pre ++ [x]) ++ suf)
      by (intros x; now rewrite <- app_assoc).
    assert (Hlen : forall x : OAHTSlot T, S (length pre) = length (pre ++ [x]))
      by (intros x; rewrite length_app; simpl; lia).
    assert (Hins : forall x : OAHTSlot T, <[length pre := x]> (pre ++ s :: suf) = pre ++ x :: suf).
    { intros x. rewrite insert_app_r_alt by lia. now rewrite Nat.sub_diag. }
    rewrite keys_of_cons. unfold occupied.
    destruct (State s) eqn:Est; cbn [OAHTSlot_State_eqb].
    + rewrite Hins, (Hsplit (set_State s UNOCCUPIED)), (Hlen (set_State s UNOCCUPIED)).
      destruct (IH (pre ++ [set_State s UNOCCUPIED]) cfg
                  (set_Count (u32 (Count_ st - 1)) st)
                  (if FreeProc_ cfg then Data s :: fr else fr))
        as (st' & fr' & Hloop & Hsz & Hpr & Hex & Hcnt).
      exists st', fr'. cbn [mConfig mStats freed]. rewrite Hloop.
      rewrite <- app_assoc. repeat split; try assumption.
      rewrite Hcnt. cbn [length]. now rewrite Nat.iter_succ_r.
    + rewrite (Hsplit s), (Hlen s).
      destruct (IH (pre ++ [s]) cfg st fr) as (st' & fr' & Hloop & Hsz & Hpr & Hex & Hcnt).
      exists st', fr'. rewrite Hloop.
      rewrite <- app_assoc, set_State_same by assumption. repeat split; assumption.
    + rewrite Hins, (Hsplit (set_State s UNOCCUPIED)), (Hlen (set_State s UNOCCUPIED)).
      destruct (IH (pre ++ [set_State s UNOCCUPIED]) cfg st
                  (if FreeProc_ cfg then Data s :: fr else fr))
        as (st' & fr' & Hloop & Hsz & Hpr & Hex & Hcnt).
      exists st', fr'. cbn [mConfig mStats freed]. rewrite Hloop.
      rewrite <- app_assoc. repeat split; assumption.
Qed.

(** On a table without occupied or deleted slots [clear] changes nothing. *)
Lemma clear_loop_unoccupied (suf : list (OAHTSlot T)) :
  forall (pre : list (OAHTSlot T)) (cfg : OAHTConfig) (st : OAHTStats) (fr : list T),
    Forall (fun s => State s = UNOCCUPIED) suf ->
    clear_loop (mkTable (pre ++ suf) cfg st fr) (seq (length pre) (length suf))
      = (Done tt, mkTable (pre ++ suf) cfg st fr).
Proof.
  induction suf as [| s suf IH]; intros pre cfg st fr Hall; [reflexivity |].
  apply Forall_cons in Hall as [Hs Hall].
  cbn [length seq clear_loop]. unfold clear_slot. cbn [mTable].
  rewrite (list_lookup_middle pre suf s) by reflexivity. rewrite Hs.
  replace (pre ++ s :: suf) with ((pre ++ [s]) ++ suf) by (now rewrite <- app_assoc).
  replace (S (length pre)) with (length (pre ++ [s])) by (rewrite length_app; simpl; lia).
  now apply IH.
Qed.

(** X11: [clear] on a table whose array has [TableSize_] slots: it returns,
    keeps the capacity, leaves every slot unoccupied, takes the number
    of occupied slots off the count, makes every [find] throw
    E_ITEM_NOT_FOUND, and is idempotent. *)
Lemma clear_spec t :
  length (mTable t) = Z.to_nat (TableSize_ (mStats t)) ->
  0 <= Count_ (mStats t) < UINT_MOD ->
  exists t',
    clear t = (Done tt, t') /\
    TableSize_ (mStats t') = TableSize_ (mStats t) /\
    mTable t' = map (fun s => set_State s UNOCCUPIED) (mTable t) /\
    Count_ (mStats t') = u32 (Count_ (mStats t) - occupied_count (mTable t)) /\
    clear t' = (Done tt, t') /\
    forall (fuel : nat) k,
      0 <= start_of (mConfig t) k (TableSize_ (mStats t)) < TableSize_ (mStats t) ->
      fst (find (S fuel) t' k) = Throw E_ITEM_NOT_FOUND.
Proof.
  intros Hlen Hc. destruct t as [tb cfg st fr]. cbn [mTable mStats mConfig] in *.
  destruct (clear_loop_spec tb [] cfg st fr) as (st' & fr' & Hloop & Hsz & Hpr & Hex & Hcnt).
  cbn [app length] in Hloop.
  exists (mkTable (map (fun s => set_State s UNOCCUPIED) tb) cfg st' fr').
  unfold clear. cbn [mTable mStats mConfig]. rewrite <- Hlen, Hloop, Hsz.
  split; [reflexivity |]. split; [reflexivity |]. split; [reflexivity |].
  split; [| split].
  - rewrite Hcnt, decrements_u32, occupied_count_keys by assumption. reflexivity.
  - rewrite <- Hlen, <- (length_map (fun s => set_State s UNOCCUPIED) tb).
    apply (clear_loop_unoccupied _ []).
    apply Forall_forall. intros s Hs. apply list_elem_of_fmap in Hs as (s0 & -> & _). reflexivity.
  - intros fuel k Hk. unfold find, IndexOf. cbn [mTable mStats mConfig].
    rewrite Hsz. set (h := start_of cfg k (TableSize_ st)) in *.
    rewrite slot_at_lookup by lia. rewrite list_lookup_fmap.
    destruct (lookup_lt_is_Some_2 tb (Z.to_nat h)) as [s Hs]; [lia |].
    rewrite Hs. cbn [fmap option_fmap option_map IndexOf_loop].
    rewrite slot_at_lookup by lia. rewrite list_lookup_fmap, Hs. reflexivity.
Qed.

End Clear.

Section ClearSamples.

Import Samples.
Local Open Scope string_scope.

(** C9 (the code at a failing input): capacity 7, linear probing, MARK,
    after [insert "A" 1; remove "A"; remove "A"].  [clear] returns and
    leaves every slot unoccupied, but the count, which the second remove
    had wrapped to 2^32 - 1, is not 0 afterwards: [clear] only takes the
    occupied slots off it. *)
Lemma clear_after_repeated_remove_MARK :
  (fun t => (fst (clear t), Count_ (mStats (snd (clear t))), states (snd (clear t))))
    <$> run 0 50 (new (linear 7 MARK))
          [call_insert "A" 1; call_remove "A"; call_remove "A"]
  = Some (Done tt, 4294967295,
          [UNOCCUPIED; UNOCCUPIED; UNOCCUPIED; UNOCCUPIED; UNOCCUPIED;
           UNOCCUPIED; UNOCCUPIED]).
Proof. vm_compute. reflexivity. Qed.

End ClearSamples.

(** ** Bounds of the walks *)

Section Bounds.

Context {T : Type}.
Implicit Types (tb : list (OAHTSlot T)) (s : OAHTSlot T) (k : string).

(** From an index in range, with a stride of at most the size, the walk
    of [InsertInTable] never leaves the array. *)
Lemma InsertInTable_loop_in_bounds tb m k st (fuel : nat) :
  length tb = Z.to_nat m -> 0 < m <= 2 ^ 31 -> 0 <= st <= m ->
  forall index p, 0 <= index < m ->
    fst (InsertInTable_loop fuel tb m k st index p) <> Fault /\
    forall i, fst (InsertInTable_loop fuel tb m k st index p) = Done i -> 0 <= i < m.
Proof.
  intros Hlen Hm Hst. induction fuel as [| fuel IH]; intros index p Hi.
  - simpl. split; [discriminate | intros i [=]].
  - cbn [InsertInTable_loop].
    destruct (slot_at_in_range tb index) as [s Hs]; [lia |]. rewrite Hs.
    destruct (State s).
    + destruct (String.eqb (Key s) k).
      * simpl. split; [discriminate | intros i [=]].
      * apply IH. now apply advance_range.
    + simpl. split; [discriminate | intros i [= <-]; assumption].
    + simpl. split; [discriminate | intros i [= <-]; assumption].
Qed.

(** The same for the loop of the guard, once it is at an index in
    range. *)
Lemma CheckForMarkInsertionDuplicate_loop_in_bounds tb m k st (fuel : nat) :
  length tb = Z.to_nat m -> 0 < m <= 2 ^ 31 -> 0 <= st <= m ->
  forall index p, 0 <= index < m ->
    fst (CheckForMarkInsertionDuplicate_loop fuel tb m k st index p) <> Fault.
Proof.
  intros Hlen Hm Hst. induction fuel as [| fuel IH]; intros index p Hi.
  - simpl. discriminate.
  - cbn [CheckForMarkInsertionDuplicate_loop].
    destruct (slot_at_in_range tb index) as [s Hs]; [lia |]. rewrite Hs.
    destruct (State s); try (simpl; discriminate);
      (destruct (String.eqb (Key s) k); [simpl; discriminate |]);
      apply IH; now apply advance_range.
Qed.

Lemma probe_index_period (m st h : Z) :
  0 < m <= 2 ^ 31 -> 0 <= h < m -> 0 <= st <= m ->
  probe_index m st h (Z.to_nat m) = h.
Proof.
  intros Hm Hh Hst. rewrite probe_index_mod by assumption.
  rewrite Z2Nat.id by lia. rewrite (Z.mul_comm m st), Z_mod_plus_full. now apply Z.mod_small.
Qed.

(** The walk of [IndexOf] stays in the array and ends within [m] steps:
    by then it is back at the index it started from. *)
Lemma IndexOf_loop_bounded tb m k st h :
  length tb = Z.to_nat m -> 0 < m <= 2 ^ 31 -> 0 <= h < m -> 0 <= st <= m ->
  forall (fuel n : nat) (p : Z),
    m < Z.of_nat n + Z.of_nat fuel ->
    (forall j : nat, (0 < j <= n)%nat -> probe_index m st h j <> h) ->
    exists r p', IndexOf_loop fuel tb m k st h (probe_index m st h n) p = (Done r, p').
Proof.
  intros Hlen Hm Hh Hst.
  assert (Hr : forall n, 0 <= probe_index m st h n < m)
    by (intros n; now apply probe_index_range).
  induction fuel as [| fuel IH]; intros n p Hfuel Hnot.
  - exfalso. apply (Hnot (Z.to_nat m)); [lia |]. now apply probe_index_period.
  - cbn [IndexOf_loop].
    destruct (slot_at_in_range tb (probe_index m st h n)) as [s Hs]; [specialize (Hr n); lia |].
    rewrite Hs.
    assert (Hstep : exists r p',
      (let probes := u32 (p + 1) in
       if String.eqb (Key s) k
       then (Done (to_int (probe_index m st h n), Some (probe_index m st h n)), probes)
       else
         match slot_at tb (advance (probe_index m st h n) st m) with
         | Some s' =>
             if advance (probe_index m st h n) st m =? h
             then (Done (-1, None), probe_if_unoccupied s' probes)
             else IndexOf_loop fuel tb m k st h (advance (probe_index m st h n) st m)
                    (probe_if_unoccupied s' probes)
         | None => (Fault, probes)
         end) = (Done r, p')).
    { cbv zeta. destruct (String.eqb (Key s) k); [eauto |].
      change (advance (probe_index m st h n) st m) with (probe_index m st h (S n)).
      destruct (slot_at_in_range tb (probe_index m st h (S n))) as [s' Hs'];
        [specialize (Hr (S n)); lia |].
      rewrite Hs'.
      destruct (Z.eqb_spec (probe_index m st h (S n)) h) as [| Hne]; [eauto |].
      apply IH; [lia |].
      intros j Hj. destruct (Nat.eq_dec j (S n)) as [-> | Hjn]; [assumption |].
      apply Hnot. lia. }
    destruct (State s); [exact Hstep | eauto | exact Hstep].
Qed.

(** [IndexOf], hence [find], returns on every table whose array has
    [TableSize_] slots when the hash functions are in range: its walk is
    bounded by the capacity. *)
Lemma IndexOf_returns (fuel : nat) (t : OAHashTable T) k :
  let m := TableSize_ (mStats t) in
  length (mTable t) = Z.to_nat m -> 0 < m <= 2 ^ 31 ->
  0 <= start_of (mConfig t) k m < m -> 0 <= stride_of (mConfig t) k m <= m ->
  m < Z.of_nat fuel ->
  exists r t', IndexOf fuel t k = (Done r, t').
Proof.
  intros m Hlen Hm Hh Hst Hfuel. unfold IndexOf. fold m.
  destruct (slot_at_in_range (mTable t) (start_of (mConfig t) k m)) as [s Hs]; [lia |].
  rewrite Hs.
  destruct (IndexOf_loop_bounded (mTable t) m k (stride_of (mConfig t) k m)
              (start_of (mConfig t) k m) Hlen Hm Hh Hst fuel 0%nat
              (probe_if_unoccupied s (Probes_ (mStats t)))) as (r & p' & Hloop);
    [lia | intros j Hj; lia |].
  cbn [probe_index] in Hloop. rewrite Hloop. eauto.
Qed.

End Bounds.

(** ** Lookup of a removed key under MARK *)

Section MarkLookup.

Context {T : Type}.
Implicit Types (tb : list (OAHTSlot T)) (s a b : OAHTSlot T) (k : string).

Lemma probe_if_unoccupied_ext a b (p : Z) :
  (State a = UNOCCUPIED <-> State b = UNOCCUPIED) ->
  probe_if_unoccupied a p = probe_if_unoccupied b p.
Proof.
  unfold probe_if_unoccupied. intros [H1 H2].
  destruct (State a), (State b); try reflexivity;
    try (specialize (H1 eq_refl); discriminate);
    try (specialize (H2 eq_refl); discriminate).
Qed.

(** The walk of [IndexOf] looks at the key of a slot and at whether it
    is unoccupied, at nothing else: OCCUPIED and DELETED are the same to
    it. *)
Lemma IndexOf_loop_ext tb tb' m k st h :
  (forall j, match slot_at tb j, slot_at tb' j with
             | Some a, Some b =>
                 Key a = Key b /\ (State a = UNOCCUPIED <-> State b = UNOCCUPIED)
             | None, None => True
             | _, _ => False
             end) ->
  forall (fuel : nat) (index p : Z),
    IndexOf_loop fuel tb m k st h index p = IndexOf_loop fuel tb' m k st h index p.
Proof.
  intros Hext. induction fuel as [| fuel IH]; intros index p; [reflexivity |].
  cbn [IndexOf_loop].
  pose proof (Hext index) as H1.
  destruct (slot_at tb index) as [a |], (slot_at tb' index) as [b |];
    try contradiction; [| reflexivity].
  destruct H1 as [Hk Hu]. rewrite Hk.
  pose proof (Hext (advance index st m)) as H2.
  assert (Hstep :
    (let probes := u32 (p + 1) in
     if String.eqb (Key b) k then (Done (to_int index, Some index), probes)
     else match slot_at tb (advance index st m) with
          | Some s' =>
              if advance index st m =? h
              then (Done (-1, None), probe_if_unoccupied s' probes)
              else IndexOf_loop fuel tb m k st h (advance index st m)
                     (probe_if_unoccupied s' probes)
          | None => (Fault, probes)
          end) =
    (let probes := u32 (p + 1) in
     if String.eqb (Key b) k then (Done (to_int index, Some index), probes)
     else match slot_at tb' (advance index st m) with
          | Some s' =>
              if advance index st m =? h
              then (Done (-1, None), probe_if_unoccupied s' probes)
              else IndexOf_loop fuel tb' m k st h (advance index st m)
                     (probe_if_unoccupied s' probes)
          | None => (Fault, probes)
          end)).
  { cbv zeta. destruct (String.eqb (Key b) k); [reflexivity |].
    destruct (slot_at tb (advance index st m)) as [a' |],
             (slot_at tb' (advance index st m)) as [b' |];
      try contradiction; [| reflexivity].
    destruct H2 as [_ Hu']. rewrite (probe_if_unoccupied_ext a' b' _ Hu').
    destruct (_ =? _); [reflexivity | apply IH]. }
  destruct Hu as [Hu1 Hu2].
  destruct (State a), (State b); try exact Hstep; try reflexivity;
    try (specialize (Hu1 eq_refl); discriminate);
    try (specialize (Hu2 eq_refl); discriminate).
Qed.

Lemma advance_u32 (i st m : Z) : 0 <= advance i st m < UINT_MOD.
Proof. unfold advance. destruct (_ >? _); apply u32_range. Qed.

(** What [IndexOf] has seen when it reports a slot. *)
Lemma IndexOf_loop_found tb m k st h (fuel : nat) :
  forall (index p r : Z) (slot : option Z) (p' : Z),
    0 <= index < UINT_MOD ->
    IndexOf_loop fuel tb m k st h index p = (Done (r, slot), p') ->
    match slot with
    | Some i =>
        r = to_int i /\ 0 <= i < UINT_MOD /\
        exists s, slot_at tb i = Some s /\ State s <> UNOCCUPIED /\ Key s = k
    | None => r = -1
    end.
Proof.
  induction fuel as [| fuel IH]; intros index p r slot p' Hi H; [discriminate |].
  cbn [IndexOf_loop] in H.
  destruct (slot_at tb index) as [s |] eqn:Hs; [| discriminate].
  assert (Hstep : State s <> UNOCCUPIED ->
    (let probes := u32 (p + 1) in
     if String.eqb (Key s) k then (Done (to_int index, Some index), probes)
     else match slot_at tb (advance index st m) with
          | Some s' =>
              if advance index st m =? h
              then (Done (-1, None), probe_if_unoccupied s' probes)
              else IndexOf_loop fuel tb m k st h (advance index st m)
                     (probe_if_unoccupied s' probes)
          | None => (Fault, probes)
          end) = (Done (r, slot), p') ->
    match slot with
    | Some i =>
        r = to_int i /\ 0 <= i < UINT_MOD /\
        exists s, slot_at tb i = Some s /\ State s <> UNOCCUPIED /\ Key s = k
    | None => r = -1
    end).
  { cbv zeta. intros Hst H'.
    destruct (String.eqb_spec (Key s) k) as [Hk | _].
    - injection H' as <- <- <-. repeat split; try lia. eauto.
    - destruct (slot_at tb (advance index st m)) as [s' |]; [| discriminate].
      destruct (_ =? _).
      + injection H' as <- <- <-. reflexivity.
      + eapply IH; [apply advance_u32 | exact H']. }
  destruct (State s) eqn:Est.
  - apply Hstep; [congruence | exact H].
  - injection H as <- <- <-. reflexivity.
  - apply Hstep; [congruence | exact H].
Qed.

Lemma IndexOf_loop_probes tb m k st h (fuel : nat) :
  forall (index p q : Z),
    fst (IndexOf_loop fuel tb m k st h index p)
    = fst (IndexOf_loop fuel tb m k st h index q).
Proof.
  induction fuel as [| fuel IH]; intros index p q; [reflexivity |].
  cbn [IndexOf_loop].
  destruct (slot_at tb index) as [s |]; [| reflexivity].
  assert (Hstep : forall p q,
    fst (let probes := u32 (p + 1) in
         if String.eqb (Key s) k then (Done (to_int index, Some index), probes)
         else match slot_at tb (advance index st m) with
              | Some s' =>
                  if advance index st m =? h
                  then (Done (-1, None), probe_if_unoccupied s' probes)
                  else IndexOf_loop fuel tb m k st h (advance index st m)
                         (probe_if_unoccupied s' probes)
              | None => (Fault, probes)
              end) =
    fst (let probes := u32 (q + 1) in
         if String.eqb (Key s) k then (Done (to_int index, Some index), probes)
         else match slot_at tb (advance index st m) with
              | Some s' =>
                  if advance index st m =? h
                  then (Done (-1, None), probe_if_unoccupied s' probes)
                  else IndexOf_loop fuel tb m k st h (advance index st m)
                         (probe_if_unoccupied s' probes)
              | None => (Fault, probes)
              end)).
  { intros p0 q0. cbv zeta. destruct (String.eqb (Key s) k); [reflexivity |].
    destruct (slot_at tb (advance index st m)) as [s' |]; [| reflexivity].
    destruct (_ =? _); [reflexivity | apply IH]. }
  destruct (State s); [apply Hstep | reflexivity | apply Hstep].
Qed.

Lemma slot_at_Some_range tb (i : Z) s :
  slot_at tb i = Some s -> 0 <= i < Z.of_nat (length tb).
Proof.
  unfold slot_at. destruct (Z.ltb_spec i 0); [discriminate |].
  intros Hl. apply lookup_lt_Some in Hl. lia.
Qed.

(** X20: under MARK, whenever [remove k] returns, the [find k] that follows
    it returns too, with the value of the slot just marked DELETED: it
    never throws E_ITEM_NOT_FOUND. *)
Lemma remove_then_find_MARK (fuel : nat) (t t' : OAHashTable T) k :
  DeletionPolicy_ (mConfig t) = MARK ->
  remove fuel t k = (Done tt, t') ->
  Count_ (mStats t') = u32 (Count_ (mStats t) - 1) /\
  exists (i : Z) s,
    slot_at (mTable t') i = Some s /\ State s = DELETED /\ Key s = k /\
    fst (find fuel t' k) = Done (Data s).
Proof.
  intros Hmark H. unfold remove in H.
  destruct (IndexOf fuel t k) as [r t0] eqn:HI.
  unfold IndexOf in HI.
  set (m := TableSize_ (mStats t)) in *.
  set (h := start_of (mConfig t) k m) in *.
  set (st := stride_of (mConfig t) k m) in *.
  destruct (slot_at (mTable t) h) as [s0 |] eqn:Hs0.
  2:{ injection HI as <- <-. discriminate. }
  destruct (IndexOf_loop fuel (mTable t) m k st h h _) as [r0 p'] eqn:Hloop.
  injection HI as <- <-.
  destruct r0 as [[index slot] | e | |]; try discriminate.
  destruct (Z.eqb_spec index (-1)) as [| Hne]; [discriminate |].
  cbn [with_probes with_stats mConfig mTable mStats set_Probes set_Count
       Count_ TableSize_ Probes_ Expansions_ freed] in H.
  rewrite Hmark in H.
  destruct (slot_at (mTable t) index) as [s |] eqn:Hs; [| discriminate].
  injection H as <-.
  cbn [with_table mStats Count_ mTable]. split; [reflexivity |].
  pose proof (IndexOf_loop_found _ _ _ _ _ _ _ _ _ _ _ (u32_range _) Hloop) as Hf.
  destruct slot as [i |]; [| contradiction].
  destruct Hf as (Hr & Hi & s1 & Hs1 & Hst1 & Hk1).
  pose proof (slot_at_Some_range _ _ _ Hs) as Hrange.
  assert (Hii : to_int i = i).
  { rewrite Hr in Hrange. unfold to_int in *. rewrite u32_small in * by assumption.
    destruct (i <? 2 ^ 31); [reflexivity |]. unfold UINT_MOD in *. lia. }
  rewrite Hii in Hr. subst index. rewrite Hs in Hs1. injection Hs1 as <-.
  set (tb' := store_at (mTable t) i (set_State s DELETED)).
  assert (Hat : slot_at tb' i = Some (set_State s DELETED))
    by (apply slot_at_store_eq; assumption).
  assert (Hext : forall j,
    match slot_at (mTable t) j, slot_at tb' j with
    | Some a, Some b => Key a = Key b /\ (State a = UNOCCUPIED <-> State b = UNOCCUPIED)
    | None, None => True
    | _, _ => False
    end).
  { intros j. destruct (Z.eq_dec j i) as [-> | Hji].
    - rewrite Hs, Hat. split; [reflexivity |]. simpl. split; [contradiction | discriminate].
    - destruct (Z.ltb_spec j 0) as [Hneg | Hpos].
      + unfold slot_at. destruct (Z.ltb_spec j 0); [exact I | lia].
      + unfold tb'. rewrite slot_at_store_ne by lia.
        destruct (slot_at (mTable t) j); [split; reflexivity | exact I]. }
  exists i, (set_State s DELETED).
  split; [exact Hat |]. split; [reflexivity |]. split; [exact Hk1 |].
  unfold find, IndexOf.
  cbn [with_table with_probes with_stats set_Probes set_Count
       mTable mConfig mStats TableSize_ Probes_].
  fold m h st tb'.
  pose proof (Hext h) as Hh. rewrite Hs0 in Hh.
  destruct (slot_at tb' h) as [s0' |]; [| contradiction].
  destruct (IndexOf_loop fuel tb' m k st h h (probe_if_unoccupied s0' p')) as [r2 p2] eqn:Hloop2.
  assert (Hr2 : r2 = Done (i, Some i)).
  { rewrite <- (IndexOf_loop_ext (mTable t) tb' m k st h Hext) in Hloop2.
    apply (f_equal fst) in Hloop2. cbn [fst] in Hloop2.
    rewrite <- Hloop2.
    rewrite (IndexOf_loop_probes _ _ _ _ _ _ _ _ (probe_if_unoccupied s0 (Probes_ (mStats t)))).
    now rewrite Hloop. }
  subst r2. destruct (Z.eqb_spec i (-1)) as [| _]; [lia |].
  cbn [mbind option_bind with_table with_probes with_stats mTable]. rewrite Hat.
  reflexivity.
Qed.

End MarkLookup.

(** * Further properties of the operations *)

(** ** Contents under updates of one slot *)

Section Contents.

Context {T : Type}.
Implicit Types (tb : list (OAHTSlot T)) (s : OAHTSlot T) (k : string).

Lemma entries_of_app tb1 tb2 : entries_of (tb1 ++ tb2) = entries_of tb1 ++ entries_of tb2.
Proof. unfold entries_of. now rewrite filter_app, map_app. Qed.

Lemma entries_of_cons s tb :
  entries_of (s :: tb)
  = if occupied s then (Key s, Data s) :: entries_of tb else entries_of tb.
Proof.
  unfold entries_of. destruct (occupied s) eqn:E.
  - now rewrite filter_cons_True.
  - rewrite filter_cons_False; [reflexivity | congruence].
Qed.

Lemma keys_of_entries tb : keys_of tb = map fst (entries_of tb).
Proof. unfold keys_of, entries_of. rewrite map_map. reflexivity. Qed.

Lemma occupied_count_entries tb : occupied_count tb = Z.of_nat (length (entries_of tb)).
Proof. unfold occupied_count, entries_of. now rewrite length_map. Qed.

Lemma entries_of_replicate_fresh (d : T) (n : nat) :
  entries_of (replicate n (fresh_slot d)) = [].
Proof. induction n as [| n IH]; [reflexivity |]. simpl. now rewrite entries_of_cons. Qed.

(** Replacing the slot at [i]: what it contributed goes, what the new one
    contributes comes. *)
Lemma entries_of_insert tb (i : nat) s0 s1 :
  tb !! i = Some s0 ->
  (if occupied s0 then [(Key s0, Data s0)] else []) ++ entries_of (<[i := s1]> tb)
  ≡ₚ (if occupied s1 then [(Key s1, Data s1)] else []) ++ entries_of tb.
Proof.
  intros Hl.
  assert (Hi : (i < length tb)%nat) by (eapply lookup_lt_Some; eauto).
  rewrite insert_take_drop by assumption.
  rewrite <- (take_drop_middle tb i s0 Hl) at 3.
  rewrite !entries_of_app, !entries_of_cons.
  destruct (occupied s0), (occupied s1); cbn [app].
  - rewrite <- !Permutation_middle. apply perm_swap.
  - rewrite <- Permutation_middle. reflexivity.
  - rewrite <- Permutation_middle. reflexivity.
  - reflexivity.
Qed.

Lemma entries_of_store tb (i : Z) s0 k (v : T) :
  slot_at tb i = Some s0 -> State s0 <> OCCUPIED ->
  entries_of (store_at tb i (mkSlot k v OCCUPIED)) ≡ₚ (k, v) :: entries_of tb.
Proof.
  intros Hs Hst. pose proof (slot_at_Some_range _ _ _ Hs) as Hr.
  rewrite slot_at_lookup in Hs by lia.
  pose proof (entries_of_insert tb (Z.to_nat i) s0 (mkSlot k v OCCUPIED) Hs) as H.
  destruct (occupied s0) eqn:E; [apply occupied_true in E; contradiction |].
  exact H.
Qed.

Lemma entries_of_vacate tb (i : Z) s0 (st : OAHTSlot_State) :
  slot_at tb i = Some s0 -> State s0 = OCCUPIED -> st <> OCCUPIED ->
  entries_of tb ≡ₚ (Key s0, Data s0) :: entries_of (store_at tb i (set_State s0 st)).
Proof.
  intros Hs Hst Hne. pose proof (slot_at_Some_range _ _ _ Hs) as Hr.
  rewrite slot_at_lookup in Hs by lia.
  pose proof (entries_of_insert tb (Z.to_nat i) s0 (set_State s0 st) Hs) as H.
  apply occupied_true in Hst. rewrite Hst in H.
  assert (E : occupied (set_State s0 st) = false).
  { unfold occupied. simpl. destruct st; [contradiction | reflexivity | reflexivity]. }
  rewrite E in H. symmetry. exact H.
Qed.

Lemma entries_of_restate tb (i : Z) s0 (st : OAHTSlot_State) :
  slot_at tb i = Some s0 -> State s0 <> OCCUPIED -> st <> OCCUPIED ->
  entries_of (store_at tb i (set_State s0 st)) = entries_of tb.
Proof.
  intros Hs Hst Hne. pose proof (slot_at_Some_range _ _ _ Hs) as Hr.
  rewrite slot_at_lookup in Hs by lia.
  assert (Hi : (Z.to_nat i < length tb)%nat) by lia.
  unfold store_at. rewrite insert_take_drop by assumption.
  rewrite <- (take_drop_middle tb (Z.to_nat i) s0 Hs) at 3.
  rewrite !entries_of_app, !entries_of_cons.
  assert (E0 : occupied s0 = false).
  { destruct (occupied s0) eqn:E; [apply occupied_true in E; contradiction | reflexivity]. }
  assert (E1 : occupied (set_State s0 st) = false).
  { unfold occupied. simpl. destruct st; [contradiction | reflexivity | reflexivity]. }
  now rewrite E0, E1.
Qed.

Lemma no_tombstone_store tb (i : Z) s :
  no_tombstone tb -> State s <> DELETED -> no_tombstone (store_at tb i s).
Proof. intros H Hs. unfold no_tombstone, store_at. now apply Forall_insert. Qed.

Lemma no_tombstone_slot tb (i : Z) s :
  no_tombstone tb -> slot_at tb i = Some s -> State s <> DELETED.
Proof.
  intros H Hs. pose proof (slot_at_Some_range _ _ _ Hs) as Hr.
  rewrite slot_at_lookup in Hs by lia.
  unfold no_tombstone in H. rewrite Forall_forall in H.
  apply H. eapply list_elem_of_lookup_2; eauto.
Qed.

End Contents.

(** ** What InsertInTable has done when it comes back *)

Section Placement.

Context {T : Type}.
Implicit Types (tb : list (OAHTSlot T)) (s : OAHTSlot T) (k : string).

Lemma probe_index_shift (m st x : Z) (n : nat) :
  probe_index m st (advance x st m) n = probe_index m st x (S n).
Proof.
  induction n as [| n IH]; [reflexivity |].
  cbn [probe_index] in *. now rewrite IH.
Qed.

(** A walk that is back at its start after [j] steps repeats itself. *)
Lemma probe_index_cycle (m st x : Z) (j : nat) :
  probe_index m st x j = x ->
  forall a : nat, probe_index m st x (a + j) = probe_index m st x a.
Proof.
  intros Hj. induction a as [| a IH]; [exact Hj |].
  cbn [Nat.add probe_index]. now rewrite IH.
Qed.

Lemma probe_index_cycle_mod (m st x : Z) (j : nat) :
  (0 < j)%nat -> probe_index m st x j = x ->
  forall n : nat, exists r : nat, (r < j)%nat /\ probe_index m st x n = probe_index m st x r.
Proof.
  intros Hpos Hj n. induction n as [n IH] using lt_wf_ind.
  destruct (Nat.lt_ge_cases n j) as [Hlt | Hge].
  - exists n. split; [assumption | reflexivity].
  - destruct (IH (n - j)%nat) as (r & Hr & Heq); [lia |].
    exists r. split; [assumption |].
    rewrite <- Heq. replace n with ((n - j) + j)%nat at 1 by lia.
    now apply probe_index_cycle.
Qed.

Lemma InsertInTable_loop_Done tb m k st (fuel : nat) :
  forall (x p i p' : Z),
    InsertInTable_loop fuel tb m k st x p = (Done i, p') ->
    exists (n : nat) s,
      (n < fuel)%nat /\ i = probe_index m st x n /\
      slot_at tb i = Some s /\ State s <> OCCUPIED /\
      forall j : nat, (j < n)%nat ->
        exists sj, slot_at tb (probe_index m st x j) = Some sj /\
                   State sj = OCCUPIED /\ Key sj <> k.
Proof.
  induction fuel as [| fuel IH]; intros x p i p' H; [discriminate |].
  cbn [InsertInTable_loop] in H.
  destruct (slot_at tb x) as [s |] eqn:Hs; [| discriminate].
  destruct (State s) eqn:Est.
  - destruct (String.eqb_spec (Key s) k) as [| Hne]; [discriminate |].
    apply IH in H as (n & s' & Hn & Hi & Hs' & Hst' & Hpath).
    exists (S n), s'. split; [lia |]. rewrite <- probe_index_shift.
    split; [assumption |]. split; [assumption |]. split; [assumption |].
    intros j Hj. destruct j as [| j].
    + exists s. cbn [probe_index]. auto.
    + rewrite <- probe_index_shift. apply Hpath. lia.
  - injection H as <- <-. exists 0%nat, s. cbn [probe_index].
    split; [lia |]. split; [reflexivity |]. split; [assumption |].
    split; [congruence |]. intros j Hj. lia.
  - injection H as <- <-. exists 0%nat, s. cbn [probe_index].
    split; [lia |]. split; [reflexivity |]. split; [assumption |].
    split; [congruence |]. intros j Hj. lia.
Qed.

Lemma InsertInTable_loop_Throw tb m k st (fuel : nat) :
  forall (x p : Z) (e : OAHASHTABLE_EXCEPTION) (p' : Z),
    InsertInTable_loop fuel tb m k st x p = (Throw e, p') ->
    e = E_DUPLICATE /\
    exists (i : Z) s, slot_at tb i = Some s /\ State s = OCCUPIED /\ Key s = k.
Proof.
  induction fuel as [| fuel IH]; intros x p e p' H; [discriminate |].
  cbn [InsertInTable_loop] in H.
  destruct (slot_at tb x) as [s |] eqn:Hs; [| discriminate].
  destruct (State s) eqn:Est; try discriminate.
  destruct (String.eqb_spec (Key s) k) as [Hk | Hne].
  - injection H as <- <-. split; [reflexivity |]. exists x, s. auto.
  - eapply IH; eauto.
Qed.

Lemma CheckForMarkInsertionDuplicate_loop_Throw tb m k st (fuel : nat) :
  forall (x p : Z) (e : OAHASHTABLE_EXCEPTION) (p' : Z),
    CheckForMarkInsertionDuplicate_loop fuel tb m k st x p = (Throw e, p') ->
    e = E_DUPLICATE /\
    exists (i : Z) s, slot_at tb i = Some s /\ State s <> UNOCCUPIED /\ Key s = k.
Proof.
  induction fuel as [| fuel IH]; intros x p e p' H; [discriminate |].
  cbn [CheckForMarkInsertionDuplicate_loop] in H.
  destruct (slot_at tb x) as [s |] eqn:Hs; [| discriminate].
  destruct (State s) eqn:Est; try discriminate;
    (destruct (String.eqb_spec (Key s) k) as [Hk | Hne];
     [ injection H as <- <-; split; [reflexivity |]; exists x, s;
       repeat split; [assumption | congruence | assumption]
     | eapply IH; eauto ]).
Qed.

(** [InsertInTable], when it returns, has written the pair, as an
    occupied slot, over the first slot of the key's probe sequence that
    was not occupied; the slots before it hold other keys. *)
Lemma InsertInTable_Done (Config : OAHTConfig) (fuel : nat) tb m k (v : T) (p : Z)
    (tb' : list (OAHTSlot T)) (p' : Z) :
  InsertInTable Config fuel tb m k v p = (Done tb', p') ->
  exists (n : nat) s,
    let st := stride_of Config k m in
    let h := start_of Config k m in
    (n < fuel)%nat /\
    slot_at tb (probe_index m st h n) = Some s /\ State s <> OCCUPIED /\
    (forall j : nat, (j < n)%nat ->
       exists sj, slot_at tb (probe_index m st h j) = Some sj /\
                  State sj = OCCUPIED /\ Key sj <> k) /\
    tb' = store_at tb (probe_index m st h n) (mkSlot k v OCCUPIED).
Proof.
  unfold InsertInTable. intros H.
  destruct (InsertInTable_loop _ _ _ _ _ _ _) as [[i | e | |] p1] eqn:Hloop;
    try discriminate.
  apply InsertInTable_loop_Done in Hloop as (n & s & Hn & Hi & Hs & Hst & Hpath).
  rewrite Hs in H.
  exists n, s. cbv zeta. rewrite <- Hi.
  split; [assumption |]. split; [assumption |]. split; [assumption |].
  split; [intros j Hj; rewrite Hi in *; now apply Hpath |].
  destruct (match State s, DeletionPolicy_ Config with
            | DELETED, MARK => _
            | _, _ => _
            end) as [[[] | e | |] p2]; try discriminate.
  destruct (_ <? _); [| discriminate].
  now injection H as <- <-.
Qed.

(** The only exception of [InsertInTable] is E_DUPLICATE, and it is
    thrown for a slot that holds the key: an occupied one, or, under
    MARK, possibly a tombstone. *)
Lemma InsertInTable_Throw (Config : OAHTConfig) (fuel : nat) tb m k (v : T) (p : Z)
    (e : OAHASHTABLE_EXCEPTION) (p' : Z) :
  InsertInTable Config fuel tb m k v p = (Throw e, p') ->
  e = E_DUPLICATE /\
  exists (i : Z) s,
    slot_at tb i = Some s /\ Key s = k /\
    (State s = OCCUPIED \/ (State s = DELETED /\ DeletionPolicy_ Config = MARK)).
Proof.
  unfold InsertInTable. intros H.
  destruct (InsertInTable_loop _ _ _ _ _ _ _) as [[i | e1 | |] p1] eqn:Hloop;
    try discriminate.
  - destruct (slot_at tb i) as [s |]; [| discriminate].
    destruct (State s), (DeletionPolicy_ Config) eqn:Hpol;
      try (destruct (_ <? _); discriminate).
    unfold CheckForMarkInsertionDuplicate in H.
    destruct (CheckForMarkInsertionDuplicate_loop _ _ _ _ _ _ _) as [[[] | e2 | |] p2] eqn:Hg;
      try (destruct (_ <? _); discriminate); try discriminate.
    injection H as <- <-.
    apply CheckForMarkInsertionDuplicate_loop_Throw in Hg as (-> & j & sj & Hsj & Hst & Hk).
    split; [reflexivity |]. exists j, sj. split; [assumption |]. split; [assumption |].
    destruct (State sj); [left; reflexivity | contradiction | right; auto].
  - injection H as <- <-.
    apply InsertInTable_loop_Throw in Hloop as (-> & j & sj & Hsj & Hst & Hk).
    split; [reflexivity |]. exists j, sj. auto.
Qed.

End Placement.

(** ** insert, then find, in any table *)

Section InsertThenFind.

Context {T : Type} (T_default : T).
Implicit Types (tb : list (OAHTSlot T)) (s : OAHTSlot T) (k : string).

Lemma walk_does_not_return tb m st h (n : nat) s :
  slot_at tb (probe_index m st h n) = Some s -> State s <> OCCUPIED ->
  (forall j : nat, (j < n)%nat ->
     exists sj, slot_at tb (probe_index m st h j) = Some sj /\ State sj = OCCUPIED) ->
  forall j : nat, (0 < j <= n)%nat -> probe_index m st h j <> h.
Proof.
  intros Hs Hst Hpath j Hj Heq.
  destruct (probe_index_cycle_mod m st h j) with (n := n) as (r & Hr & Hn);
    [lia | assumption |].
  destruct (Hpath r) as (sr & Hsr & Hor); [lia |].
  rewrite Hn, Hsr in Hs. injection Hs as <-. contradiction.
Qed.

Lemma IndexOf_loop_reaches tb m k (v : T) st h (n : nat) s :
  slot_at tb (probe_index m st h n) = Some s -> State s <> OCCUPIED ->
  (forall j : nat, (j < n)%nat ->
     exists sj, slot_at tb (probe_index m st h j) = Some sj /\
                State sj = OCCUPIED /\ Key sj <> k) ->
  let tb' := store_at tb (probe_index m st h n) (mkSlot k v OCCUPIED) in
  forall (fuel j : nat) (p : Z),
    (j <= n)%nat -> (n - j < fuel)%nat ->
    exists p',
      IndexOf_loop fuel tb' m k st h (probe_index m st h j) p
      = (Done (to_int (probe_index m st h n), Some (probe_index m st h n)), p').
Proof.
  intros Hs Hst Hpath tb'.
  pose proof (slot_at_Some_range _ _ _ Hs) as Hrn.
  assert (Hback : forall j : nat, (0 < j <= n)%nat -> probe_index m st h j <> h).
  { apply (walk_does_not_return tb m st h n s Hs Hst).
    intros j Hj. destruct (Hpath j Hj) as (sj & ? & ? & _). eauto. }
  induction fuel as [| fuel IH]; intros j p Hj Hfuel; [lia |].
  cbn [IndexOf_loop].
  destruct (Nat.eq_dec j n) as [-> | Hne].
  - unfold tb'. rewrite slot_at_store_eq by assumption.
    cbn [State Key]. rewrite String.eqb_refl. eauto.
  - destruct (Hpath j) as (sj & Hsj & Hoj & Hkj); [lia |].
    pose proof (slot_at_Some_range _ _ _ Hsj) as Hrj.
    assert (Hdiff : probe_index m st h n <> probe_index m st h j).
    { intros Heq. rewrite Heq, Hsj in Hs. injection Hs as <-. contradiction. }
    unfold tb' at 1. rewrite slot_at_store_ne by lia.
    rewrite Hsj, Hoj. apply String.eqb_neq in Hkj. rewrite Hkj.
    change (advance (probe_index m st h j) st m) with (probe_index m st h (S j)).
    assert (Hnext : exists s2, slot_at tb' (probe_index m st h (S j)) = Some s2).
    { apply slot_at_in_range. unfold tb'. rewrite length_store_at.
      destruct (Nat.eq_dec (S j) n) as [<- | Hn2]; [assumption |].
      destruct (Hpath (S j)) as (s2 & Hs2 & _); [lia |].
      eapply slot_at_Some_range; eauto. }
    destruct Hnext as [s2 Hs2]. rewrite Hs2.
    assert (Hb : probe_index m st h (S j) <> h) by (apply Hback; lia).
    apply Z.eqb_neq in Hb. rewrite Hb.
    apply IH; lia.
Qed.

(** X1: whenever [insert k v] returns, in any table state, under either
    deletion policy, having grown the table or not, the [find k] that
    follows it (same fuel) returns [v].  The array is taken to have fewer
    than 2^32 slots, so that no index reads as the int -1. *)
Theorem insert_then_find (fuel : nat) (t t' : OAHashTable T) k (v : T) :
  insert T_default fuel t k v = (Done tt, t') ->
  Z.of_nat (length (mTable t')) < UINT_MOD ->
  fst (find fuel t' k) = Done v.
Proof.
  unfold insert. intros H Hlen.
  destruct (if loadFactor_exceeds _ _ _ then _ else _) as [[[] | e | |] tg];
    try discriminate.
  destruct (InsertInTable _ _ _ _ _ _ _) as [[tb' | e | |] p'] eqn:Hins;
    try discriminate.
  injection H as <-. cbn [mTable] in Hlen.
  apply InsertInTable_Done in Hins as (n & s & Hn & Hs & Hst & Hpath & ->).
  cbv zeta in *.
  set (m := TableSize_ (mStats tg)) in *.
  set (st := stride_of (mConfig tg) k m) in *.
  set (h := start_of (mConfig tg) k m) in *.
  set (i := probe_index m st h n) in *.
  set (tb' := store_at (mTable tg) i (mkSlot k v OCCUPIED)) in *.
  pose proof (slot_at_Some_range _ _ _ Hs) as Hri.
  unfold tb' in Hlen. rewrite length_store_at in Hlen.
  unfold find, IndexOf. cbn [mTable mConfig mStats TableSize_ Probes_].
  fold m st h tb'.
  assert (Hstart : exists sh, slot_at tb' h = Some sh).
  { apply slot_at_in_range. unfold tb'. rewrite length_store_at.
    destruct n as [| n0]; [exact Hri |].
    destruct (Hpath 0%nat) as (s0 & Hs0 & _); [lia |].
    eapply slot_at_Some_range; eauto. }
  destruct Hstart as [sh Hsh]. rewrite Hsh.
  destruct (IndexOf_loop_reaches (mTable tg) m k v st h n s Hs Hst Hpath fuel 0%nat
              (probe_if_unoccupied sh p')) as [p2 Hloop]; [lia | lia |].
  cbn [probe_index] in Hloop. fold i tb' in Hloop. rewrite Hloop.
  assert (Hint : to_int i <> -1).
  { unfold to_int. rewrite u32_small by lia.
    destruct (i <? 2 ^ 31); unfold UINT_MOD in *; lia. }
  apply Z.eqb_neq in Hint. rewrite Hint.
  cbn [mbind option_bind with_probes with_stats mTable].
  unfold tb'. rewrite slot_at_store_eq by lia. reflexivity.
Qed.

End InsertThenFind.

(** ** What growth and insertion keep *)

Section Keeping.

Context {T : Type} (T_default : T).
Implicit Types (t : OAHashTable T) (tb : list (OAHTSlot T)) (s : OAHTSlot T) (k : string).

Lemma InsertInTable_Done_contents (Config : OAHTConfig) (fuel : nat) tb m k (v : T) (p : Z)
    (tb' : list (OAHTSlot T)) (p' : Z) :
  InsertInTable Config fuel tb m k v p = (Done tb', p') ->
  entries_of tb' ≡ₚ (k, v) :: entries_of tb /\
  length tb' = length tb /\
  (no_tombstone tb -> no_tombstone tb').
Proof.
  intros H. apply InsertInTable_Done in H as (n & s & _ & Hs & Hst & _ & ->).
  split; [now apply (entries_of_store _ _ s) |].
  split; [apply length_store_at |].
  intros Hnt. apply no_tombstone_store; [assumption | simpl; congruence].
Qed.

Lemma GrowTable_loop_Done (Config : OAHTConfig) (fuel : nat) (m' : Z) :
  forall (suf pre nt : list (OAHTSlot T)) (p : Z) (nt' : list (OAHTSlot T)) (p' : Z),
    GrowTable_loop Config fuel (pre ++ suf) (seq (length pre) (length suf)) nt m' p
      = (Done nt', p') ->
    entries_of nt' ≡ₚ entries_of nt ++ entries_of suf /\
    length nt' = length nt /\
    (no_tombstone nt -> no_tombstone nt').
Proof.
  induction suf as [| s suf IH]; intros pre nt p nt' p' H.
  - cbn [length seq GrowTable_loop] in H. injection H as <- <-.
    cbn. rewrite app_nil_r. auto.
  - cbn [length seq GrowTable_loop] in H.
    rewrite (list_lookup_middle pre suf s) in H by reflexivity.
    assert (Hsplit : pre ++ s :: suf = (pre ++ [s]) ++ suf)
      by (now rewrite <- app_assoc).
    assert (Hlen' : S (length pre) = length (pre ++ [s]))
      by (rewrite length_app; simpl; lia).
    rewrite entries_of_cons. unfold occupied.
    destruct (State s) eqn:Est; cbn [OAHTSlot_State_eqb].
    + destruct (InsertInTable Config fuel nt m' (Key s) (Data s) p)
        as [[nt1 | e | |] p1] eqn:Hins; try discriminate.
      apply InsertInTable_Done_contents in Hins as (Hperm & Hlen & Hnt).
      rewrite Hsplit, Hlen' in H. apply IH in H as (Hperm2 & Hlen2 & Hnt2).
      split; [| split; [congruence | auto]].
      rewrite Hperm2, Hperm. cbn [app]. apply Permutation_middle.
    + rewrite Hsplit, Hlen' in H. now apply IH in H.
    + rewrite Hsplit, Hlen' in H. now apply IH in H.
Qed.

Lemma GrowTable_Done (fuel : nat) t t' :
  GrowTable T_default fuel t = (Done tt, t') ->
  length (mTable t) = Z.to_nat (TableSize_ (mStats t)) ->
  entries_of (mTable t') ≡ₚ entries_of (mTable t) /\
  no_tombstone (mTable t') /\
  length (mTable t') = Z.to_nat (TableSize_ (mStats t')).
Proof.
  unfold GrowTable. intros H Hlen.
  destruct (_ || _); [discriminate |].
  destruct (GrowTable_loop _ _ _ _ _ _ _) as [[nt | e | |] p] eqn:Hloop; try discriminate.
  injection H as <-. cbn [mTable mStats TableSize_].
  rewrite <- Hlen in Hloop.
  apply (GrowTable_loop_Done _ _ _ (mTable t) []) in Hloop as (Hperm & Hl & Hnt).
  rewrite entries_of_replicate_fresh in Hperm.
  split; [exact Hperm |]. split.
  - apply Hnt. apply Forall_replicate. simpl. congruence.
  - rewrite Hl. apply length_replicate.
Qed.

(** X2: an [insert k v] that returns has added exactly the pair (k, v)
    to the pairs held by the occupied slots (growing moves the others
    without losing or duplicating any), has added one to the count, and
    leaves an array of [TableSize_] slots. *)
Theorem insert_adds_entry (fuel : nat) t t' k (v : T) :
  insert T_default fuel t k v = (Done tt, t') ->
  length (mTable t) = Z.to_nat (TableSize_ (mStats t)) ->
  entries_of (mTable t') ≡ₚ (k, v) :: entries_of (mTable t) /\
  occupied_count (mTable t') = occupied_count (mTable t) + 1 /\
  Count_ (mStats t') = u32 (Count_ (mStats t) + 1) /\
  length (mTable t') = Z.to_nat (TableSize_ (mStats t')) /\
  freed t' = freed t.
Proof.
  unfold insert. intros H Hlen.
  assert (Hgoal : forall tg,
    entries_of (mTable tg) ≡ₚ entries_of (mTable t) ->
    length (mTable tg) = Z.to_nat (TableSize_ (mStats tg)) ->
    Count_ (mStats tg) = Count_ (mStats t) -> freed tg = freed t ->
    match InsertInTable (mConfig tg) fuel (mTable tg) (TableSize_ (mStats tg)) k v
            (Probes_ (mStats tg)) with
    | (Done table', probes) =>
        (Done tt,
         mkTable table' (mConfig tg)
           (mkStats (u32 (Count_ (mStats tg) + 1)) (TableSize_ (mStats tg)) probes
              (Expansions_ (mStats tg))) (freed tg))
    | (Throw e, probes) => (Throw e, with_probes probes tg)
    | (Fault, probes) => (Fault, with_probes probes tg)
    | (Timeout, probes) => (Timeout, with_probes probes tg)
    end = (Done tt, t') ->
    entries_of (mTable t') ≡ₚ (k, v) :: entries_of (mTable t) /\
    occupied_count (mTable t') = occupied_count (mTable t) + 1 /\
    Count_ (mStats t') = u32 (Count_ (mStats t) + 1) /\
    length (mTable t') = Z.to_nat (TableSize_ (mStats t')) /\
    freed t' = freed t).
  { intros tg Hperm Hl Hc Hf H'.
    destruct (InsertInTable _ _ _ _ _ _ _) as [[tb' | e | |] p'] eqn:Hins;
      try discriminate.
    injection H' as <-. cbn [mTable mStats Count_ TableSize_ freed].
    apply InsertInTable_Done_contents in Hins as (Hp & Hl' & _).
    assert (Hall : entries_of tb' ≡ₚ (k, v) :: entries_of (mTable t))
      by (now rewrite Hp, Hperm).
    split; [exact Hall |].
    split; [rewrite !occupied_count_entries, Hall; cbn [length]; lia |].
    split; [now rewrite Hc |]. split; [congruence | assumption]. }
  destruct (loadFactor_exceeds _ _ _).
  - destruct (GrowTable T_default fuel t) as [[[] | e | |] tg] eqn:Hg; try discriminate.
    pose proof (GrowTable_cases T_default fuel t _ tg Hg) as (_ & Hfr & Hcnt & _).
    apply GrowTable_Done in Hg as (Hperm & _ & Hl); [| assumption].
    now apply (Hgoal tg).
  - now apply (Hgoal t).
Qed.

(** X3: [GrowTable] is all or nothing.  When it returns, the new array
    has the new capacity as its length, holds exactly the pairs of the
    occupied slots of the old one and no tombstone; the count and the
    configuration are unchanged and the expansion counter is one higher.
    When it does not return, only the probe counter may have changed. *)
Theorem GrowTable_effect (fuel : nat) t (r : outcome unit) t' :
  GrowTable T_default fuel t = (r, t') ->
  length (mTable t) = Z.to_nat (TableSize_ (mStats t)) ->
  match r with
  | Done _ =>
      entries_of (mTable t') ≡ₚ entries_of (mTable t) /\
      no_tombstone (mTable t') /\
      length (mTable t') = Z.to_nat (TableSize_ (mStats t')) /\
      TableSize_ (mStats t') = next_capacity (mConfig t) (TableSize_ (mStats t)) /\
      Expansions_ (mStats t') = u32 (Expansions_ (mStats t) + 1) /\
      Count_ (mStats t') = Count_ (mStats t) /\
      mConfig t' = mConfig t /\ freed t' = freed t
  | _ => same_but_probes t t'
  end.
Proof.
  intros H Hlen. pose proof (GrowTable_cases T_default fuel t r t' H) as Hc.
  destruct r as [[] | e | |]; try exact Hc.
  destruct Hc as (Hcfg & Hfr & Hcnt & Hsize & Hexp).
  apply GrowTable_Done in H as (Hperm & Hnt & Hl); [| assumption].
  repeat split; assumption.
Qed.

End Keeping.

(** ** insert that throws E_DUPLICATE *)

Section DuplicateState.

Context {T : Type} (T_default : T).
Implicit Types (t : OAHashTable T) (tb : list (OAHTSlot T)) (s : OAHTSlot T) (k : string).

(** The re-insertion of [GrowTable] throws only for a key that the old
    array holds twice. *)
Lemma GrowTable_loop_Throw (Config : OAHTConfig) (fuel : nat) (m' : Z) :
  forall (suf pre nt : list (OAHTSlot T)) (p : Z) (e : OAHASHTABLE_EXCEPTION) (p' : Z),
    GrowTable_loop Config fuel (pre ++ suf) (seq (length pre) (length suf)) nt m' p
      = (Throw e, p') ->
    no_tombstone nt ->
    e = E_DUPLICATE /\ ~ NoDup (keys_of nt ++ keys_of suf).
Proof.
  induction suf as [| s suf IH]; intros pre nt p e p' H Hnt.
  - cbn [length seq GrowTable_loop] in H. discriminate.
  - cbn [length seq GrowTable_loop] in H.
    rewrite (list_lookup_middle pre suf s) in H by reflexivity.
    assert (Hsplit : pre ++ s :: suf = (pre ++ [s]) ++ suf)
      by (now rewrite <- app_assoc).
    assert (Hlen' : S (length pre) = length (pre ++ [s]))
      by (rewrite length_app; simpl; lia).
    rewrite keys_of_cons. unfold occupied.
    destruct (State s) eqn:Est; cbn [OAHTSlot_State_eqb].
    + destruct (InsertInTable Config fuel nt m' (Key s) (Data s) p)
        as [[nt1 | e1 | |] p1] eqn:Hins; try discriminate.
      * pose proof Hins as Hc.
        apply InsertInTable_Done_contents in Hc as (Hperm & _ & Hnt1).
        rewrite Hsplit, Hlen' in H. apply IH in H as [-> Hdup]; [| auto].
        split; [reflexivity |]. intros Hnd. apply Hdup.
        assert (Hk : keys_of nt1 ≡ₚ Key s :: keys_of nt).
        { rewrite !keys_of_entries, Hperm. reflexivity. }
        rewrite Hk. cbn [app]. now rewrite <- Permutation_middle in Hnd.
      * injection H as <- <-.
        apply InsertInTable_Throw in Hins as (-> & i & sj & Hsj & Hkey & Hst).
        split; [reflexivity |]. intros Hnd.
        assert (Hocc : State sj = OCCUPIED).
        { destruct Hst as [| [Hdel _]]; [assumption |].
          now apply (no_tombstone_slot nt i sj) in Hdel. }
        pose proof (slot_at_Some_range _ _ _ Hsj) as Hr.
        rewrite slot_at_lookup in Hsj by lia.
        pose proof (keys_of_lookup nt _ sj Hsj Hocc) as Hin. rewrite Hkey in Hin.
        apply NoDup_app in Hnd as (_ & Hdisj & _).
        apply (Hdisj (Key s) Hin). left.
    + rewrite Hsplit, Hlen' in H. now apply IH in H.
    + rewrite Hsplit, Hlen' in H. now apply IH in H.
Qed.

Lemma GrowTable_Throw (fuel : nat) t (e : OAHASHTABLE_EXCEPTION) t' :
  GrowTable T_default fuel t = (Throw e, t') ->
  length (mTable t) = Z.to_nat (TableSize_ (mStats t)) ->
  e = E_DUPLICATE /\ ~ NoDup (keys_of (mTable t)).
Proof.
  unfold GrowTable. intros H Hlen.
  destruct (_ || _); [discriminate |].
  destruct (GrowTable_loop _ _ _ _ _ _ _) as [[nt | e1 | |] p] eqn:Hloop; try discriminate.
  injection H as <- _.
  rewrite <- Hlen in Hloop.
  apply (GrowTable_loop_Throw _ _ _ (mTable t) []) in Hloop as [-> Hdup].
  - rewrite keys_of_replicate_fresh in Hdup. auto.
  - apply Forall_replicate. simpl. congruence.
Qed.

(** C6 (as amended): if [insert k v] throws E_DUPLICATE, the count, the
    configuration and the log of released values are as before the call.
    When the load test of the call, the double quotient
    (count + 1) / capacity against MaxLoadFactor, did not trip, the
    capacity, the expansion counter and every slot are as before too.
    When it tripped, either the growth itself threw the exception,
    re-inserting a key that the table held twice, and again nothing but
    the probe counter has changed; or the table had been grown before
    the duplicate was detected: the capacity, the expansion counter and
    the slots are those the growth produced. *)
Theorem insert_duplicate_state (fuel : nat) t k (v : T) t' :
  insert T_default fuel t k v = (Throw E_DUPLICATE, t') ->
  Count_ (mStats t') = Count_ (mStats t) /\
  mConfig t' = mConfig t /\ freed t' = freed t /\
  (loadFactor_exceeds (u32 (Count_ (mStats t) + 1)) (TableSize_ (mStats t))
     (MaxLoadFactor_ (mConfig t)) = false ->
   same_but_probes t t') /\
  (loadFactor_exceeds (u32 (Count_ (mStats t) + 1)) (TableSize_ (mStats t))
     (MaxLoadFactor_ (mConfig t)) = true ->
   (fst (GrowTable T_default fuel t) = Throw E_DUPLICATE /\
    same_but_probes t t' /\
    (length (mTable t) = Z.to_nat (TableSize_ (mStats t)) ->
     ~ NoDup (keys_of (mTable t)))) \/
   (exists tg,
      GrowTable T_default fuel t = (Done tt, tg) /\ same_but_probes tg t' /\
      TableSize_ (mStats tg) = next_capacity (mConfig t) (TableSize_ (mStats t)) /\
      Expansions_ (mStats tg) = u32 (Expansions_ (mStats t) + 1))).
Proof.
  unfold insert. intros H.
  destruct (loadFactor_exceeds _ _ _).
  - destruct (GrowTable T_default fuel t) as [r tg] eqn:Hg.
    pose proof (GrowTable_cases T_default fuel t r tg Hg) as Hc.
    destruct r as [[] | e | |]; try discriminate.
    + destruct (InsertInTable _ _ _ _ _ _ _) as [[tb | e | |] p]; try discriminate.
      injection H as -> <-.
      destruct Hc as (Hcfg & Hfr & Hcnt & Hsize & Hexp).
      cbn [with_probes with_stats mStats mConfig freed set_Probes Count_].
      split; [assumption |]. split; [assumption |]. split; [assumption |].
      split; [discriminate |].
      intros _. right. exists tg.
      split; [reflexivity |]. split; [apply same_but_probes_with_probes |].
      split; assumption.
    + injection H as -> <-.
      destruct Hc as (Htb & Hcfg & Hfr & Hcnt & Hsize & Hexp).
      split; [assumption |]. split; [assumption |]. split; [assumption |].
      split; [discriminate |].
      intros _. left. split; [reflexivity |].
      split; [repeat split; assumption |].
      intros Hlen. now apply (GrowTable_Throw fuel t E_DUPLICATE tg Hg).
  - destruct (InsertInTable _ _ _ _ _ _ _) as [[tb | e | |] p]; try discriminate.
    injection H as -> <-.
    cbn [with_probes with_stats mStats mConfig freed set_Probes Count_].
    split; [reflexivity |]. split; [reflexivity |]. split; [reflexivity |].
    split; [| discriminate].
    intros _. apply same_but_probes_with_probes.
Qed.

End DuplicateState.

Section DuplicateSamples.

Import Samples.
Local Open Scope string_scope.

Lemma insert_duplicate_state_witness :
  insert 0 50 pack7_A "A" 2 = (Throw E_DUPLICATE, snd (insert 0 50 pack7_A "A" 2)) /\
  Count_ (mStats (snd (insert 0 50 pack7_A "A" 2))) = Count_ (mStats pack7_A) /\
  same_but_probes pack7_A (snd (insert 0 50 pack7_A "A" 2)).
Proof.
  assert (H : insert 0 50 pack7_A "A" 2
              = (Throw E_DUPLICATE, snd (insert 0 50 pack7_A "A" 2)))
    by (vm_compute; reflexivity).
  split; [exact H |].
  destruct (insert_duplicate_state 0 50 pack7_A "A" 2 _ H) as (Hc & _ & _ & Hsame & _).
  split; [exact Hc |]. apply Hsame. vm_compute. reflexivity.
Defined.

(** C6 (counterexample): capacity 3, maximum load factor 0.5, growth
    factor 2, "A" already stored.  [insert "A" 2] first grows the table
    to capacity 7 and then throws E_DUPLICATE: capacity, expansion
    counter and slot array have changed. *)
Lemma insert_duplicate_grows :
  fst (insert 0 50 pack3_A "A" 2) = Throw E_DUPLICATE /\
  TableSize_ (mStats pack3_A) = 3 /\
  TableSize_ (mStats (snd (insert 0 50 pack3_A "A" 2))) = 7 /\
  Expansions_ (mStats pack3_A) = 0 /\
  Expansions_ (mStats (snd (insert 0 50 pack3_A "A" 2))) = 1 /\
  states pack3_A = [UNOCCUPIED; UNOCCUPIED; OCCUPIED] /\
  states (snd (insert 0 50 pack3_A "A" 2))
    = [UNOCCUPIED; UNOCCUPIED; OCCUPIED; UNOCCUPIED; UNOCCUPIED;
       UNOCCUPIED; UNOCCUPIED].
Proof. vm_compute. repeat split; reflexivity. Qed.

(** The growth that throws: capacity 7, double hashing, PACK.  After
    [remove "F"] the key "b" is out of reach of its probe sequence and a
    second [insert "b"] returns, so that two slots hold "b".  The load
    test of [insert "D" 4] then trips, [GrowTable] throws E_DUPLICATE
    on the second "b", and the table is left with its 7 slots. *)
Lemma insert_duplicate_in_growth :
  let t := after (double 7 PACK)
             [call_insert "F" 1; call_insert "I" 2; call_insert "b" 3;
              call_remove "F"; call_insert "b" 9] in
  keys_of (mTable t) = ["b"; "I"; "b"] /\
  loadFactor_exceeds (u32 (Count_ (mStats t) + 1)) (TableSize_ (mStats t))
    (MaxLoadFactor_ (mConfig t)) = true /\
  fst (GrowTable 0 50 t) = Throw E_DUPLICATE /\
  fst (insert 0 50 t "D" 4) = Throw E_DUPLICATE /\
  TableSize_ (mStats (snd (insert 0 50 t "D" 4))) = 7 /\
  Expansions_ (mStats (snd (insert 0 50 t "D" 4))) = 0 /\
  mTable (snd (insert 0 50 t "D" 4)) = mTable t.
Proof. vm_compute. repeat split; reflexivity. Qed.

End DuplicateSamples.

(** ** find and the missing key *)

Section Lookup.

Context {T : Type} (T_default : T).
Implicit Types (t : OAHashTable T) (tb : list (OAHTSlot T)) (s : OAHTSlot T) (k : string).

Lemma IndexOf_loop_no_throw tb m k st h (fuel : nat) :
  forall (index p : Z) (e : OAHASHTABLE_EXCEPTION),
    fst (IndexOf_loop fuel tb m k st h index p) <> Throw e.
Proof.
  induction fuel as [| fuel IH]; intros index p e; [discriminate |].
  cbn [IndexOf_loop].
  destruct (slot_at tb index) as [s |]; [| discriminate].
  assert (Hstep :
    fst (let probes := u32 (p + 1) in
         if String.eqb (Key s) k then (Done (to_int index, Some index), probes)
         else match slot_at tb (advance index st m) with
              | Some s' =>
                  if advance index st m =? h
                  then (Done (-1, None), probe_if_unoccupied s' probes)
                  else IndexOf_loop fuel tb m k st h (advance index st m)
                         (probe_if_unoccupied s' probes)
              | None => (Fault, probes)
              end) <> Throw e).
  { cbv zeta. destruct (String.eqb (Key s) k); [discriminate |].
    destruct (slot_at tb (advance index st m)); [| discriminate].
    destruct (_ =? _); [discriminate | apply IH]. }
  destruct (State s); [exact Hstep | discriminate | exact Hstep].
Qed.

(** [IndexOf] touches the probe counter only and throws nothing. *)
Lemma IndexOf_same (fuel : nat) t k (r : outcome (Z * option Z)) t' :
  IndexOf fuel t k = (r, t') ->
  same_but_probes t t' /\ forall e, r <> Throw e.
Proof.
  unfold IndexOf. intros H.
  destruct (slot_at (mTable t) _) as [s |].
  - pose proof (IndexOf_loop_no_throw (mTable t) (TableSize_ (mStats t)) k
                  (stride_of (mConfig t) k (TableSize_ (mStats t)))
                  (start_of (mConfig t) k (TableSize_ (mStats t))) fuel
                  (start_of (mConfig t) k (TableSize_ (mStats t)))
                  (probe_if_unoccupied s (Probes_ (mStats t)))) as Hn.
    destruct (IndexOf_loop _ _ _ _ _ _ _ _) as [r0 p0].
    injection H as <- <-. split; [apply same_but_probes_with_probes | exact Hn].
  - injection H as <- <-. split; [apply same_but_probes_refl | discriminate].
Qed.

(** X4: [find] is read-only but for the probe counter, whatever it
    returns or throws: slots, configuration, count, capacity, expansion
    counter and the log of released values are as before. *)
Theorem find_read_only (fuel : nat) t k :
  same_but_probes t (snd (find fuel t k)).
Proof.
  unfold find.
  destruct (IndexOf fuel t k) as [r t'] eqn:HI.
  apply IndexOf_same in HI as [Hsame _].
  destruct r as [[index slot] | e | |]; try exact Hsame.
  destruct (index =? -1); [exact Hsame |].
  destruct (slot ≫= slot_at (mTable t')); exact Hsame.
Qed.

Lemma IndexOf_Done (fuel : nat) t k (index : Z) (slot : option Z) t' :
  IndexOf fuel t k = (Done (index, slot), t') ->
  match slot with
  | Some i =>
      index = to_int i /\ 0 <= i < UINT_MOD /\
      exists s, slot_at (mTable t) i = Some s /\ State s <> UNOCCUPIED /\ Key s = k
  | None => index = -1
  end.
Proof.
  unfold IndexOf. intros H.
  destruct (slot_at (mTable t) _) as [s0 |]; [| discriminate].
  destruct (IndexOf_loop _ _ _ _ _ _ _ _) as [r0 p0] eqn:Hloop.
  injection H as -> <-.
  apply IndexOf_loop_found in Hloop; [exact Hloop | apply u32_range].
Qed.

Lemma find_Done_slot (fuel : nat) t k (v : T) t' :
  find fuel t k = (Done v, t') ->
  exists (i : Z) s,
    slot_at (mTable t) i = Some s /\ Key s = k /\ Data s = v /\
    (State s = OCCUPIED \/ State s = DELETED).
Proof.
  unfold find. intros H.
  destruct (IndexOf fuel t k) as [r t0] eqn:HI.
  destruct r as [[index slot] | e | |]; try discriminate.
  pose proof (IndexOf_same _ _ _ _ _ HI) as [(Htb & _) _].
  apply IndexOf_Done in HI.
  destruct (index =? -1); [discriminate |].
  destruct slot as [i |]; [| discriminate].
  destruct HI as (_ & _ & s & Hs & Hst & Hk).
  cbn [mbind option_bind] in H. rewrite Htb, Hs in H. injection H as <- <-.
  exists i, s. repeat split; try assumption.
  destruct (State s); [left; reflexivity | contradiction | right; reflexivity].
Qed.

(** X5: a value returned by [find k] is the value of a slot whose key is
    [k] and which is occupied or a tombstone: [find] makes nothing up,
    but it does not tell the two states apart. *)
Theorem find_sound (fuel : nat) t k (v : T) t' :
  find fuel t k = (Done v, t') ->
  exists (i : Z) s,
    slot_at (mTable t) i = Some s /\ Key s = k /\ Data s = v /\
    (State s = OCCUPIED \/ State s = DELETED).
Proof. apply find_Done_slot. Qed.

(** X6: on a table whose array has [TableSize_] slots, at most 2^31,
    with the start index in range and a stride of at most the capacity,
    [find] ends within capacity-many steps: given more fuel than the
    capacity it returns a value or throws E_ITEM_NOT_FOUND, and reads no
    slot outside the array. *)
Theorem find_bounded (fuel : nat) t k :
  let m := TableSize_ (mStats t) in
  length (mTable t) = Z.to_nat m -> 0 < m <= 2 ^ 31 ->
  0 <= start_of (mConfig t) k m < m -> 0 <= stride_of (mConfig t) k m <= m ->
  m < Z.of_nat fuel ->
  (exists v, fst (find fuel t k) = Done v) \/
  fst (find fuel t k) = Throw E_ITEM_NOT_FOUND.
Proof.
  intros m Hlen Hm Hh Hst Hfuel. unfold find, IndexOf. fold m.
  destruct (slot_at_in_range (mTable t) (start_of (mConfig t) k m)) as [s0 Hs0]; [lia |].
  rewrite Hs0.
  destruct (IndexOf_loop_bounded (mTable t) m k (stride_of (mConfig t) k m)
              (start_of (mConfig t) k m) Hlen Hm Hh Hst fuel 0%nat
              (probe_if_unoccupied s0 (Probes_ (mStats t)))) as ([index slot] & p' & Hloop);
    [lia | intros j Hj; lia |].
  cbn [probe_index] in Hloop. rewrite Hloop.
  destruct (Z.eqb_spec index (-1)) as [| Hne]; [right; reflexivity |].
  left. apply IndexOf_loop_found in Hloop; [| apply u32_range].
  destruct slot as [i |]; [| contradiction].
  destruct Hloop as (_ & _ & s & Hs & _).
  cbn [mbind option_bind with_probes with_stats mTable]. rewrite Hs. eauto.
Qed.

End Lookup.

(** ** remove *)

Section Removal.

Context {T : Type} (T_default : T).
Implicit Types (t : OAHashTable T) (tb : list (OAHTSlot T)) (s : OAHTSlot T) (k : string).

Lemma occupied_eqb_true s : OAHTSlot_State_eqb (State s) OCCUPIED = true -> State s = OCCUPIED.
Proof. destruct (State s); simpl; congruence. Qed.

(** The repair loop of PACK: whatever its outcome, it keeps the
    statistics but the probe counter, the length of the array and the
    absence of tombstones; it throws E_DUPLICATE only; and when it
    returns the pairs held are those it started with. *)
Lemma remove_loop_keeps (fuel : nat) :
  forall t (orig index : Z) (r : outcome unit) t',
    remove_loop fuel t orig index = (r, t') ->
    mConfig t' = mConfig t /\ freed t' = freed t /\
    Count_ (mStats t') = Count_ (mStats t) /\
    TableSize_ (mStats t') = TableSize_ (mStats t) /\
    Expansions_ (mStats t') = Expansions_ (mStats t) /\
    length (mTable t') = length (mTable t) /\
    (no_tombstone (mTable t) -> no_tombstone (mTable t')) /\
    (forall e, r = Throw e -> e = E_DUPLICATE) /\
    (r = Done tt -> entries_of (mTable t') ≡ₚ entries_of (mTable t)).
Proof.
  induction fuel as [| fuel IH]; intros t orig index r t' H.
  - injection H as <- <-. repeat split; try reflexivity; try discriminate. auto.
  - cbn [remove_loop] in H.
    destruct (slot_at (mTable t) index) as [s |] eqn:Hs.
    2:{ injection H as <- <-. repeat split; try reflexivity; try discriminate. auto. }
    destruct (OAHTSlot_State_eqb (State s) OCCUPIED && negb (index =? orig)) eqn:Hc.
    2:{ injection H as <- <-. repeat split; try reflexivity; try discriminate. auto. }
    apply andb_prop in Hc as [Hocc _]. apply occupied_eqb_true in Hocc.
    cbn [with_table mConfig mTable mStats] in H.
    set (tb1 := store_at (mTable t) index (set_State s UNOCCUPIED)) in *.
    assert (Hl1 : length tb1 = length (mTable t)) by apply length_store_at.
    assert (Hnt1 : no_tombstone (mTable t) -> no_tombstone tb1).
    { intros Hn. apply no_tombstone_store; [assumption | simpl; congruence]. }
    assert (Hv : entries_of (mTable t) ≡ₚ (Key s, Data s) :: entries_of tb1).
    { apply entries_of_vacate; [assumption | assumption | congruence]. }
    destruct (InsertInTable _ _ _ _ _ _ _) as [[tb2 | e | |] p] eqn:Hins.
    + destruct (copied_onto_itself tb2 index).
      { injection H as <- <-.
        cbn [with_probes with_stats with_table set_Probes mConfig mStats mTable freed
             Count_ TableSize_ Expansions_].
        repeat split; try assumption; try discriminate. }
      apply InsertInTable_Done_contents in Hins as (Hp2 & Hl2 & Hnt2).
      apply IH in H as (Hcfg & Hfr & Hcnt & Hsz & Hex & Hl & Hnt & Hthrow & Hdone).
      cbn [with_probes with_stats with_table set_Probes mConfig mStats mTable freed
           Count_ TableSize_ Expansions_] in *.
      repeat split; try assumption; try congruence.
      * auto.
      * intros Hr. rewrite (Hdone Hr), Hp2. symmetry. exact Hv.
    + injection H as <- <-. apply InsertInTable_Throw in Hins as [-> _].
      cbn [with_probes with_stats with_table set_Probes mConfig mStats mTable freed
           Count_ TableSize_ Expansions_].
      repeat split; try assumption; try discriminate. intros e [= <-]. reflexivity.
    + injection H as <- <-.
      cbn [with_probes with_stats with_table set_Probes mConfig mStats mTable freed
           Count_ TableSize_ Expansions_].
      repeat split; try assumption; try discriminate.
    + injection H as <- <-.
      cbn [with_probes with_stats with_table set_Probes mConfig mStats mTable freed
           Count_ TableSize_ Expansions_].
      repeat split; try assumption; try discriminate.
Qed.

(** X7: [remove k] throws E_ITEM_NOT_FOUND exactly when [find k] does,
    and then it has changed nothing but the probe counter. *)
Theorem remove_not_found (fuel : nat) t k :
  (fst (remove fuel t k) = Throw E_ITEM_NOT_FOUND <->
   fst (find fuel t k) = Throw E_ITEM_NOT_FOUND) /\
  (fst (remove fuel t k) = Throw E_ITEM_NOT_FOUND ->
   same_but_probes t (snd (remove fuel t k))).
Proof.
  unfold remove, find.
  destruct (IndexOf fuel t k) as [r t0] eqn:HI.
  pose proof (IndexOf_same _ _ _ _ _ HI) as [Hsame Hnothrow].
  destruct r as [[index slot] | e | |]; cbn [fst snd].
  - destruct (index =? -1); cbn [fst snd];
      [split; [split; intros _; reflexivity | intros _; exact Hsame] |].
    match goal with
    | |- (fst ?R = _ <-> fst ?F = _) /\ _ =>
        assert (HF : fst F <> Throw E_ITEM_NOT_FOUND);
        [| assert (HR : fst R <> Throw E_ITEM_NOT_FOUND);
           [| split; [split; intros H; contradiction | intros H; contradiction]]]
    end.
    { destruct (slot ≫= slot_at (mTable t0)); discriminate. }
    destruct (DeletionPolicy_ _).
    + destruct (slot_at _ index); discriminate.
    + destruct slot as [si |]; [| discriminate].
      cbn [mbind option_bind].
      destruct (slot_at _ si) as [s |]; [| discriminate].
      destruct (remove_loop _ _ _ _) as [r' t'] eqn:Hloop.
      apply remove_loop_keeps in Hloop as (_ & _ & _ & _ & _ & _ & _ & Hthrow & _).
      cbn [fst]. intros ->. specialize (Hthrow _ eq_refl). discriminate.
  - exfalso. now apply (Hnothrow e).
  - split; [split; discriminate | discriminate].
  - split; [split; discriminate | discriminate].
Qed.

Lemma to_int_nonneg (i : Z) : 0 <= i < UINT_MOD -> 0 <= to_int i -> to_int i = i.
Proof.
  intros Hi. unfold to_int. rewrite u32_small by assumption.
  destruct (i <? 2 ^ 31); unfold UINT_MOD in *; lia.
Qed.

Lemma set_State_id s : set_State s (State s) = s.
Proof. now destruct s. Qed.

(** X8: under MARK a [remove k] that returns has only marked one slot
    DELETED: the slot keeps its key and its value, no other slot
    changes, the release callback is not called, and the count is one
    lower.  If the slot was occupied its pair has left the contents; if
    it was a tombstone already, the table is as before and only the
    count has moved. *)
Theorem remove_MARK_effect (fuel : nat) t t' k :
  DeletionPolicy_ (mConfig t) = MARK ->
  remove fuel t k = (Done tt, t') ->
  exists (i : Z) s,
    slot_at (mTable t) i = Some s /\ Key s = k /\
    mTable t' = store_at (mTable t) i (set_State s DELETED) /\
    freed t' = freed t /\ mConfig t' = mConfig t /\
    Count_ (mStats t') = u32 (Count_ (mStats t) - 1) /\
    TableSize_ (mStats t') = TableSize_ (mStats t) /\
    (State s = OCCUPIED ->
     entries_of (mTable t) ≡ₚ (k, Data s) :: entries_of (mTable t')) /\
    (State s = DELETED -> mTable t' = mTable t).
Proof.
  intros Hmark H. unfold remove in H.
  destruct (IndexOf fuel t k) as [r t0] eqn:HI.
  pose proof (IndexOf_same _ _ _ _ _ HI) as [(Htb & Hcfg & Hfr & Hcnt & Hsz & Hex) _].
  destruct r as [[index slot] | e | |]; try discriminate.
  apply IndexOf_Done in HI.
  destruct (Z.eqb_spec index (-1)) as [| Hne]; [discriminate |].
  cbn [with_stats mConfig mTable] in H. rewrite Hcfg, Hmark, Htb in H.
  destruct (slot_at (mTable t) index) as [s |] eqn:Hs; [| discriminate].
  injection H as <-.
  destruct slot as [i |]; [| contradiction].
  destruct HI as (Hidx & Hi & s1 & Hs1 & Hst1 & Hk1).
  pose proof (slot_at_Some_range _ _ _ Hs) as Hr.
  assert (Hii : index = i).
  { rewrite Hidx. apply to_int_nonneg; [lia | rewrite <- Hidx; lia]. }
  clear Hidx. subst index. rewrite Hs in Hs1. injection Hs1 as <-.
  exists i, s.
  cbn [with_table with_stats set_Count mTable mConfig mStats freed Count_ TableSize_].
  rewrite ?Htb, ?Hcnt, ?Hsz.
  repeat split; try assumption.
  - intros Ho. rewrite <- Hk1. apply entries_of_vacate; [assumption | assumption | discriminate].
  - intros Hd. rewrite <- Hd, set_State_id. unfold store_at.
    apply list_insert_id. rewrite slot_at_lookup in Hs by lia. exact Hs.
Qed.

Lemma remove_PACK_contents (fuel : nat) t t' k :
  DeletionPolicy_ (mConfig t) = PACK ->
  no_tombstone (mTable t) ->
  remove fuel t k = (Done tt, t') ->
  exists v : T,
    entries_of (mTable t) ≡ₚ (k, v) :: entries_of (mTable t') /\
    occupied_count (mTable t') = occupied_count (mTable t) - 1 /\
    no_tombstone (mTable t') /\
    length (mTable t') = length (mTable t) /\
    Count_ (mStats t') = u32 (Count_ (mStats t) - 1) /\
    TableSize_ (mStats t') = TableSize_ (mStats t) /\
    freed t' = (if FreeProc_ (mConfig t) then v :: freed t else freed t).
Proof.
  intros Hpack Hnt H. unfold remove in H.
  destruct (IndexOf fuel t k) as [r t0] eqn:HI.
  pose proof (IndexOf_same _ _ _ _ _ HI) as [(Htb & Hcfg & Hfr & Hcnt & Hsz & Hex) _].
  destruct r as [[index slot] | e | |]; try discriminate.
  apply IndexOf_Done in HI.
  destruct (Z.eqb_spec index (-1)) as [| Hne]; [discriminate |].
  cbn [with_stats mConfig mTable mStats freed] in H. rewrite Hcfg, Hpack, Htb in H.
  destruct slot as [i |]; [| discriminate].
  destruct HI as (_ & _ & s & Hs & Hst & Hk).
  cbn [mbind option_bind] in H. rewrite Hs in H.
  assert (Hocc : State s = OCCUPIED).
  { pose proof (no_tombstone_slot _ _ _ Hnt Hs). destruct (State s) eqn:E; congruence. }
  assert (Hvac : entries_of (mTable t)
                 ≡ₚ (k, Data s) :: entries_of (store_at (mTable t) i (set_State s UNOCCUPIED))).
  { rewrite <- Hk. apply entries_of_vacate; [assumption | assumption | discriminate]. }
  assert (Hnt1 : no_tombstone (store_at (mTable t) i (set_State s UNOCCUPIED))).
  { apply no_tombstone_store; [assumption | simpl; congruence]. }
  exists (Data s).
  destruct (FreeProc_ (mConfig t)).
  all: apply remove_loop_keeps in H
         as (Hcfg' & Hfr' & Hcnt' & Hsz' & Hex' & Hl' & Hnt' & _ & Hdone);
       specialize (Hdone eq_refl);
       cbn [with_table with_stats set_Count mTable mConfig mStats freed
            Count_ TableSize_ Expansions_] in *;
       rewrite ?Htb in Hl', Hnt', Hdone.
  all: assert (Hperm : entries_of (mTable t) ≡ₚ (k, Data s) :: entries_of (mTable t'))
         by (rewrite Hvac, Hdone; reflexivity).
  all: split; [exact Hperm |].
  all: split; [rewrite !occupied_count_entries, Hperm; cbn [length]; lia |].
  all: split; [auto |].
  all: split; [rewrite Hl'; apply length_store_at |].
  all: split; [congruence |]; split; congruence.
Qed.

(** X9: under PACK, on a table without tombstones, a [remove k] that
    returns has taken exactly one pair, with key [k], out of the
    contents: the repair moves the rest of the cluster without losing or
    duplicating a pair.  No tombstone is left, the array keeps its
    length, the count is one lower, and the value removed is the one
    handed to the release callback when one is configured. *)
Theorem remove_PACK_effect (fuel : nat) t t' k :
  DeletionPolicy_ (mConfig t) = PACK ->
  no_tombstone (mTable t) ->
  remove fuel t k = (Done tt, t') ->
  exists v : T,
    entries_of (mTable t) ≡ₚ (k, v) :: entries_of (mTable t') /\
    occupied_count (mTable t') = occupied_count (mTable t) - 1 /\
    no_tombstone (mTable t') /\
    length (mTable t') = length (mTable t) /\
    Count_ (mStats t') = u32 (Count_ (mStats t) - 1) /\
    TableSize_ (mStats t') = TableSize_ (mStats t) /\
    freed t' = (if FreeProc_ (mConfig t) then v :: freed t else freed t).
Proof. apply remove_PACK_contents. Qed.


End Removal.

(** ** Release of the values, and new tables *)

Section Release.

Context {T : Type} (T_default : T).
Implicit Types (t : OAHashTable T) (tb : list (OAHTSlot T)) (s : OAHTSlot T) (k : string).

Lemma held_values_cons s tb :
  held_values (s :: tb)
  = if OAHTSlot_State_eqb (State s) UNOCCUPIED then held_values tb
    else Data s :: held_values tb.
Proof.
  unfold held_values. destruct (OAHTSlot_State_eqb (State s) UNOCCUPIED) eqn:E.
  - rewrite filter_cons_False; [reflexivity | congruence].
  - now rewrite filter_cons_True.
Qed.

Lemma clear_loop_freed (suf : list (OAHTSlot T)) :
  forall (pre : list (OAHTSlot T)) (cfg : OAHTConfig) (st : OAHTStats) (fr : list T),
  exists tb' st',
    clear_loop (mkTable (pre ++ suf) cfg st fr) (seq (length pre) (length suf))
    = (Done tt,
       mkTable tb' cfg st'
         (if FreeProc_ cfg then rev (held_values suf) ++ fr else fr)).
Proof.
  induction suf as [| s suf IH]; intros pre cfg st fr.
  - exists pre, st. cbn. rewrite app_nil_r. now destruct (FreeProc_ cfg).
  - cbn [length seq clear_loop]. unfold clear_slot. cbn [mTable mConfig mStats freed].
    rewrite (list_lookup_middle pre suf s) by reflexivity.
    assert (Hins : forall x : OAHTSlot T, <[length pre := x]> (pre ++ s :: suf) = (pre ++ [x]) ++ suf).
    { intros x. rewrite insert_app_r_alt by lia. rewrite Nat.sub_diag. cbn.
      now rewrite <- app_assoc. }
    assert (Hlen : forall x : OAHTSlot T, S (length pre) = length (pre ++ [x]))
      by (intros x; rewrite length_app; simpl; lia).
    rewrite held_values_cons.
    destruct (State s) eqn:Est; cbn [OAHTSlot_State_eqb].
    + rewrite Hins, (Hlen (set_State s UNOCCUPIED)).
      destruct (IH (pre ++ [set_State s UNOCCUPIED]) cfg
                  (set_Count (u32 (Count_ st - 1)) st)
                  (if FreeProc_ cfg then Data s :: fr else fr)) as (tb' & st' & Hloop).
      exists tb', st'. rewrite Hloop. f_equal. f_equal.
      destruct (FreeProc_ cfg); [| reflexivity].
      cbn [rev]. now rewrite <- app_assoc.
    + replace (pre ++ s :: suf) with ((pre ++ [s]) ++ suf) by (now rewrite <- app_assoc).
      rewrite (Hlen s). apply IH.
    + rewrite Hins, (Hlen (set_State s UNOCCUPIED)).
      destruct (IH (pre ++ [set_State s UNOCCUPIED]) cfg st
                  (if FreeProc_ cfg then Data s :: fr else fr)) as (tb' & st' & Hloop).
      exists tb', st'. rewrite Hloop. f_equal. f_equal.
      destruct (FreeProc_ cfg); [| reflexivity].
      cbn [rev]. now rewrite <- app_assoc.
Qed.

(** X12: the destructor, like [clear], hands to the release callback
    the value of every slot that is occupied or a tombstone, each once,
    in ascending slot order, and nothing when no callback is configured;
    it does not fail. *)
Theorem delete_releases t :
  length (mTable t) = Z.to_nat (TableSize_ (mStats t)) ->
  OAHashTable_delete t
  = (Done tt,
     if FreeProc_ (mConfig t) then rev (held_values (mTable t)) ++ freed t
     else freed t).
Proof.
  intros Hlen. unfold OAHashTable_delete, clear.
  destruct t as [tb cfg st fr]. cbn [mTable mStats mConfig freed] in *.
  destruct (clear_loop_freed tb [] cfg st fr) as (tb' & st' & Hloop).
  cbn [app length] in Hloop. rewrite <- Hlen, Hloop. reflexivity.
Qed.

(** X13: on a newly constructed table every slot is unoccupied and the
    count is 0, and, for a key whose primary hash value is in range,
    [find] and [remove] throw E_ITEM_NOT_FOUND after a single probe. *)
Theorem new_table_lookup (Config : OAHTConfig) k (fuel : nat) :
  let t := OAHashTable_new T_default Config in
  let m := u32 (InitialTableSize_ Config) in
  0 <= start_of Config k m < m ->
  entries_of (mTable t) = [] /\ held_values (mTable t) = [] /\
  Count_ (mStats t) = 0 /\ TableSize_ (mStats t) = m /\
  fst (find (S fuel) t k) = Throw E_ITEM_NOT_FOUND /\
  fst (remove (S fuel) t k) = Throw E_ITEM_NOT_FOUND /\
  Probes_ (mStats (snd (find (S fuel) t k))) = 1.
Proof.
  intros t m Hk.
  assert (Hs : slot_at (mTable t) (start_of Config k m) = Some (fresh_slot T_default)).
  { unfold t, OAHashTable_new. cbn [mTable]. rewrite slot_at_lookup by lia.
    apply lookup_replicate_2. lia. }
  split; [apply entries_of_replicate_fresh |].
  split.
  { unfold t, OAHashTable_new, held_values. cbn [mTable].
    induction (Z.to_nat (u32 (InitialTableSize_ Config))) as [| n IH]; [reflexivity |].
    cbn [replicate]. rewrite filter_cons_False; [exact IH | simpl; congruence]. }
  split; [reflexivity |]. split; [reflexivity |].
  unfold find, remove, IndexOf.
  change (TableSize_ (mStats t)) with m. change (mConfig t) with Config.
  rewrite Hs. cbn [IndexOf_loop]. rewrite Hs. cbn. repeat split; reflexivity.
Qed.

End Release.

(** ** Probe sequences at a prime capacity, and placement under PACK *)

Section ProbeSequence.

Context {T : Type}.
Implicit Types (tb : list (OAHTSlot T)) (s : OAHTSlot T) (k : string).

Lemma prime_stride_coprime (m st : Z) : Z.prime m -> 1 <= st < m -> Z.gcd st m = 1.
Proof.
  intros [Hm Hp] Hst.
  pose proof (Z.gcd_divide_l st m) as Hl. pose proof (Z.gcd_divide_r st m) as Hr.
  pose proof (Z.gcd_nonneg st m) as Hn.
  assert (Hle : Z.gcd st m <= st) by (apply Z.divide_pos_le; [lia | assumption]).
  destruct (Z.eq_dec (Z.gcd st m) 0) as [H0 | H0].
  - rewrite H0 in Hr. destruct Hr as [c Hc]. lia.
  - destruct (Z.eq_dec (Z.gcd st m) 1) as [| H1]; [assumption |].
    exfalso. apply (Hp (Z.gcd st m)); [lia | assumption].
Qed.

(** X14: at a prime capacity [m] (up to 2^31), from a start index in
    range and with any stride in [1, m - 1] (what double hashing with an
    in-range secondary hash gives), the [n]-th index of a walk is
    (start + n * stride) mod m, the first [m] indices are pairwise
    distinct, and every slot of the array is among them. *)
Theorem probe_sequence_prime (m st h : Z) :
  Z.prime m -> m <= 2 ^ 31 -> 0 <= h < m -> 1 <= st < m ->
  (forall n : nat, probe_index m st h n = (h + Z.of_nat n * st) mod m) /\
  (forall a b : nat, (a < b)%nat -> Z.of_nat b < m ->
     probe_index m st h a <> probe_index m st h b) /\
  (forall i, 0 <= i < m -> exists n : nat, Z.of_nat n < m /\ probe_index m st h n = i).
Proof.
  intros Hp Hm Hh Hst. pose proof Hp as [Hm1 _].
  pose proof (prime_stride_coprime m st Hp Hst) as Hg.
  split; [intros n; apply probe_index_mod; lia |].
  split.
  - intros a b Hab Hb. apply probe_index_inj; try assumption; lia.
  - intros i Hi. apply probe_index_onto; try assumption; lia.
Qed.

(** X15: under PACK, on an array of [m] slots (at most 2^31) with the
    start index in range, a stride of at most [m] and a key that fits a
    slot, [InsertInTable] reads and writes inside the array only.  It
    either returns an array of the same length, or throws E_DUPLICATE,
    and then an occupied slot holds the key, or its walk does not end. *)
Theorem InsertInTable_PACK_outcomes (Config : OAHTConfig) (fuel : nat) tb m k (v : T) (p : Z) :
  DeletionPolicy_ Config = PACK ->
  length tb = Z.to_nat m -> 0 < m <= 2 ^ 31 ->
  0 <= start_of Config k m < m -> 0 <= stride_of Config k m <= m ->
  Z.of_nat (String.length k) < MAX_KEYLEN ->
  match fst (InsertInTable Config fuel tb m k v p) with
  | Done tb' => length tb' = length tb
  | Throw e => e = E_DUPLICATE /\ k ∈ keys_of tb
  | Fault => False
  | Timeout => True
  end.
Proof.
  intros Hpack Hlen Hm Hh Hst Hfit.
  destruct (InsertInTable Config fuel tb m k v p) as [r p'] eqn:H. cbn [fst].
  destruct r as [tb' | e | |].
  - apply InsertInTable_Done in H as (n & s & _ & _ & _ & _ & ->). apply length_store_at.
  - apply InsertInTable_Throw in H as (-> & i & s & Hs & Hk & [Ho | [_ Hmark]]).
    + split; [reflexivity |]. rewrite <- Hk.
      pose proof (slot_at_Some_range _ _ _ Hs) as Hr.
      rewrite slot_at_lookup in Hs by lia. eapply keys_of_lookup; eauto.
    + congruence.
  - unfold InsertInTable in H.
    pose proof (InsertInTable_loop_in_bounds tb m k (stride_of Config k m) fuel Hlen Hm Hst
                  (start_of Config k m) p Hh) as [Hnf Hin].
    destruct (InsertInTable_loop _ _ _ _ _ _ _) as [[i | e | |] p1]; try discriminate.
    + specialize (Hin i eq_refl).
      destruct (slot_at_in_range tb i) as [s Hs]; [lia |]. rewrite Hs in H.
      rewrite Hpack in H.
      destruct (Z.ltb_spec (Z.of_nat (String.length k)) MAX_KEYLEN); [| lia].
      destruct (State s); discriminate.
    + now apply Hnf.
  - exact I.
Qed.

End ProbeSequence.

(** ** Sequences of calls *)

Section Runs.

Context {T : Type} (T_default : T).
Implicit Types (t : OAHashTable T) (tb : list (OAHTSlot T)) (s : OAHTSlot T) (k : string).

Lemma packed_new (Config : OAHTConfig) : packed (OAHashTable_new T_default Config).
Proof.
  unfold packed, OAHashTable_new. cbn [mTable mStats TableSize_].
  split; [apply length_replicate |]. split; [apply u32_range |].
  apply Forall_replicate. simpl. congruence.
Qed.

Lemma packed_same t t' : same_but_probes t t' -> packed t -> packed t'.
Proof.
  intros (Htb & _ & _ & _ & Hsz & _) (Hl & Hr & Hn). unfold packed.
  rewrite Htb, Hsz. auto.
Qed.

Lemma find_same (fuel : nat) t k (r : outcome T) t' :
  find fuel t k = (r, t') -> same_but_probes t t'.
Proof.
  unfold find. intros H. destruct (IndexOf fuel t k) as [r0 t0] eqn:HI.
  apply IndexOf_same in HI as [Hs _].
  destruct r0 as [[index slot] | e | |]; try (injection H as <- <-; exact Hs).
  destruct (index =? -1); [injection H as <- <-; exact Hs |].
  destruct (slot ≫= slot_at (mTable t0)); injection H as <- <-; exact Hs.
Qed.

Lemma keys_of_unoccupied tb : keys_of (map (fun s => set_State s UNOCCUPIED) tb) = [].
Proof.
  induction tb as [| s tb IH]; [reflexivity |].
  cbn [map]. rewrite keys_of_cons. destruct s as [k0 v0 st0]. exact IH.
Qed.

(** [insert], whatever its outcome, keeps the shape of a table without
    tombstones, its configuration, and the agreement of the count with
    the number of occupied slots. *)
Lemma insert_keeps_packed (fuel : nat) t k (v : T) (r : outcome unit) t' :
  packed t -> insert T_default fuel t k v = (r, t') ->
  packed t' /\ mConfig t' = mConfig t /\
  (Count_ (mStats t) = occupied_count (mTable t) ->
   Count_ (mStats t') = occupied_count (mTable t')).
Proof.
  intros Hp H. unfold insert in H.
  assert (Hgoal : forall tg,
    packed tg -> mConfig tg = mConfig t ->
    (Count_ (mStats t) = occupied_count (mTable t) ->
     Count_ (mStats tg) = occupied_count (mTable tg)) ->
    match InsertInTable (mConfig tg) fuel (mTable tg) (TableSize_ (mStats tg)) k v
            (Probes_ (mStats tg)) with
    | (Done table', probes) =>
        (Done tt,
         mkTable table' (mConfig tg)
           (mkStats (u32 (Count_ (mStats tg) + 1)) (TableSize_ (mStats tg)) probes
              (Expansions_ (mStats tg))) (freed tg))
    | (Throw e, probes) => (Throw e, with_probes probes tg)
    | (Fault, probes) => (Fault, with_probes probes tg)
    | (Timeout, probes) => (Timeout, with_probes probes tg)
    end = (r, t') ->
    packed t' /\ mConfig t' = mConfig t /\
    (Count_ (mStats t) = occupied_count (mTable t) ->
     Count_ (mStats t') = occupied_count (mTable t'))).
  { intros tg Hpg Hcfg Hcnt H'.
    destruct (InsertInTable _ _ _ _ _ _ _) as [[tb' | e | |] p'] eqn:Hins;
      injection H' as <- <-.
    2-4: split; [apply (packed_same tg); [apply same_but_probes_with_probes | exact Hpg] |];
         split; [exact Hcfg | exact Hcnt].
    destruct Hpg as (Hl & Hr & Hn).
    apply InsertInTable_Done_contents in Hins as (Hperm & Hl' & Hnt).
    split; [| split; [exact Hcfg |]].
    - unfold packed. cbn [mTable mStats TableSize_]. rewrite Hl'. auto.
    - intros Hc. specialize (Hcnt Hc). cbn [mTable mStats Count_].
      assert (Ho : occupied_count tb' = occupied_count (mTable tg) + 1)
        by (rewrite !occupied_count_entries, Hperm; cbn [length]; lia).
      pose proof (occupied_count_le tb') as Hle.
      rewrite Hcnt, Ho. apply u32_small.
      unfold occupied_count in *. lia. }
  destruct (loadFactor_exceeds _ _ _).
  - destruct (GrowTable T_default fuel t) as [rg tg] eqn:Hg.
    pose proof (GrowTable_cases T_default fuel t rg tg Hg) as Hc.
    destruct rg as [[] | e | |].
    + destruct Hc as (Hcfg & _ & Hcnt & Hsz & _).
      apply GrowTable_Done in Hg as (Hperm & Hnt & Hl); [| apply Hp].
      apply (Hgoal tg); [| assumption | | assumption].
      * split; [assumption |]. split; [rewrite Hsz; apply u32_range | assumption].
      * intros Hc. rewrite Hcnt, Hc, !occupied_count_entries, Hperm. reflexivity.
    + injection H as <- <-. destruct Hc as (Htb & Hcfg & Hfr & Hcnt & Hsz & Hex).
      split; [apply (packed_same t); [repeat split; assumption | exact Hp] |].
      split; [exact Hcfg |]. intros Hc. now rewrite Htb, Hcnt.
    + injection H as <- <-. destruct Hc as (Htb & Hcfg & Hfr & Hcnt & Hsz & Hex).
      split; [apply (packed_same t); [repeat split; assumption | exact Hp] |].
      split; [exact Hcfg |]. intros Hc. now rewrite Htb, Hcnt.
    + injection H as <- <-. destruct Hc as (Htb & Hcfg & Hfr & Hcnt & Hsz & Hex).
      split; [apply (packed_same t); [repeat split; assumption | exact Hp] |].
      split; [exact Hcfg |]. intros Hc. now rewrite Htb, Hcnt.
  - apply (Hgoal t); auto.
Qed.

Lemma find_keeps_packed (fuel : nat) t k (r : outcome T) t' :
  packed t -> find fuel t k = (r, t') ->
  packed t' /\ mConfig t' = mConfig t /\
  (Count_ (mStats t) = occupied_count (mTable t) ->
   Count_ (mStats t') = occupied_count (mTable t')).
Proof.
  intros Hp H. apply find_same in H. pose proof (packed_same _ _ H Hp) as Hp'.
  destruct H as (Htb & Hcfg & _ & Hcnt & _).
  split; [exact Hp' |]. split; [exact Hcfg |]. intros Hc. now rewrite Htb, Hcnt.
Qed.

(** [clear] returns on such a table, and leaves the count equal to the
    number of occupied slots, which is 0. *)
Lemma clear_keeps_packed t (r : outcome unit) t' :
  packed t -> clear t = (r, t') ->
  packed t' /\ mConfig t' = mConfig t /\
  (Count_ (mStats t) = occupied_count (mTable t) ->
   Count_ (mStats t') = occupied_count (mTable t')).
Proof.
  intros (Hl & Hr & Hn) H. destruct t as [tb cfg st fr].
  cbn [mTable mStats mConfig] in *. unfold clear in H. cbn [mStats] in H.
  destruct (clear_loop_spec tb [] cfg st fr) as (st' & fr' & Hloop & Hsz & _ & _ & Hcnt).
  cbn [app length] in Hloop. rewrite <- Hl, Hloop in H. injection H as <- <-.
  cbn [mTable mStats mConfig]. split; [| split; [reflexivity |]].
  - unfold packed. cbn [mTable mStats]. rewrite length_map, Hsz.
    split; [assumption |]. split; [assumption |].
    apply Forall_forall. intros s Hs. apply list_elem_of_fmap in Hs as (s0 & -> & _).
    destruct s0. simpl. congruence.
  - intros Hc. rewrite Hcnt.
    pose proof (occupied_count_le tb) as Hle.
    assert (Hrange : 0 <= Count_ st < UINT_MOD)
      by (rewrite Hc; unfold occupied_count in *; lia).
    rewrite decrements_u32 by exact Hrange.
    rewrite (occupied_count_keys (map _ tb)), keys_of_unoccupied.
    rewrite <- occupied_count_keys, Hc, Z.sub_diag. reflexivity.
Qed.

(** Under PACK [remove], whatever its outcome, leaves no tombstone. *)
Lemma remove_PACK_keeps_packed (fuel : nat) t k (r : outcome unit) t' :
  DeletionPolicy_ (mConfig t) = PACK -> packed t -> remove fuel t k = (r, t') ->
  packed t' /\ mConfig t' = mConfig t.
Proof.
  intros Hpack Hp H. unfold remove in H.
  destruct (IndexOf fuel t k) as [r0 t0] eqn:HI.
  pose proof (IndexOf_same _ _ _ _ _ HI) as [Hsame _].
  pose proof (packed_same _ _ Hsame Hp) as Hp0.
  destruct Hsame as (Htb & Hcfg & Hfr & Hcnt & Hsz & Hex).
  destruct r0 as [[index slot] | e | |];
    try (injection H as <- <-; split; assumption).
  destruct (index =? -1); [injection H as <- <-; split; assumption |].
  cbn [with_stats mConfig mTable mStats freed] in H. rewrite Hcfg, Hpack in H.
  destruct Hp0 as (Hl0 & Hr0 & Hn0).
  destruct slot as [i |]; cbn [mbind option_bind] in H.
  2:{ injection H as <- <-. cbn [mConfig]. split; [| assumption].
      unfold packed. cbn [mTable mStats set_Count TableSize_]. auto. }
  destruct (slot_at (mTable t0) i) as [s |] eqn:Hs.
  2:{ injection H as <- <-. cbn [mConfig]. split; [| assumption].
      unfold packed. cbn [mTable mStats set_Count TableSize_]. auto. }
  assert (Hn1 : no_tombstone (store_at (mTable t0) i (set_State s UNOCCUPIED))).
  { apply no_tombstone_store; [assumption | simpl; congruence]. }
  pose proof (length_store_at (mTable t0) i (set_State s UNOCCUPIED)) as Hl1.
  destruct (FreeProc_ (mConfig t)).
  all: apply remove_loop_keeps in H
         as (Hcfg' & _ & _ & Hsz' & _ & Hl' & Hnt' & _ & _);
       cbn [with_table with_stats set_Count mTable mConfig mStats freed
            Count_ TableSize_ Expansions_] in *.
  all: split; [| congruence].
  all: unfold packed; rewrite Hl', Hsz', Hl1; auto.
Qed.

Lemma do_call_keeps_packed (fuel : nat) t (c : call T) (r : outcome unit) t' :
  packed t -> remove_free c = true \/ DeletionPolicy_ (mConfig t) = PACK ->
  do_call T_default fuel t c = (r, t') ->
  packed t' /\ mConfig t' = mConfig t.
Proof.
  intros Hp Hc H. destruct c as [k v | k | k |]; cbn [do_call] in H.
  - apply insert_keeps_packed in H as (? & ? & _); auto.
  - destruct Hc as [Hc | Hc]; [discriminate |].
    now apply (remove_PACK_keeps_packed fuel t k r t').
  - destruct (find fuel t k) as [r1 t1] eqn:Hf.
    apply find_keeps_packed in Hf as (? & ? & _); [| assumption].
    destruct r1; injection H as <- <-; auto.
  - apply clear_keeps_packed in H as (? & ? & _); auto.
Qed.

Lemma do_call_keeps_count (fuel : nat) t (c : call T) (r : outcome unit) t' :
  packed t -> remove_free c = true ->
  Count_ (mStats t) = occupied_count (mTable t) ->
  do_call T_default fuel t c = (r, t') ->
  Count_ (mStats t') = occupied_count (mTable t').
Proof.
  intros Hp Hc Hcnt H. destruct c as [k v | k | k |]; cbn [do_call] in H.
  - apply insert_keeps_packed in H as (_ & _ & ?); auto.
  - discriminate.
  - destruct (find fuel t k) as [r1 t1] eqn:Hf.
    apply find_keeps_packed in Hf as (_ & _ & ?); [| assumption].
    destruct r1; injection H as <- <-; auto.
  - apply clear_keeps_packed in H as (_ & _ & ?); auto.
Qed.

Lemma entries_of_slot tb (i : Z) s :
  slot_at tb i = Some s -> State s = OCCUPIED -> (Key s, Data s) ∈ entries_of tb.
Proof.
  intros Hs Ho. pose proof (slot_at_Some_range _ _ _ Hs) as Hr.
  rewrite slot_at_lookup in Hs by lia.
  unfold entries_of. apply list_elem_of_fmap. exists s. split; [reflexivity |].
  apply list_elem_of_filter. split; [now apply occupied_true |].
  eapply list_elem_of_lookup_2; eauto.
Qed.



Lemma run_counted (fuel : nat) (cs : list (call T)) :
  forall t t', forallb remove_free cs = true -> packed t ->
    Count_ (mStats t) = occupied_count (mTable t) ->
    run T_default fuel t cs = Some t' ->
    packed t' /\ Count_ (mStats t') = occupied_count (mTable t').
Proof.
  induction cs as [| c cs IH]; intros t t' Hfree Hp Hcnt H; cbn [run] in H.
  - injection H as <-. auto.
  - cbn [forallb] in Hfree. apply andb_prop in Hfree as [Hc Hfree].
    destruct (do_call T_default fuel t c) as [r t1] eqn:Hcall.
    pose proof (do_call_keeps_packed _ _ _ _ _ Hp (or_introl Hc) Hcall) as [Hp1 _].
    pose proof (do_call_keeps_count _ _ _ _ _ Hp Hc Hcnt Hcall) as Hcnt1.
    destruct r; try discriminate; now apply (IH t1).
Qed.

(** X17: after any sequence of [insert], [find] and [clear] calls on a
    new table, under either policy and whatever each call returned or
    threw, [Count_] is the number of occupied slots, no slot is a
    tombstone and the array has [TableSize_] slots. *)
Theorem count_is_occupied_count (Config : OAHTConfig) (fuel : nat)
    (cs : list (call T)) t :
  forallb remove_free cs = true ->
  run T_default fuel (OAHashTable_new T_default Config) cs = Some t ->
  Count_ (mStats t) = occupied_count (mTable t) /\
  no_tombstone (mTable t) /\
  length (mTable t) = Z.to_nat (TableSize_ (mStats t)).
Proof.
  intros Hfree H.
  apply run_counted in H as [(Hl & Hr & Hn) Hcnt];
    [auto | assumption | apply packed_new |].
  cbn [OAHashTable_new mStats mTable Count_].
  rewrite occupied_count_keys, keys_of_replicate_fresh. reflexivity.
Qed.

(** Without tombstones the deletion policy is not consulted. *)
Lemma InsertInTable_policy (pol : OAHTDeletionPolicy) (Config : OAHTConfig)
    (fuel : nat) tb (m : Z) k (v : T) (p : Z) :
  no_tombstone tb ->
  InsertInTable (with_policy pol Config) fuel tb m k v p
  = InsertInTable Config fuel tb m k v p.
Proof.
  intros Hnt. unfold InsertInTable.
  change (start_of (with_policy pol Config) k m) with (start_of Config k m).
  change (stride_of (with_policy pol Config) k m) with (stride_of Config k m).
  destruct (InsertInTable_loop _ _ _ _ _ _ _) as [[i | e | |] p1]; try reflexivity.
  destruct (slot_at tb i) as [s |] eqn:Hs; [| reflexivity].
  pose proof (no_tombstone_slot _ _ _ Hnt Hs) as Hd.
  cbn [DeletionPolicy_ with_policy].
  destruct (State s); [| | congruence]; destruct pol, (DeletionPolicy_ Config); reflexivity.
Qed.

Lemma GrowTable_loop_policy (pol : OAHTDeletionPolicy) (Config : OAHTConfig)
    (fuel : nat) (old : list (OAHTSlot T)) (m' : Z) :
  forall (idxs : list nat) (nt : list (OAHTSlot T)) (p : Z),
    no_tombstone nt ->
    GrowTable_loop (with_policy pol Config) fuel old idxs nt m' p
    = GrowTable_loop Config fuel old idxs nt m' p.
Proof.
  induction idxs as [| i rest IH]; intros nt p Hnt; [reflexivity |].
  cbn [GrowTable_loop]. destruct (old !! i) as [s |]; [| reflexivity].
  destruct (State s); try (now apply IH).
  rewrite InsertInTable_policy by assumption.
  destruct (InsertInTable Config fuel nt m' (Key s) (Data s) p)
    as [[nt1 | e | |] p1] eqn:Hins; try reflexivity.
  apply IH. apply InsertInTable_Done_contents in Hins as (_ & _ & H). auto.
Qed.

Lemma GrowTable_policy (pol : OAHTDeletionPolicy) (fuel : nat) t :
  GrowTable T_default fuel (repolicy pol t)
  = (fst (GrowTable T_default fuel t), repolicy pol (snd (GrowTable T_default fuel t))).
Proof.
  unfold GrowTable. cbn [repolicy mStats mConfig mTable freed GrowthFactor_ with_policy].
  destruct (_ || _); [reflexivity |].
  rewrite GrowTable_loop_policy by (apply Forall_replicate; simpl; congruence).
  destruct (GrowTable_loop _ _ _ _ _ _ _) as [[nt | e | |] p]; reflexivity.
Qed.

Lemma insert_policy (pol : OAHTDeletionPolicy) (fuel : nat) t k (v : T) :
  packed t ->
  insert T_default fuel (repolicy pol t) k v
  = (fst (insert T_default fuel t k v), repolicy pol (snd (insert T_default fuel t k v))).
Proof.
  intros Hp. unfold insert.
  change (mStats (repolicy pol t)) with (mStats t).
  change (MaxLoadFactor_ (mConfig (repolicy pol t))) with (MaxLoadFactor_ (mConfig t)).
  assert (Hgoal : forall tg, no_tombstone (mTable tg) ->
    match InsertInTable (mConfig (repolicy pol tg)) fuel (mTable (repolicy pol tg))
            (TableSize_ (mStats (repolicy pol tg))) k v
            (Probes_ (mStats (repolicy pol tg))) with
    | (Done table', probes) =>
        (Done tt,
         mkTable table' (mConfig (repolicy pol tg))
           (mkStats (u32 (Count_ (mStats (repolicy pol tg)) + 1))
              (TableSize_ (mStats (repolicy pol tg))) probes
              (Expansions_ (mStats (repolicy pol tg)))) (freed (repolicy pol tg)))
    | (Throw e, probes) => (Throw e, with_probes probes (repolicy pol tg))
    | (Fault, probes) => (Fault, with_probes probes (repolicy pol tg))
    | (Timeout, probes) => (Timeout, with_probes probes (repolicy pol tg))
    end
    = (fst match InsertInTable (mConfig tg) fuel (mTable tg) (TableSize_ (mStats tg)) k v
                   (Probes_ (mStats tg)) with
           | (Done table', probes) =>
               (Done tt,
                mkTable table' (mConfig tg)
                  (mkStats (u32 (Count_ (mStats tg) + 1)) (TableSize_ (mStats tg)) probes
                     (Expansions_ (mStats tg))) (freed tg))
           | (Throw e, probes) => (Throw e, with_probes probes tg)
           | (Fault, probes) => (Fault, with_probes probes tg)
           | (Timeout, probes) => (Timeout, with_probes probes tg)
           end,
       repolicy pol
         (snd match InsertInTable (mConfig tg) fuel (mTable tg) (TableSize_ (mStats tg)) k v
                      (Probes_ (mStats tg)) with
              | (Done table', probes) =>
                  (Done tt,
                   mkTable table' (mConfig tg)
                     (mkStats (u32 (Count_ (mStats tg) + 1)) (TableSize_ (mStats tg)) probes
                        (Expansions_ (mStats tg))) (freed tg))
              | (Throw e, probes) => (Throw e, with_probes probes tg)
              | (Fault, probes) => (Fault, with_probes probes tg)
              | (Timeout, probes) => (Timeout, with_probes probes tg)
              end))).
  { intros tg Hn. cbn [repolicy mConfig mTable mStats freed].
    rewrite InsertInTable_policy by assumption.
    destruct (InsertInTable _ _ _ _ _ _ _) as [[tb' | e | |] p']; reflexivity. }
  destruct (loadFactor_exceeds _ _ _).
  - rewrite GrowTable_policy.
    destruct (GrowTable T_default fuel t) as [rg tg] eqn:Hg. cbn [fst snd].
    destruct rg as [[] | e | |]; try reflexivity.
    apply Hgoal. apply GrowTable_Done in Hg as (_ & Hnt & _); [assumption | apply Hp].
  - apply Hgoal. apply Hp.
Qed.

Lemma find_policy (pol : OAHTDeletionPolicy) (fuel : nat) t k :
  find fuel (repolicy pol t) k
  = (fst (find fuel t k), repolicy pol (snd (find fuel t k))).
Proof.
  unfold find, IndexOf. cbn [repolicy mTable mStats mConfig].
  change (start_of (with_policy pol (mConfig t)) k (TableSize_ (mStats t)))
    with (start_of (mConfig t) k (TableSize_ (mStats t))).
  change (stride_of (with_policy pol (mConfig t)) k (TableSize_ (mStats t)))
    with (stride_of (mConfig t) k (TableSize_ (mStats t))).
  destruct (slot_at (mTable t) _) as [s |]; [| reflexivity].
  destruct (IndexOf_loop _ _ _ _ _ _ _ _) as [[[index slot] | e | |] p1]; try reflexivity.
  destruct (index =? -1); [reflexivity |].
  change (mTable (with_probes p1 (repolicy pol t))) with (mTable t).
  change (mTable (with_probes p1 t)) with (mTable t).
  destruct (slot ≫= slot_at (mTable t)); reflexivity.
Qed.

Lemma clear_loop_policy (pol : OAHTDeletionPolicy) (idxs : list nat) :
  forall t,
    clear_loop (repolicy pol t) idxs
    = (fst (clear_loop t idxs), repolicy pol (snd (clear_loop t idxs))).
Proof.
  induction idxs as [| i rest IH]; intros t; [reflexivity |].
  cbn [clear_loop]. unfold clear_slot. cbn [repolicy mTable mStats mConfig freed].
  destruct (mTable t !! i) as [s |]; [| reflexivity].
  cbn [FreeProc_ with_policy].
  destruct (State s); try apply IH.
  - apply (IH (mkTable (<[i := set_State s UNOCCUPIED]> (mTable t)) (mConfig t)
                 (set_Count (u32 (Count_ (mStats t) - 1)) (mStats t))
                 (if FreeProc_ (mConfig t) then Data s :: freed t else freed t))).
  - apply (IH (mkTable (<[i := set_State s UNOCCUPIED]> (mTable t)) (mConfig t)
                 (mStats t)
                 (if FreeProc_ (mConfig t) then Data s :: freed t else freed t))).
Qed.

Lemma do_call_policy (pol : OAHTDeletionPolicy) (fuel : nat) t (c : call T) :
  packed t -> remove_free c = true ->
  do_call T_default fuel (repolicy pol t) c
  = (fst (do_call T_default fuel t c), repolicy pol (snd (do_call T_default fuel t c))).
Proof.
  intros Hp Hc. destruct c as [k v | k | k |]; cbn [do_call].
  - now apply insert_policy.
  - discriminate.
  - rewrite find_policy. destruct (find fuel t k) as [[] t1]; reflexivity.
  - unfold clear. apply clear_loop_policy.
Qed.

(** X18: the deletion policy matters to [remove] only.  On a table
    without tombstones, a sequence of [insert], [find] and [clear] calls
    leaves the same slots, statistics and released values under MARK as
    under PACK, and ends in undefined behaviour or fails to end under
    the one exactly when it does under the other. *)
Theorem policy_matters_to_remove_only (pol : OAHTDeletionPolicy) (fuel : nat)
    (cs : list (call T)) t :
  packed t -> forallb remove_free cs = true ->
  run T_default fuel (repolicy pol t) cs
  = repolicy pol <$> run T_default fuel t cs.
Proof.
  revert t. induction cs as [| c cs IH]; intros t Hp Hfree; [reflexivity |].
  cbn [forallb] in Hfree. apply andb_prop in Hfree as [Hc Hfree].
  cbn [run]. rewrite do_call_policy by assumption.
  destruct (do_call T_default fuel t c) as [r t1] eqn:Hcall. cbn [fst snd].
  pose proof (do_call_keeps_packed _ _ _ _ _ Hp (or_introl Hc) Hcall) as [Hp1 _].
  destruct r; try reflexivity; now apply IH.
Qed.

End Runs.

(** ** Tables built without remove are finite maps *)

Section Reach.

Context {T : Type} (T_default : T).
Implicit Types (t : OAHashTable T) (tb : list (OAHTSlot T)) (s : OAHTSlot T) (k : string).

Lemma probe_index_add (m st h : Z) (a c : nat) :
  probe_index m st h (a + c) = probe_index m st (probe_index m st h a) c.
Proof.
  induction c as [| c IH]; [now rewrite Nat.add_0_r |].
  rewrite Nat.add_succ_r. cbn [probe_index]. now rewrite IH.
Qed.

(** The indices of a walk up to the slot that holds the key are
    pairwise distinct. *)
Lemma path_distinct tb m st h (n : nat) k s :
  slot_at tb (probe_index m st h n) = Some s -> Key s = k ->
  (forall j : nat, (j < n)%nat ->
     exists sj, slot_at tb (probe_index m st h j) = Some sj /\
                State sj = OCCUPIED /\ Key sj <> k) ->
  forall a b : nat, (a < b)%nat -> (b <= n)%nat ->
    probe_index m st h a <> probe_index m st h b.
Proof.
  intros Hs Hk Hpath a b Hab Hbn Heq.
  assert (Hper : probe_index m st (probe_index m st h a) (b - a) = probe_index m st h a).
  { rewrite <- probe_index_add. replace (a + (b - a))%nat with b by lia. now symmetry. }
  destruct (probe_index_cycle_mod m st (probe_index m st h a) (b - a)) with (n := (n - a)%nat)
    as (r & Hr & Hn); [lia | exact Hper |].
  rewrite <- !probe_index_add in Hn. replace (a + (n - a))%nat with n in Hn by lia.
  destruct (Hpath (a + r)%nat) as (sj & Hsj & _ & Hkj); [lia |].
  rewrite Hn, Hsj in Hs. injection Hs as <-. contradiction.
Qed.

Lemma path_short tb m st h (n : nat) k s :
  slot_at tb (probe_index m st h n) = Some s -> Key s = k ->
  (forall j : nat, (j < n)%nat ->
     exists sj, slot_at tb (probe_index m st h j) = Some sj /\
                State sj = OCCUPIED /\ Key sj <> k) ->
  (n < length tb)%nat.
Proof.
  intros Hs Hk Hpath.
  pose proof (path_distinct tb m st h n k s Hs Hk Hpath) as Hd.
  assert (Hnd : NoDup (probe_index m st h <$> seq 0 (S n))).
  { apply NoDup_fmap_2_strong; [| apply NoDup_seq].
    intros a b Ha Hb Heq. apply elem_of_seq in Ha, Hb.
    destruct (Nat.lt_trichotomy a b) as [Hlt | [-> | Hgt]]; [| reflexivity |].
    - exfalso. apply (Hd a b); [assumption | lia | assumption].
    - exfalso. apply (Hd b a); [assumption | lia | now symmetry]. }
  assert (Hsub : probe_index m st h <$> seq 0 (S n) ⊆+ Z.of_nat <$> seq 0 (length tb)).
  { apply NoDup_submseteq; [exact Hnd |].
    intros x Hx. apply list_elem_of_fmap in Hx as (j & -> & Hj). apply elem_of_seq in Hj.
    assert (Hr : 0 <= probe_index m st h j < Z.of_nat (length tb)).
    { destruct (Nat.eq_dec j n) as [-> | Hne].
      - eapply slot_at_Some_range; eauto.
      - destruct (Hpath j) as (sj & Hsj & _); [lia |]. eapply slot_at_Some_range; eauto. }
    apply list_elem_of_fmap. exists (Z.to_nat (probe_index m st h j)).
    split; [lia |]. apply elem_of_seq. lia. }
  apply submseteq_length in Hsub. rewrite !length_fmap, !length_seq in Hsub. lia.
Qed.

(** The walk of [IndexOf] along such a path ends at the slot of the key. *)
Lemma IndexOf_loop_meets tb m k st h (n : nat) s :
  slot_at tb (probe_index m st h n) = Some s -> State s = OCCUPIED -> Key s = k ->
  (forall j : nat, (j < n)%nat ->
     exists sj, slot_at tb (probe_index m st h j) = Some sj /\
                State sj = OCCUPIED /\ Key sj <> k) ->
  forall (fuel j : nat) (p : Z),
    (j <= n)%nat -> (n - j < fuel)%nat ->
    exists p',
      IndexOf_loop fuel tb m k st h (probe_index m st h j) p
      = (Done (to_int (probe_index m st h n), Some (probe_index m st h n)), p').
Proof.
  intros Hs Hocc Hk Hpath.
  pose proof (path_distinct tb m st h n k s Hs Hk Hpath) as Hd.
  induction fuel as [| fuel IH]; intros j p Hj Hfuel; [lia |].
  cbn [IndexOf_loop].
  destruct (Nat.eq_dec j n) as [-> | Hne].
  - rewrite Hs, Hocc. apply String.eqb_eq in Hk. rewrite Hk. eauto.
  - destruct (Hpath j) as (sj & Hsj & Hoj & Hkj); [lia |].
    rewrite Hsj, Hoj. apply String.eqb_neq in Hkj. rewrite Hkj.
    change (advance (probe_index m st h j) st m) with (probe_index m st h (S j)).
    assert (Hnext : exists s2, slot_at tb (probe_index m st h (S j)) = Some s2).
    { destruct (Nat.eq_dec (S j) n) as [<- | Hn2]; [eauto |].
      destruct (Hpath (S j)) as (s2 & Hs2 & _); [lia | eauto]. }
    destruct Hnext as [s2 Hs2]. rewrite Hs2.
    assert (Hb : probe_index m st h (S j) <> h).
    { intros Heq. apply (Hd 0%nat (S j)); [lia | lia |]. now rewrite Heq. }
    apply Z.eqb_neq in Hb. rewrite Hb.
    apply IH; lia.
Qed.

Lemma entries_of_elem tb k (v : T) :
  (k, v) ∈ entries_of tb ->
  exists (i : Z) s, slot_at tb i = Some s /\ State s = OCCUPIED /\ Key s = k /\ Data s = v.
Proof.
  unfold entries_of. intros H. apply list_elem_of_fmap in H as (s & Heq & Hin).
  apply list_elem_of_filter in Hin as [Ho Hin]. apply occupied_true in Ho.
  apply list_elem_of_lookup_1 in Hin as [i Hi].
  exists (Z.of_nat i), s. rewrite slot_at_lookup by lia. rewrite Nat2Z.id.
  injection Heq as -> ->. auto.
Qed.

Lemma keys_of_elem tb k :
  k ∈ keys_of tb ->
  exists (i : Z) s, slot_at tb i = Some s /\ State s = OCCUPIED /\ Key s = k.
Proof.
  rewrite keys_of_entries. intros H. apply list_elem_of_fmap in H as ([k0 v] & -> & Hin).
  apply entries_of_elem in Hin as (i & s & ? & ? & ? & _). eauto.
Qed.

(** In a table laid out as its lookups expect, [find] returns the value
    held for a key that is present. *)
Lemma find_present (fuel : nat) t k (v : T) :
  reachable (mConfig t) (TableSize_ (mStats t)) (mTable t) ->
  Z.of_nat (length (mTable t)) < UINT_MOD ->
  (k, v) ∈ entries_of (mTable t) ->
  (length (mTable t) < fuel)%nat ->
  fst (find fuel t k) = Done v.
Proof.
  intros Hreach Hlen Hin Hfuel.
  apply entries_of_elem in Hin as (i & s & Hs & Hocc & Hk & Hv).
  destruct (Hreach i s Hs Hocc) as (n & Hn & Hpath). rewrite Hk in Hn, Hpath.
  set (m := TableSize_ (mStats t)) in *.
  set (st := stride_of (mConfig t) k m) in *.
  set (h := start_of (mConfig t) k m) in *.
  rewrite <- Hn in Hs.
  pose proof (path_short _ _ _ _ _ _ _ Hs Hk Hpath) as Hshort.
  pose proof (slot_at_Some_range _ _ _ Hs) as Hri.
  unfold find, IndexOf. fold m st h.
  assert (Hstart : exists sh, slot_at (mTable t) h = Some sh).
  { destruct n as [| n0]; [cbn [probe_index] in Hs; eauto |].
    destruct (Hpath 0%nat) as (s0 & Hs0 & _); [lia |]. cbn [probe_index] in Hs0. eauto. }
  destruct Hstart as [sh Hsh]. rewrite Hsh.
  destruct (IndexOf_loop_meets (mTable t) m k st h n s Hs Hocc Hk Hpath fuel 0%nat
              (probe_if_unoccupied sh (Probes_ (mStats t)))) as [p2 Hloop]; [lia | lia |].
  cbn [probe_index] in Hloop. rewrite Hloop.
  assert (Hint : to_int (probe_index m st h n) <> -1).
  { unfold to_int. rewrite u32_small by lia.
    destruct (probe_index m st h n <? 2 ^ 31); unfold UINT_MOD in *; lia. }
  apply Z.eqb_neq in Hint. rewrite Hint.
  cbn [mbind option_bind with_probes with_stats mTable].
  rewrite Hs. cbn [fst]. now rewrite Hv.
Qed.

Lemma reachable_fresh (Config : OAHTConfig) (m : Z) (n : nat) :
  reachable Config m (replicate n (fresh_slot T_default)).
Proof.
  intros i s Hs Ho. pose proof (slot_at_Some_range _ _ _ Hs) as Hr.
  rewrite slot_at_lookup in Hs by lia. apply lookup_replicate in Hs as [-> _].
  discriminate.
Qed.

(** [InsertInTable] returns for a key that is not present only, and
    keeps the layout. *)
Lemma reachable_insert (Config : OAHTConfig) (fuel : nat) tb m k (v : T) (p : Z)
    (tb' : list (OAHTSlot T)) (p' : Z) :
  reachable Config m tb ->
  InsertInTable Config fuel tb m k v p = (Done tb', p') ->
  reachable Config m tb' /\ k ∉ keys_of tb.
Proof.
  intros Hreach H.
  apply InsertInTable_Done in H as (n & s0 & _ & Hs0 & Hst0 & Hpath & ->). cbv zeta in *.
  set (st := stride_of Config k m) in *. set (h := start_of Config k m) in *.
  set (i0 := probe_index m st h n) in *.
  pose proof (slot_at_Some_range _ _ _ Hs0) as Hr0.
  assert (Hkeep : forall (i : Z) s, slot_at tb i = Some s -> State s = OCCUPIED ->
            slot_at (store_at tb i0 (mkSlot k v OCCUPIED)) i = Some s).
  { intros i s Hs Ho. pose proof (slot_at_Some_range _ _ _ Hs) as Hr.
    rewrite slot_at_store_ne; [assumption | lia | lia |].
    intros ->. rewrite Hs0 in Hs. injection Hs as <-. contradiction. }
  split.
  - intros i s Hs Ho.
    destruct (Z.eq_dec i i0) as [-> | Hne].
    + rewrite slot_at_store_eq in Hs by assumption. injection Hs as <-. cbn [Key].
      exists n. split; [reflexivity |]. intros j Hj.
      destruct (Hpath j Hj) as (sj & Hsj & Hoj & Hkj). exists sj. auto.
    + pose proof (slot_at_Some_range _ _ _ Hs) as Hr. rewrite length_store_at in Hr.
      rewrite slot_at_store_ne in Hs by lia.
      destruct (Hreach i s Hs Ho) as (n1 & Hn1 & Hp1).
      exists n1. split; [assumption |]. intros j Hj.
      destruct (Hp1 j Hj) as (sj & Hsj & Hoj & Hkj). exists sj. auto.
  - intros Hin. apply keys_of_elem in Hin as (i & s & Hs & Ho & Hk).
    destruct (Hreach i s Hs Ho) as (n1 & Hn1 & Hp1). rewrite Hk in Hn1, Hp1.
    fold st h in Hn1, Hp1.
    destruct (Nat.lt_trichotomy n1 n) as [Hlt | [-> | Hgt]].
    + destruct (Hpath n1 Hlt) as (sj & Hsj & _ & Hkj).
      rewrite Hn1, Hs in Hsj. injection Hsj as <-. contradiction.
    + fold i0 in Hn1. rewrite <- Hn1, Hs0 in Hs. injection Hs as <-. contradiction.
    + destruct (Hp1 n Hgt) as (sj & Hsj & Hoj & _).
      fold i0 in Hsj. rewrite Hs0 in Hsj. injection Hsj as <-. contradiction.
Qed.

Lemma NoDup_keys_insert (Config : OAHTConfig) (fuel : nat) tb m k (v : T) (p : Z)
    (tb' : list (OAHTSlot T)) (p' : Z) :
  reachable Config m tb -> NoDup (keys_of tb) ->
  InsertInTable Config fuel tb m k v p = (Done tb', p') ->
  reachable Config m tb' /\ NoDup (keys_of tb').
Proof.
  intros Hreach Hnd H.
  pose proof (reachable_insert _ _ _ _ _ _ _ _ _ Hreach H) as [Hreach' Hnot].
  split; [exact Hreach' |].
  apply InsertInTable_Done_contents in H as (Hperm & _ & _).
  rewrite keys_of_entries, Hperm. cbn [map fst]. rewrite <- keys_of_entries.
  apply NoDup_cons. auto.
Qed.

Lemma GrowTable_loop_mapped (Config : OAHTConfig) (fuel : nat)
    (old : list (OAHTSlot T)) (m' : Z) :
  forall (idxs : list nat) (nt : list (OAHTSlot T)) (p : Z)
         (nt' : list (OAHTSlot T)) (p' : Z),
    reachable Config m' nt -> NoDup (keys_of nt) ->
    GrowTable_loop Config fuel old idxs nt m' p = (Done nt', p') ->
    reachable Config m' nt' /\ NoDup (keys_of nt').
Proof.
  induction idxs as [| i rest IH]; intros nt p nt' p' Hreach Hnd H;
    cbn [GrowTable_loop] in H.
  - injection H as <- <-. auto.
  - destruct (old !! i) as [s |]; [| discriminate].
    destruct (State s); try (eapply IH; eauto; fail).
    destruct (InsertInTable Config fuel nt m' (Key s) (Data s) p)
      as [[nt1 | e | |] p1] eqn:Hins; try discriminate.
    apply NoDup_keys_insert in Hins as [Hreach1 Hnd1]; [| assumption | assumption].
    eapply IH; eauto.
Qed.

Lemma GrowTable_mapped (fuel : nat) t t' :
  GrowTable T_default fuel t = (Done tt, t') -> mapped t'.
Proof.
  unfold GrowTable. intros H.
  destruct (_ || _); [discriminate |].
  destruct (GrowTable_loop _ _ _ _ _ _ _) as [[nt | e | |] p] eqn:Hloop; try discriminate.
  injection H as <-. unfold mapped. cbn [mTable mStats mConfig TableSize_].
  apply GrowTable_loop_mapped in Hloop; [exact Hloop | apply reachable_fresh |].
  rewrite keys_of_replicate_fresh. constructor.
Qed.

Lemma mapped_same t t' : same_but_probes t t' -> mapped t -> mapped t'.
Proof.
  intros (Htb & Hcfg & _ & _ & Hsz & _) [Hr Hn]. unfold mapped.
  rewrite Htb, Hcfg, Hsz. auto.
Qed.

(** [insert] keeps the layout whatever its outcome, and returns only
    when the key was not present. *)
Lemma insert_keeps_mapped (fuel : nat) t k (v : T) (r : outcome unit) t' :
  packed t -> mapped t -> insert T_default fuel t k v = (r, t') ->
  mapped t' /\ (r = Done tt -> k ∉ keys_of (mTable t)).
Proof.
  intros Hp Hm H. unfold insert in H.
  assert (Hgoal : forall tg,
    mapped tg -> keys_of (mTable tg) ≡ₚ keys_of (mTable t) ->
    match InsertInTable (mConfig tg) fuel (mTable tg) (TableSize_ (mStats tg)) k v
            (Probes_ (mStats tg)) with
    | (Done table', probes) =>
        (Done tt,
         mkTable table' (mConfig tg)
           (mkStats (u32 (Count_ (mStats tg) + 1)) (TableSize_ (mStats tg)) probes
              (Expansions_ (mStats tg))) (freed tg))
    | (Throw e, probes) => (Throw e, with_probes probes tg)
    | (Fault, probes) => (Fault, with_probes probes tg)
    | (Timeout, probes) => (Timeout, with_probes probes tg)
    end = (r, t') ->
    mapped t' /\ (r = Done tt -> k ∉ keys_of (mTable t))).
  { intros tg [Hrg Hng] Hperm H'.
    destruct (InsertInTable _ _ _ _ _ _ _) as [[tb' | e | |] p'] eqn:Hins;
      injection H' as <- <-.
    2-4: split; [apply (mapped_same tg); [apply same_but_probes_with_probes | split; assumption]
                | discriminate].
    pose proof (reachable_insert _ _ _ _ _ _ _ _ _ Hrg Hins) as [_ Hnot].
    apply NoDup_keys_insert in Hins as [Hr' Hn']; [| assumption | assumption].
    split; [split; assumption |]. intros _. now rewrite <- Hperm. }
  destruct (loadFactor_exceeds _ _ _).
  - destruct (GrowTable T_default fuel t) as [rg tg] eqn:Hg.
    pose proof (GrowTable_cases T_default fuel t rg tg Hg) as Hc.
    destruct rg as [[] | e | |].
    + apply (Hgoal tg); [now apply (GrowTable_mapped fuel t) | | assumption].
      apply GrowTable_Done in Hg as (Hperm & _ & _); [| apply Hp].
      rewrite !keys_of_entries. now apply fmap_Permutation.
    + injection H as <- <-. split; [now apply (mapped_same t) | discriminate].
    + injection H as <- <-. split; [now apply (mapped_same t) | discriminate].
    + injection H as <- <-. split; [now apply (mapped_same t) | discriminate].
  - apply (Hgoal t); auto.
Qed.

Lemma clear_keeps_mapped t (r : outcome unit) t' :
  packed t -> clear t = (r, t') -> mapped t'.
Proof.
  intros (Hl & Hr & Hn) H. destruct t as [tb cfg st fr].
  cbn [mTable mStats mConfig] in *. unfold clear in H. cbn [mStats] in H.
  destruct (clear_loop_spec tb [] cfg st fr) as (st' & fr' & Hloop & Hsz & _).
  cbn [app length] in Hloop. rewrite <- Hl, Hloop in H. injection H as <- <-.
  unfold mapped. cbn [mTable mStats mConfig]. rewrite keys_of_unoccupied.
  split; [| constructor].
  intros i s Hs Ho. pose proof (slot_at_Some_range _ _ _ Hs) as Hri.
  rewrite slot_at_lookup in Hs by lia. rewrite list_lookup_fmap in Hs.
  destruct (tb !! Z.to_nat i) as [s0 |]; [| discriminate].
  injection Hs as <-. destruct s0; discriminate.
Qed.

Lemma do_call_keeps_mapped (fuel : nat) t (c : call T) (r : outcome unit) t' :
  packed t -> mapped t -> remove_free c = true ->
  do_call T_default fuel t c = (r, t') -> mapped t'.
Proof.
  intros Hp Hm Hc H. destruct c as [k v | k | k |]; cbn [do_call] in H.
  - now apply insert_keeps_mapped in H as [? _].
  - discriminate.
  - destruct (find fuel t k) as [r1 t1] eqn:Hf. apply find_same in Hf.
    pose proof (mapped_same _ _ Hf Hm). destruct r1; injection H as <- <-; assumption.
  - now apply clear_keeps_mapped in H.
Qed.

Lemma run_mapped (fuel : nat) (cs : list (call T)) :
  forall t t', forallb remove_free cs = true -> packed t -> mapped t ->
    run T_default fuel t cs = Some t' -> packed t' /\ mapped t'.
Proof.
  induction cs as [| c cs IH]; intros t t' Hfree Hp Hm H; cbn [run] in H.
  - injection H as <-. auto.
  - cbn [forallb] in Hfree. apply andb_prop in Hfree as [Hc Hfree].
    destruct (do_call T_default fuel t c) as [r t1] eqn:Hcall.
    pose proof (do_call_keeps_packed _ _ _ _ _ _ Hp (or_introl Hc) Hcall) as [Hp1 _].
    pose proof (do_call_keeps_mapped _ _ _ _ _ Hp Hm Hc Hcall) as Hm1.
    destruct r; try discriminate; now apply (IH t1).
Qed.

(** X19: a table built from a new one by any sequence of [insert],
    [find] and [clear] calls, under either policy, with any hash
    functions and whatever each call returned or threw, is a finite map.
    No key is held twice; [find] returns [v] for [k] exactly when an
    occupied slot holds the pair (given more fuel than there are slots,
    it does return for every key held); and [insert] returns only for a
    key that was not yet held. *)
Theorem remove_free_run_is_map (Config : OAHTConfig) (fuel : nat)
    (cs : list (call T)) t :
  forallb remove_free cs = true ->
  run T_default fuel (OAHashTable_new T_default Config) cs = Some t ->
  NoDup (keys_of (mTable t)) /\
  (forall (fuel' : nat) k (v : T),
     (k, v) ∈ entries_of (mTable t) -> (length (mTable t) < fuel')%nat ->
     fst (find fuel' t k) = Done v) /\
  (forall (fuel' : nat) k (v : T),
     fst (find fuel' t k) = Done v -> (k, v) ∈ entries_of (mTable t)) /\
  (forall (fuel' : nat) k (v : T) t',
     insert T_default fuel' t k v = (Done tt, t') -> k ∉ keys_of (mTable t)).
Proof.
  intros Hfree H.
  apply run_mapped in H as [Hp [Hreach Hnd]]; [| assumption | apply packed_new |].
  2:{ split; [apply reachable_fresh |].
      cbn [OAHashTable_new mTable]. rewrite keys_of_replicate_fresh. constructor. }
  pose proof Hp as (Hl & Hr & Hn).
  split; [exact Hnd |]. split; [| split].
  - intros fuel' k v Hin Hfuel. apply find_present; try assumption. lia.
  - intros fuel' k v Hf.
    destruct (find fuel' t k) as [r t1] eqn:Hfind. cbn [fst] in Hf. subst r.
    apply find_Done_slot in Hfind as (i & s & Hs & <- & <- & Hst).
    apply (entries_of_slot _ i); [assumption |].
    pose proof (no_tombstone_slot _ _ _ Hn Hs). destruct Hst; congruence.
  - intros fuel' k v t' Hins.
    apply insert_keeps_mapped in Hins as [_ Hnot]; [auto | assumption | split; assumption].
Qed.

End Reach.

(** ** PACK with linear probing: the repair loop of remove *)

Section PackedLinear.

Context {T : Type}.
Implicit Types (t : OAHashTable T) (tb : list (OAHTSlot T)) (s : OAHTSlot T) (k : string).

Variable cfg : OAHTConfig.
Variable m : Z.
Hypothesis Hm : 0 < m <= 2 ^ 31.
Hypothesis Hpack : DeletionPolicy_ cfg = PACK.
Hypothesis Hlin : SecondaryHashFunc_ cfg = None.

Lemma stride_linear k : stride_of cfg k m = 1.
Proof. unfold stride_of. now rewrite Hlin. Qed.

Lemma next_index_advance (c : Z) : 0 <= c < m -> next_index c m = advance c 1 m.
Proof.
  intros Hc. unfold next_index, advance. cbv zeta.
  rewrite (u32_small (c + 1)), (u32_small (m - 1)) by (unfold UINT_MOD; lia).
  destruct (Z.gtb_spec (c + 1) (m - 1)); [| reflexivity].
  replace (c + 1 - m) with 0 by lia. reflexivity.
Qed.

Lemma seg_range (i : Z) (e : nat) : 0 <= i < m -> 0 <= probe_index m 1 i e < m.
Proof. intros Hi. apply probe_index_range; lia. Qed.

Lemma seg_inj (i : Z) (a b : nat) :
  0 <= i < m -> a <> b -> Z.of_nat a < m -> Z.of_nat b < m ->
  probe_index m 1 i a <> probe_index m 1 i b.
Proof.
  intros Hi Hab Ha Hb.
  destruct (Nat.lt_trichotomy a b) as [Hlt | [-> | Hgt]]; [| contradiction |].
  - apply probe_index_inj; try lia. apply Z.gcd_1_l.
  - intros Heq. symmetry in Heq. revert Heq.
    apply probe_index_inj; try lia. apply Z.gcd_1_l.
Qed.

(** Two occupied slots hold different keys when no key is held twice. *)
Lemma NoDup_keys_distinct tb (a b : Z) sa sb :
  NoDup (keys_of tb) ->
  slot_at tb a = Some sa -> slot_at tb b = Some sb ->
  State sa = OCCUPIED -> State sb = OCCUPIED -> a <> b -> Key sa <> Key sb.
Proof.
  assert (Hlt : forall (x y : nat) sx sy,
            NoDup (keys_of tb) -> tb !! x = Some sx -> tb !! y = Some sy ->
            State sx = OCCUPIED -> State sy = OCCUPIED -> (x < y)%nat -> Key sx <> Key sy).
  { intros x y sx sy Hnd Hx Hy Hox Hoy Hxy.
    rewrite <- (take_drop_middle tb x sx Hx) in Hnd.
    rewrite keys_of_app, keys_of_cons in Hnd.
    apply occupied_true in Hox. rewrite Hox in Hnd.
    apply NoDup_app in Hnd as (_ & _ & Hnd). apply NoDup_cons in Hnd as [Hnot _].
    intros Heq. apply Hnot. rewrite Heq.
    apply (keys_of_lookup _ (y - S x)%nat); [| assumption].
    rewrite lookup_drop. replace (S x + (y - S x))%nat with y by lia. assumption. }
  intros Hnd Ha Hb Hoa Hob Hab.
  pose proof (slot_at_Some_range _ _ _ Ha) as Hra.
  pose proof (slot_at_Some_range _ _ _ Hb) as Hrb.
  rewrite slot_at_lookup in Ha, Hb by lia.
  destruct (Z.lt_trichotomy a b) as [H | [H | H]]; [| contradiction |].
  - apply (Hlt (Z.to_nat a) (Z.to_nat b)); auto; lia.
  - intros Heq. symmetry in Heq. revert Heq.
    apply (Hlt (Z.to_nat b) (Z.to_nat a)); auto; lia.
Qed.

(** A probe sequence that passes over slot [q] of the cluster after [i]
    ends in the cluster, before its end [L], or passes over the
    unoccupied slot that ends it. *)
Lemma path_through tb (i : Z) (L q eg : nat) (j : Z) s (n d : nat) :
  (q < L)%nat -> (eg < L)%nat -> Z.of_nat L < m -> 0 <= i < m ->
  (exists su, slot_at tb (probe_index m 1 i L) = Some su /\ State su = UNOCCUPIED) ->
  slot_at tb j = Some s -> State s = OCCUPIED ->
  probe_index m (stride_of cfg (Key s) m) (start_of cfg (Key s) m) n = j ->
  (d < n)%nat ->
  probe_index m (stride_of cfg (Key s) m) (start_of cfg (Key s) m) d = probe_index m 1 i q ->
  (forall d' : nat, (d' < n)%nat ->
     (exists sj,
        slot_at tb (probe_index m (stride_of cfg (Key s) m) (start_of cfg (Key s) m) d')
        = Some sj /\ State sj = OCCUPIED) \/
     probe_index m (stride_of cfg (Key s) m) (start_of cfg (Key s) m) d'
     = probe_index m 1 i eg) ->
  exists e : nat, (S q <= e < L)%nat /\ j = probe_index m 1 i e.
Proof.
  intros Hq Heg HL Hi (su & Hsu & Hou) Hs Ho Hn Hd Hc Hpath.
  rewrite stride_linear in *.
  set (h := start_of cfg (Key s) m) in *.
  assert (Hshift : forall x : nat,
            probe_index m 1 h (d + x) = probe_index m 1 i (q + x)).
  { intros x. now rewrite !probe_index_add, Hc. }
  destruct (Nat.lt_ge_cases (q + (n - d)) L) as [Hin | Hout].
  - exists (q + (n - d))%nat. split; [lia |].
    rewrite <- Hshift. replace (d + (n - d))%nat with n by lia. now symmetry.
  - exfalso.
    pose proof (Hshift (L - q)%nat) as Hu.
    replace (q + (L - q))%nat with L in Hu by lia.
    destruct (Nat.eq_dec (d + (L - q))%nat n) as [Heq | Hne].
    + rewrite Heq, Hn in Hu. rewrite Hu, Hsu in Hs. injection Hs as <-. congruence.
    + destruct (Hpath (d + (L - q))%nat) as [(sj & Hsj & Hoj) | Hg]; [lia | |].
      * rewrite Hu, Hsu in Hsj. injection Hsj as <-. congruence.
      * rewrite Hu in Hg. revert Hg. apply seg_inj; [assumption | lia | lia | lia].
Qed.

Lemma store_at_restore tb (c : Z) s :
  slot_at tb c = Some s -> State s = OCCUPIED ->
  store_at (store_at tb c (set_State s UNOCCUPIED)) c (mkSlot (Key s) (Data s) OCCUPIED) = tb.
Proof.
  intros Hs Ho. pose proof (slot_at_Some_range _ _ _ Hs) as Hr.
  rewrite slot_at_lookup in Hs by lia. unfold store_at.
  rewrite list_insert_insert_eq. apply list_insert_id.
  rewrite Hs. destruct s as [k0 v0 st0]. cbn in *. now subst.
Qed.

(** The repair loop, started behind the hole it has to close, with the
    cluster ending at the unoccupied slot [L] steps after [i]: it throws
    nothing, and when it returns the layout is whole again. *)
Lemma remove_loop_repairs (i : Z) (L : nat) :
  0 <= i < m -> Z.of_nat L < m ->
  forall (fuel : nat) t (q eg : nat) (r : outcome unit) t',
    mConfig t = cfg -> TableSize_ (mStats t) = m ->
    no_tombstone (mTable t) -> NoDup (keys_of (mTable t)) ->
    (eg < q)%nat -> (q <= L)%nat ->
    (exists sg, slot_at (mTable t) (probe_index m 1 i eg) = Some sg /\
                State sg = UNOCCUPIED) ->
    (forall e : nat, (e < L)%nat -> e <> eg ->
       exists se, slot_at (mTable t) (probe_index m 1 i e) = Some se /\
                  State se = OCCUPIED) ->
    (exists su, slot_at (mTable t) (probe_index m 1 i L) = Some su /\
                State su = UNOCCUPIED) ->
    reachable_but cfg m (mTable t) (probe_index m 1 i eg)
      (fun j => exists e : nat, (q <= e < L)%nat /\ j = probe_index m 1 i e) ->
    remove_loop fuel t i (probe_index m 1 i q) = (r, t') ->
    (forall e, r <> Throw e) /\ (r = Done tt -> reachable cfg m (mTable t')).
Proof.
  intros Hi HL.
  induction fuel as [| fuel IH];
    intros t q eg r t' Hcfg Hsz Hnt Hnd Heg Hq Hhole Hocc Hend Hreach H.
  { injection H as <- <-. split; [discriminate | discriminate]. }
  cbn [remove_loop] in H.
  destruct (Nat.eq_dec q L) as [-> | HqL].
  { (* the end of the cluster *)
    destruct Hend as (su & Hsu & Hou). rewrite Hsu, Hou in H. cbn in H.
    injection H as <- <-. split; [discriminate |]. intros _.
    intros j s Hs Ho. destruct (Hreach j s Hs Ho) as (n & Hn & Hpath).
    exists n. split; [assumption |]. intros d Hd.
    destruct (Hpath d Hd) as [Hleft | (_ & e & He & _)]; [assumption | lia]. }
  set (c := probe_index m 1 i q) in *.
  assert (Hrc : 0 <= c < m) by (apply seg_range; assumption).
  destruct (Hocc q) as (sc & Hsc & Hoc); [lia | lia |].
  fold c in Hsc. rewrite Hsc, Hoc in H. cbn [OAHTSlot_State_eqb andb] in H.
  assert (Hci : c <> i).
  { change i with (probe_index m 1 i 0). apply seg_inj; [assumption | lia | lia | lia]. }
  apply Z.eqb_neq in Hci. rewrite Hci in H. cbn [negb] in H.
  cbn [with_table mConfig mTable mStats] in H. rewrite Hcfg, Hsz in H.
  destruct Hhole as (sg & Hsg & Hog). destruct Hend as (su & Hsu & Hou).
  set (g := probe_index m 1 i eg) in *. set (u := probe_index m 1 i L) in *.
  assert (Hrg : 0 <= g < m) by (apply seg_range; assumption).
  assert (Hru : 0 <= u < m) by (apply seg_range; assumption).
  assert (Hgc : g <> c) by (apply seg_inj; [assumption | lia | lia | lia]).
  assert (Hug : u <> g) by (apply seg_inj; [assumption | lia | lia | lia]).
  assert (Huc : u <> c) by (apply seg_inj; [assumption | lia | lia | lia]).
  pose proof (slot_at_Some_range _ _ _ Hsc) as Hlc.
  set (tb := mTable t) in *.
  set (tb1 := store_at tb c (set_State sc UNOCCUPIED)) in *.
  assert (Hl1 : length tb1 = length tb) by apply length_store_at.
  assert (Hc1 : slot_at tb1 c = Some (set_State sc UNOCCUPIED))
    by (apply slot_at_store_eq; assumption).
  assert (Hother1 : forall x, 0 <= x -> x <> c -> slot_at tb1 x = slot_at tb x).
  { intros x Hx Hne. apply slot_at_store_ne; lia. }
  destruct (Hreach c sc Hsc Hoc) as (n0 & Hn0 & Hpath0).
  set (kc := Key sc) in *.
  set (P := probe_index m (stride_of cfg kc m) (start_of cfg kc m)) in *.
  destruct (InsertInTable cfg (S fuel) tb1 m kc (Data sc) (Probes_ (mStats t)))
    as [[tb2 | e | |] p] eqn:Hins.
  4:{ injection H as <- <-. split; discriminate. }
  3:{ injection H as <- <-. split; discriminate. }
  2:{ (* the key is not held twice *)
    exfalso. apply InsertInTable_Throw in Hins as (_ & y & sy & Hsy & Hky & Hst).
    destruct Hst as [Hoy | [_ Hmark]]; [| congruence].
    pose proof (slot_at_Some_range _ _ _ Hsy) as Hry.
    assert (Hyc : y <> c).
    { intros ->. rewrite Hc1 in Hsy. injection Hsy as <-. discriminate. }
    rewrite Hother1 in Hsy by lia.
    revert Hky. apply (NoDup_keys_distinct tb y c); assumption. }
  apply InsertInTable_Done in Hins as (n' & s0 & _ & Hs0 & Hst0 & Hpath' & ->).
  cbv zeta in *. fold P in Hs0, Hpath', H.
  pose proof (slot_at_Some_range _ _ _ Hs0) as Hr0. rewrite Hl1 in Hr0.
  rewrite next_index_advance in H by assumption.
  change (advance c 1 m) with (probe_index m 1 i (S q)) in H.
  assert (Hpath1 : forall d : nat, (d < n')%nat ->
            exists sj, slot_at tb (P d) = Some sj /\ State sj = OCCUPIED /\ Key sj <> kc).
  { intros d Hd. destruct (Hpath' d Hd) as (sj & Hsj & Hoj & Hkj).
    pose proof (slot_at_Some_range _ _ _ Hsj) as Hrj.
    exists sj. rewrite <- Hother1; [auto | lia |].
    intros Heq. rewrite Heq, Hc1 in Hsj. injection Hsj as <-. discriminate. }
  destruct (Z.eq_dec (P n') c) as [Hland | Hland].
  - (* the key would go back to its slot: the copy onto itself *)
    assert (Hcopy : copied_onto_itself
                      (store_at tb1 (P n') (mkSlot kc (Data sc) OCCUPIED)) c = true).
    { unfold copied_onto_itself. rewrite Hland, slot_at_store_eq by lia. reflexivity. }
    rewrite Hcopy in H. injection H as <- <-. split; discriminate.
  - (* the key closes the hole, its slot is the hole now *)
    assert (Hs0' : slot_at tb (P n') = Some s0) by (rewrite <- Hother1; [assumption | lia | assumption]).
    assert (HPg : P n' = g).
    { destruct (Nat.lt_trichotomy n' n0) as [Hlt | [Heq | Hgt]].
      - destruct (Hpath0 n' Hlt) as [(sj & Hsj & Hoj & _) | [Hg _]]; [| exact Hg].
        fold P in Hsj. rewrite Hs0' in Hsj. injection Hsj as <-. contradiction.
      - subst n'. contradiction.
      - destruct (Hpath' n0 Hgt) as (sj & Hsj & Hoj & _).
        rewrite Hn0, Hc1 in Hsj. injection Hsj as <-. discriminate. }
    rewrite HPg in *.
    set (tb2 := store_at tb1 g (mkSlot kc (Data sc) OCCUPIED)) in *.
    assert (Hg2 : slot_at tb2 g = Some (mkSlot kc (Data sc) OCCUPIED))
      by (apply slot_at_store_eq; lia).
    assert (Hc2 : slot_at tb2 c = Some (set_State sc UNOCCUPIED)).
    { unfold tb2. rewrite slot_at_store_ne by lia. assumption. }
    assert (Hother2 : forall x, 0 <= x -> x <> c -> x <> g -> slot_at tb2 x = slot_at tb x).
    { intros x Hx Hxc Hxg. unfold tb2. rewrite slot_at_store_ne by lia. now apply Hother1. }
    assert (Hnt2 : no_tombstone tb2).
    { apply no_tombstone_store; [apply no_tombstone_store |]; try assumption;
        simpl; congruence. }
    assert (Hcopy : copied_onto_itself tb2 c = false).
    { unfold copied_onto_itself. rewrite Hc2. reflexivity. }
    rewrite Hcopy in H.
    assert (Hnd2 : NoDup (keys_of tb2)).
    { assert (Hv : entries_of tb ≡ₚ (kc, Data sc) :: entries_of tb1)
        by (apply entries_of_vacate; [assumption | assumption | discriminate]).
      assert (Hw : entries_of tb2 ≡ₚ (kc, Data sc) :: entries_of tb1).
      { apply (entries_of_store _ _ s0); [| assumption].
        rewrite Hother1 by lia. assumption. }
      rewrite keys_of_entries, Hw, <- Hv, <- keys_of_entries. assumption. }
    apply (IH _ (S q) q) in H; try assumption; try lia.
    + exists (set_State sc UNOCCUPIED). split; [assumption | reflexivity].
    + intros e He Hne. cbn [with_probes with_table with_stats mTable].
      destruct (Nat.eq_dec e eg) as [-> | Hneg].
      * fold g. eauto.
      * destruct (Hocc e He Hneg) as (se & Hse & Hoe).
        exists se. split; [| assumption].
        pose proof (seg_range i e Hi) as Hre.
        rewrite Hother2; [assumption | lia | |].
        -- apply seg_inj; [assumption | lia | lia | lia].
        -- apply seg_inj; [assumption | lia | lia | lia].
    + exists su. split; [| assumption].
      cbn [with_probes with_table with_stats mTable]. fold u.
      rewrite Hother2; [assumption | lia | assumption | assumption].
    + intros j s Hs Ho. cbn [with_probes with_table with_stats mTable] in Hs.
      pose proof (slot_at_Some_range _ _ _ Hs) as Hrj.
      destruct (Z.eq_dec j g) as [-> | Hjg].
      * rewrite Hg2 in Hs. injection Hs as <-. cbn [Key]. fold P.
        exists n'. split; [assumption |]. intros d Hd. left.
        destruct (Hpath1 d Hd) as (sj & Hsj & Hoj & Hkj).
        pose proof (slot_at_Some_range _ _ _ Hsj) as Hrd.
        exists sj. split; [| auto].
        rewrite Hother2; [assumption | lia | |].
        -- intros Heq. rewrite Heq, Hsc in Hsj. injection Hsj as <-.
           destruct (Hpath' d Hd) as (sj' & Hsj' & Hoj' & _).
           rewrite Heq, Hc1 in Hsj'. injection Hsj' as <-. discriminate.
        -- intros Heq. rewrite Heq, Hsg in Hsj. injection Hsj as <-. congruence.
      * destruct (Z.eq_dec j c) as [-> | Hjc].
        { rewrite Hc2 in Hs. injection Hs as <-. discriminate. }
        rewrite Hother2 in Hs by lia.
        destruct (Hreach j s Hs Ho) as (n & Hn & Hpath).
        exists n. split; [assumption |]. intros d Hd.
        destruct (Hpath d Hd) as [(sj & Hsj & Hoj & Hkj) | (Hg & e & He & Hje)].
        -- pose proof (slot_at_Some_range _ _ _ Hsj) as Hrd.
           destruct (Z.eq_dec
                       (probe_index m (stride_of cfg (Key s) m) (start_of cfg (Key s) m) d) c)
             as [Hxc | Hxc].
           ++ right. split; [exact Hxc |].
              apply (path_through tb i L q eg j s n d); try assumption; try lia.
              ** exists su. auto.
              ** intros d' Hd'.
                 destruct (Hpath d' Hd') as [(sj' & Hsj' & Hoj' & _) | [Hg' _]];
                   [left; eauto | right; exact Hg'].
           ++ left. exists sj. split; [| auto].
              rewrite Hother2; [assumption | lia | assumption |].
              intros Heq. rewrite Heq, Hsg in Hsj. injection Hsj as <-. congruence.
        -- left. exists (mkSlot kc (Data sc) OCCUPIED).
           rewrite Hg. split; [assumption |]. split; [reflexivity |]. cbn [Key].
           apply (NoDup_keys_distinct tb c j); assumption || (intros ->; contradiction) || auto.
Qed.

Lemma not_full_hole tb :
  occupied_count tb < Z.of_nat (length tb) ->
  exists (y : nat) s, tb !! y = Some s /\ State s <> OCCUPIED.
Proof.
  induction tb as [| s tb IH]; intros H.
  - rewrite occupied_count_keys in H. cbn in H. lia.
  - destruct (occupied s) eqn:E.
    + rewrite occupied_count_keys, keys_of_cons, E in H. cbn [length] in H.
      destruct IH as (y & s' & Hy & Hs'); [rewrite occupied_count_keys; lia |].
      exists (S y), s'. auto.
    + exists 0%nat, s. split; [reflexivity |].
      intros Ho. apply occupied_true in Ho. congruence.
Qed.

(** In a table that is not full the cluster after an occupied slot [i]
    ends at an unoccupied slot. *)
Lemma next_hole tb (i : Z) :
  length tb = Z.to_nat m -> no_tombstone tb -> occupied_count tb < m ->
  (exists si, slot_at tb i = Some si /\ State si = OCCUPIED) ->
  exists L : nat,
    (0 < L)%nat /\ Z.of_nat L < m /\
    (exists su, slot_at tb (probe_index m 1 i L) = Some su /\ State su = UNOCCUPIED) /\
    forall e : nat, (0 < e < L)%nat ->
      exists se, slot_at tb (probe_index m 1 i e) = Some se /\ State se = OCCUPIED.
Proof.
  intros Hlen Hnt Hroom (si & Hsi & Hoi).
  pose proof (slot_at_Some_range _ _ _ Hsi) as Hi.
  assert (Hi' : 0 <= i < m) by lia.
  destruct (not_full_hole tb) as (y & sy & Hy & Hoy); [lia |].
  assert (Hry : 0 <= Z.of_nat y < m) by (apply lookup_lt_Some in Hy; lia).
  destruct (probe_index_onto m 1 i (Z.of_nat y)) as (e0 & He0 & Hseg);
    [lia | lia | lia | apply Z.gcd_1_l | lia |].
  assert (Hsy : slot_at tb (probe_index m 1 i e0) = Some sy).
  { rewrite Hseg, slot_at_lookup by lia. now rewrite Nat2Z.id. }
  assert (Huy : State sy = UNOCCUPIED).
  { pose proof (no_tombstone_slot _ _ _ Hnt Hsy). destruct (State sy); congruence. }
  assert (Hsearch : forall b : nat, (b <= e0)%nat ->
            (forall e : nat, (0 < e < b)%nat ->
               exists se, slot_at tb (probe_index m 1 i e) = Some se /\ State se = OCCUPIED) \/
            (exists L : nat,
               (0 < L < b)%nat /\
               (exists su, slot_at tb (probe_index m 1 i L) = Some su /\
                           State su = UNOCCUPIED) /\
               forall e : nat, (0 < e < L)%nat ->
                 exists se, slot_at tb (probe_index m 1 i e) = Some se /\
                            State se = OCCUPIED)).
  { induction b as [| b IHb]; intros Hb; [left; intros e He; lia |].
    destruct IHb as [Hall | Hfound]; [lia | | right].
    2:{ destruct Hfound as (L & HL & Hu & Hmin). exists L. split; [lia | auto]. }
    destruct (Nat.eq_dec b 0%nat) as [-> | Hb0]; [left; intros e He; lia |].
    destruct (slot_at_in_range tb (probe_index m 1 i b)) as [sb Hsb].
    { pose proof (seg_range i b Hi'). lia. }
    destruct (State sb) eqn:Eb.
    - left. intros e He. destruct (Nat.eq_dec e b) as [-> | Hne]; [eauto |].
      apply Hall. lia.
    - right. exists b. split; [lia |]. split; [eauto | assumption].
    - pose proof (no_tombstone_slot _ _ _ Hnt Hsb). contradiction. }
  assert (He00 : e0 <> 0%nat).
  { intros ->. cbn [probe_index] in Hsy. rewrite Hsi in Hsy. injection Hsy as <-. congruence. }
  destruct (Hsearch e0) as [Hall | (L & HL & Hu & Hmin)]; [lia | |].
  - exists e0. split; [lia |]. split; [lia |]. split; [eauto | assumption].
  - exists L. split; [lia |]. split; [lia |]. split; assumption.
Qed.

Lemma packed_map_same t t' :
  same_but_probes t t' -> packed_map cfg t -> packed_map cfg t'.
Proof.
  intros Hsame (Hcfg & Hp & Hmap & Hcnt & Hroom).
  pose proof (packed_same _ _ Hsame Hp) as Hp'.
  pose proof (mapped_same _ _ Hsame Hmap) as Hmap'.
  destruct Hsame as (Htb & Hcfg' & _ & Hcnt' & Hsz & _).
  unfold packed_map. rewrite Htb, Hcfg', Hcnt', Hsz. auto.
Qed.

(** [remove], under PACK with linear probing, on a table of [m] slots
    that is not full: it throws E_ITEM_NOT_FOUND only, and keeps the
    layout whenever it returns or throws. *)
Lemma remove_keeps_packed_map (fuel : nat) t k (r : outcome unit) t' :
  packed_map cfg t -> TableSize_ (mStats t) = m ->
  remove fuel t k = (r, t') ->
  (forall e, r = Throw e -> e = E_ITEM_NOT_FOUND) /\
  (r = Done tt \/ (exists e, r = Throw e) ->
   packed_map cfg t' /\ TableSize_ (mStats t') = m /\
   Count_ (mStats t') <= Count_ (mStats t)).
Proof.
  intros Hinv Hsz Hrem. pose proof Hinv as (Hcfg & Hp & [Hreach Hnd] & Hcnt & Hroom).
  pose proof Hp as (Hl & Hr & Hnt). rewrite Hcfg, Hsz in Hreach. rewrite Hsz in Hl, Hroom.
  pose proof Hrem as H. unfold remove in H.
  destruct (IndexOf fuel t k) as [r0 t0] eqn:HI.
  pose proof (IndexOf_same _ _ _ _ _ HI) as [Hsame Hnothrow].
  pose proof (packed_map_same _ _ Hsame Hinv) as Hinv0.
  destruct Hsame as (Htb & Hcfg0 & Hfr & Hcnt0 & Hsz0 & Hex).
  destruct r0 as [[index slot] | e | |].
  2:{ exfalso. now apply (Hnothrow e). }
  2:{ injection H as <- <-. split; [discriminate |]. intros [? | [e ?]]; discriminate. }
  2:{ injection H as <- <-. split; [discriminate |]. intros [? | [e ?]]; discriminate. }
  apply IndexOf_Done in HI.
  destruct (Z.eqb_spec index (-1)) as [| Hne].
  { injection H as <- <-. split; [intros e1 [= <-]; reflexivity |].
    intros _. split; [assumption |]. split; [congruence | lia]. }
  destruct slot as [i |]; [| contradiction].
  destruct HI as (-> & Hri & s & Hs & Hst & Hk).
  pose proof (slot_at_Some_range _ _ _ Hs) as Hi.
  assert (Hi' : 0 <= i < m) by lia.
  assert (Ho : State s = OCCUPIED).
  { pose proof (no_tombstone_slot _ _ _ Hnt Hs). destruct (State s); congruence. }
  rewrite to_int_small in H by lia.
  cbn [with_stats mConfig mTable mStats freed] in H.
  rewrite Hcfg0, Hcfg, Hpack, Htb in H. cbn [mbind option_bind] in H. rewrite Hs in H.
  destruct (next_hole (mTable t) i) as (L & HL0 & HLm & (su & Hsu & Hou) & Hcluster);
    [assumption | assumption | assumption | eauto |].
  set (tb := mTable t) in *.
  set (tb1 := store_at tb i (set_State s UNOCCUPIED)) in *.
  assert (Hother1 : forall x, 0 <= x -> x <> i -> slot_at tb1 x = slot_at tb x).
  { intros x Hx Hxi. apply slot_at_store_ne; lia. }
  assert (Hi1 : slot_at tb1 i = Some (set_State s UNOCCUPIED))
    by (apply slot_at_store_eq; assumption).
  assert (Hseg_ne : forall e : nat, (0 < e <= L)%nat -> probe_index m 1 i e <> i).
  { intros e He. change i with (probe_index m 1 i 0) at 2.
    apply seg_inj; [assumption | lia | lia | lia]. }
  assert (Hloop : forall t3, mConfig t3 = cfg -> TableSize_ (mStats t3) = m ->
            mTable t3 = tb1 ->
            remove_loop fuel t3 i (next_index i (TableSize_ (mStats t3))) = (r, t') ->
            (forall e, r <> Throw e) /\ (r = Done tt -> reachable cfg m (mTable t'))).
  { intros t3 Hc3 Hs3 Ht3 H3. rewrite Hs3, next_index_advance in H3 by assumption.
    change (advance i 1 m) with (probe_index m 1 i 1) in H3.
    apply (remove_loop_repairs i L Hi' HLm fuel t3 1%nat 0%nat r t'); try assumption;
      try lia; rewrite ?Ht3.
    - apply no_tombstone_store; [assumption | simpl; congruence].
    - assert (Hv : entries_of tb ≡ₚ (Key s, Data s) :: entries_of tb1)
        by (apply entries_of_vacate; [assumption | assumption | discriminate]).
      rewrite keys_of_entries, Hv in Hnd. cbn [map fst] in Hnd.
      apply NoDup_cons in Hnd as [_ Hnd]. now rewrite keys_of_entries.
    - cbn [probe_index]. exists (set_State s UNOCCUPIED). split; [assumption | reflexivity].
    - intros e He He0. destruct (Hcluster e) as (se & Hse & Hoe); [lia |].
      exists se. split; [| assumption].
      pose proof (seg_range i e Hi'). rewrite Hother1; [assumption | lia |].
      apply Hseg_ne. lia.
    - exists su. split; [| assumption].
      pose proof (seg_range i L Hi'). rewrite Hother1; [assumption | lia |].
      apply Hseg_ne. lia.
    - intros j sj Hsj Hoj. pose proof (slot_at_Some_range _ _ _ Hsj) as Hrj.
      assert (Hji : j <> i).
      { intros ->. rewrite Hi1 in Hsj. injection Hsj as <-. discriminate. }
      rewrite Hother1 in Hsj by lia.
      destruct (Hreach j sj Hsj Hoj) as (n & Hn & Hpath).
      exists n. split; [assumption |]. intros d Hd.
      destruct (Hpath d Hd) as (sd & Hsd & Hod & Hkd).
      pose proof (slot_at_Some_range _ _ _ Hsd) as Hrd.
      destruct (Z.eq_dec
                  (probe_index m (stride_of cfg (Key sj) m) (start_of cfg (Key sj) m) d) i)
        as [Hxi | Hxi].
      + right. cbn [probe_index]. split; [exact Hxi |].
        apply (path_through tb i L 0%nat 0%nat j sj n d); try assumption; try lia.
        * exists su. auto.
        * intros d' Hd'. destruct (Hpath d' Hd') as (sd' & ? & ? & _). left. eauto.
      + left. exists sd. rewrite Hother1 by lia. auto. }
  assert (Hdone : r = Done tt ->
            packed_map cfg t' /\ TableSize_ (mStats t') = m /\
            Count_ (mStats t') <= Count_ (mStats t)).
  { intros ->.
    destruct (remove_PACK_keeps_packed fuel t k (Done tt) t') as [Hp' Hcfg'];
      [congruence | assumption | assumption |].
    destruct (remove_PACK_contents fuel t t' k) as (v & Hperm & Hocc & _ & _ & Hc' & Hs' & _);
      [congruence | assumption | assumption |].
    fold tb in Hperm, Hocc.
    assert (Hreach' : reachable cfg m (mTable t')).
    { destruct (FreeProc_ cfg).
      - apply Hloop in H as [_ Hr']; [now apply Hr' | | |]; cbn;
          rewrite ?Htb; first [reflexivity | congruence].
      - apply Hloop in H as [_ Hr']; [now apply Hr' | | |]; cbn;
          rewrite ?Htb; first [reflexivity | congruence]. }
    assert (Hpos : 0 <= occupied_count (mTable t')).
    { unfold occupied_count. lia. }
    assert (Hcount : Count_ (mStats t') = occupied_count (mTable t')).
    { rewrite Hc', Hcnt, <- Hocc. apply u32_small. unfold UINT_MOD. lia. }
    split; [| split; [congruence | rewrite Hcount, Hcnt; lia]].
    unfold packed_map, mapped. rewrite Hcfg', Hcfg, Hs', Hsz.
    split; [reflexivity |]. split; [assumption |]. split; [split; [assumption |] |].
    - rewrite keys_of_entries, Hperm in Hnd. cbn [map fst] in Hnd.
      apply NoDup_cons in Hnd as [_ Hnd]. now rewrite keys_of_entries.
    - split; [exact Hcount | lia]. }
  assert (Hnothrow' : forall e, r <> Throw e).
  { destruct (FreeProc_ cfg).
    - apply Hloop in H as [Hn' _]; [exact Hn' | | |]; cbn;
        rewrite ?Htb; first [reflexivity | congruence].
    - apply Hloop in H as [Hn' _]; [exact Hn' | | |]; cbn;
        rewrite ?Htb; first [reflexivity | congruence]. }
  split.
  - intros e ->. exfalso. now apply (Hnothrow' e).
  - intros [Hr' | [e ->]]; [now apply Hdone | exfalso; now apply (Hnothrow' e)].
Qed.

(** The repair loop ends: every key it re-inserts is absent from the
    table once its slot is vacated, and the vacated slot is free.  It
    returns, or it stops at the copy of a key onto itself. *)
Lemma remove_loop_ends (allkeys : list string) (i : Z) :
  0 <= i < m ->
  (forall k, k ∈ allkeys ->
     0 <= start_of cfg k m < m /\ Z.of_nat (String.length k) < MAX_KEYLEN) ->
  forall (fuel : nat) t (q : nat),
    (q <= Z.to_nat m)%nat ->
    mConfig t = cfg -> TableSize_ (mStats t) = m ->
    length (mTable t) = Z.to_nat m ->
    no_tombstone (mTable t) -> NoDup (keys_of (mTable t)) ->
    (forall k, k ∈ keys_of (mTable t) -> k ∈ allkeys) ->
    2 * m - Z.of_nat q < Z.of_nat fuel ->
    exists (r : outcome unit) t',
      remove_loop fuel t i (probe_index m 1 i q) = (r, t') /\
      (r = Done tt \/ r = Fault).
Proof.
  intros Hi Hgood.
  induction fuel as [| fuel IH]; intros t q Hq Hcfg Hsz Hl Hnt Hnd Hsub Hfuel; [lia |].
  cbn [remove_loop].
  set (c := probe_index m 1 i q) in *.
  assert (Hrc : 0 <= c < m) by (apply seg_range; assumption).
  destruct (slot_at_in_range (mTable t) c) as [sc Hsc]; [lia |].
  rewrite Hsc.
  destruct (OAHTSlot_State_eqb (State sc) OCCUPIED && negb (c =? i)) eqn:Hcond; [| eauto].
  apply andb_prop in Hcond as [Hoc Hci]. apply occupied_eqb_true in Hoc.
  apply negb_true_iff, Z.eqb_neq in Hci.
  assert (Hqm : (q < Z.to_nat m)%nat).
  { destruct (Nat.eq_dec q (Z.to_nat m)) as [-> | Hne]; [| lia].
    exfalso. apply Hci. unfold c. apply probe_index_period; lia. }
  cbn [with_table mConfig mTable mStats]. rewrite Hcfg, Hsz.
  set (tb := mTable t) in *.
  set (tb1 := store_at tb c (set_State sc UNOCCUPIED)) in *.
  assert (Hv : entries_of tb ≡ₚ (Key sc, Data sc) :: entries_of tb1)
    by (apply entries_of_vacate; [assumption | assumption | discriminate]).
  assert (Hkeys : keys_of tb ≡ₚ Key sc :: keys_of tb1).
  { rewrite !keys_of_entries, Hv. reflexivity. }
  assert (Hin : Key sc ∈ allkeys).
  { apply Hsub. rewrite Hkeys. apply list_elem_of_here. }
  destruct (Hgood _ Hin) as [Hstart Hshort].
  assert (Hnd1 : NoDup (Key sc :: keys_of tb1)) by (now rewrite <- Hkeys).
  apply NoDup_cons in Hnd1 as [Hnot Hnd1].
  assert (Hocc1 : occupied_count tb1 < m).
  { pose proof (occupied_count_le tb) as Hle.
    rewrite !occupied_count_keys in *. rewrite Hkeys in Hle. cbn [length] in Hle. lia. }
  destruct (InsertInTable_fresh_key cfg tb1 m (Key sc) (Data sc) (Probes_ (mStats t)) (S fuel))
    as (n' & p' & s' & _ & Hins & _ & Hs' & Hu').
  { cbv zeta. rewrite stride_linear. repeat split; try lia. apply Z.gcd_1_l. }
  { assumption. }
  { unfold tb1. now rewrite length_store_at. }
  { apply no_tombstone_store; [assumption | simpl; congruence]. }
  { assumption. }
  { assumption. }
  { lia. }
  cbv zeta in Hins, Hs'. rewrite Hins.
  destruct (copied_onto_itself _ c); [eauto |].
  rewrite next_index_advance by assumption.
  change (advance c 1 m) with (probe_index m 1 i (S q)).
  set (x := probe_index m (stride_of cfg (Key sc) m) (start_of cfg (Key sc) m) n') in *.
  assert (Hkeys2 : keys_of (store_at tb1 x (mkSlot (Key sc) (Data sc) OCCUPIED))
                   ≡ₚ keys_of tb).
  { rewrite Hkeys, !keys_of_entries.
    rewrite (entries_of_store tb1 x s'); [reflexivity | assumption | congruence]. }
  apply IH; cbn [with_probes with_table with_stats set_Probes mConfig mStats mTable
                 TableSize_]; try assumption; try lia.
  - rewrite length_store_at. unfold tb1. now rewrite length_store_at.
  - apply no_tombstone_store; [apply no_tombstone_store |]; try assumption;
      simpl; congruence.
  - now rewrite Hkeys2.
  - intros k Hk. apply Hsub. now rewrite <- Hkeys2.
Qed.

(** [remove] ends, given fuel for two rounds of the array: it returns,
    throws E_ITEM_NOT_FOUND, or stops at the copy of a key onto
    itself. *)
Lemma remove_ends (allkeys : list string) (fuel : nat) t k :
  packed_map cfg t -> TableSize_ (mStats t) = m ->
  (forall k', k' ∈ keys_of (mTable t) -> k' ∈ allkeys) ->
  (forall k', k' ∈ allkeys ->
     0 <= start_of cfg k' m < m /\ Z.of_nat (String.length k') < MAX_KEYLEN) ->
  k ∈ allkeys -> 2 * m < Z.of_nat fuel ->
  exists (r : outcome unit) t',
    remove fuel t k = (r, t') /\
    (r = Done tt \/ r = Throw E_ITEM_NOT_FOUND \/ r = Fault) /\
    (r <> Fault -> forall k', k' ∈ keys_of (mTable t') -> k' ∈ allkeys).
Proof.
  intros Hinv Hsz Hsub Hgood Hk Hfuel.
  pose proof Hinv as (Hcfg & Hp & [Hreach Hnd] & Hcnt & Hroom).
  pose proof Hp as (Hl & Hr & Hnt). rewrite Hsz in Hl.
  destruct (Hgood k Hk) as [Hstart _].
  destruct (IndexOf_returns fuel t k) as ([index slot] & t0 & HI).
  { now rewrite Hsz. }
  { now rewrite Hsz. }
  { now rewrite Hsz, Hcfg. }
  { rewrite Hsz, Hcfg, stride_linear. lia. }
  { rewrite Hsz. lia. }
  pose proof (IndexOf_same _ _ _ _ _ HI) as [(Htb & Hcfg0 & Hfr & Hcnt0 & Hsz0 & Hex) _].
  pose proof (IndexOf_Done _ _ _ _ _ _ HI) as Hfound.
  destruct (Z.eqb_spec index (-1)) as [Hm1 | Hne].
  { exists (Throw E_ITEM_NOT_FOUND), t0. unfold remove. rewrite HI.
    apply Z.eqb_eq in Hm1. rewrite Hm1.
    split; [reflexivity |]. split; [auto |]. now rewrite Htb. }
  destruct slot as [i |]; [| contradiction].
  destruct Hfound as (-> & Hri & s & Hs & Hst & Hks).
  pose proof (slot_at_Some_range _ _ _ Hs) as Hi.
  assert (Hi' : 0 <= i < m) by lia.
  assert (Hloop : exists (r : outcome unit) t',
            remove fuel t k = (r, t') /\ (r = Done tt \/ r = Fault)).
  { unfold remove. rewrite HI. apply Z.eqb_neq in Hne. rewrite Hne.
    rewrite to_int_small by lia.
    cbn [with_stats mConfig mTable mStats freed].
    rewrite Hcfg0, Hcfg, Hpack, Htb. cbn [mbind option_bind]. rewrite Hs.
    assert (Hkeys : keys_of (mTable t)
                    ≡ₚ Key s :: keys_of (store_at (mTable t) i (set_State s UNOCCUPIED))).
    { assert (Ho : State s = OCCUPIED).
      { pose proof (no_tombstone_slot _ _ _ Hnt Hs). destruct (State s); congruence. }
      rewrite !keys_of_entries.
      rewrite (entries_of_vacate (mTable t) i s UNOCCUPIED); [reflexivity | | |];
        assumption || discriminate. }
    assert (Hstep : forall t3, mConfig t3 = cfg -> TableSize_ (mStats t3) = m ->
              mTable t3 = store_at (mTable t) i (set_State s UNOCCUPIED) ->
              exists (r : outcome unit) t',
                remove_loop fuel t3 i (next_index i (TableSize_ (mStats t3))) = (r, t') /\
                (r = Done tt \/ r = Fault)).
    { intros t3 Hc3 Hs3 Ht3. rewrite Hs3, next_index_advance by assumption.
      change (advance i 1 m) with (probe_index m 1 i 1).
      apply (remove_loop_ends allkeys i Hi' Hgood); try assumption; rewrite ?Ht3.
      - lia.
      - now rewrite length_store_at.
      - apply no_tombstone_store; [assumption | simpl; congruence].
      - rewrite Hkeys in Hnd. now apply NoDup_cons in Hnd as [_ Hnd].
      - intros k' Hk'. apply Hsub. rewrite Hkeys. now apply list_elem_of_further.
      - lia. }
    destruct (FreeProc_ cfg); apply Hstep; cbn; rewrite ?Htb; first [reflexivity | congruence]. }
  destruct Hloop as (r & t' & Hrem & [-> | ->]).
  2:{ exists Fault, t'. split; [exact Hrem |]. split; [auto |]. intros Hne'. contradiction. }
  exists (Done tt), t'.
  split; [exact Hrem |]. split; [now left |]. intros _.
  destruct (remove_PACK_contents fuel t t' k) as (v & Hperm & _);
    [congruence | assumption | assumption |].
  intros k' Hk'. apply Hsub. rewrite !keys_of_entries in *. rewrite Hperm. cbn [map fst].
  now apply list_elem_of_further.
Qed.

End PackedLinear.

(** ** PACK with linear probing: tables are finite maps *)

Lemma holds_without_growth_spec (Config : OAHTConfig) (m : Z) (K : nat) (c : Z) :
  holds_without_growth Config m K = true -> 1 <= c <= Z.of_nat K ->
  loadFactor_exceeds c m (MaxLoadFactor_ Config) = false.
Proof.
  unfold holds_without_growth. intros H Hc. rewrite forallb_forall in H.
  specialize (H (Z.to_nat c)). rewrite Z2Nat.id in H by lia.
  apply negb_true_iff, H, in_seq. lia.
Qed.

Lemma holds_without_growth_fewer (Config : OAHTConfig) (m : Z) (K K' : nat) :
  holds_without_growth Config m K = true -> (K' <= K)%nat ->
  holds_without_growth Config m K' = true.
Proof.
  unfold holds_without_growth. intros H Hle. rewrite forallb_forall in *.
  intros x Hx. apply H. apply in_seq in Hx. apply in_seq. lia.
Qed.

Lemma capacities_head (Config : OAHTConfig) (m : Z) (n : nat) :
  exists tl, capacities Config m n = m :: tl.
Proof. destruct n; simpl; eauto. Qed.

(** A growth that the load test asks for is one of the [n] expansions
    after which the table holds the entries to come. *)
Lemma growth_in_chain (Config : OAHTConfig) (n : nat) (m c : Z) (K : nat) :
  holds_without_growth Config (capacity_after Config m n) K = true ->
  1 <= c <= Z.of_nat K ->
  loadFactor_exceeds c m (MaxLoadFactor_ Config) = true ->
  exists n', n = S n'.
Proof.
  intros H Hc Hload. destruct n as [| n']; [| eauto].
  cbn [capacity_after] in H.
  rewrite (holds_without_growth_spec _ _ _ _ H Hc) in Hload. discriminate.
Qed.

Section PackedLinearRuns.

Context {T : Type} (T_default : T).
Implicit Types (t : OAHashTable T) (tb : list (OAHTSlot T)) (s : OAHTSlot T) (k : string).

Variable cfg : OAHTConfig.
Hypothesis Hpack : DeletionPolicy_ cfg = PACK.
Hypothesis Hlin : SecondaryHashFunc_ cfg = None.

Lemma roomy_capacity_spec (m : Z) :
  roomy_capacity cfg m = true ->
  0 < m <= 2 ^ 31 /\ m < next_capacity cfg m /\
  loadFactor_exceeds m m (MaxLoadFactor_ cfg) = true.
Proof.
  unfold roomy_capacity. intros H.
  repeat (apply andb_prop in H as [H ?]). split; [lia |]. split; [lia | assumption].
Qed.

Lemma packed_map_count t : packed_map cfg t -> 0 <= Count_ (mStats t).
Proof. intros (_ & _ & _ & -> & _). unfold occupied_count. lia. Qed.

(** [insert] leaves room: the load test, or the growth, sees to it. *)
Lemma insert_keeps_packed_map (fuel : nat) t k (v : T) (r : outcome unit) t' :
  packed_map cfg t -> roomy_capacity cfg (TableSize_ (mStats t)) = true ->
  insert T_default fuel t k v = (r, t') ->
  packed_map cfg t' /\
  Count_ (mStats t') <= Count_ (mStats t) + 1 /\
  (TableSize_ (mStats t') = TableSize_ (mStats t) \/
   TableSize_ (mStats t') = next_capacity cfg (TableSize_ (mStats t)) /\
   loadFactor_exceeds (Count_ (mStats t) + 1) (TableSize_ (mStats t))
     (MaxLoadFactor_ cfg) = true).
Proof.
  intros Hinv Hroomy H. pose proof Hinv as (Hcfg & Hp & Hmap & Hcnt & Hroom).
  apply roomy_capacity_spec in Hroomy as (Hpos & Hnext & Hfull).
  pose proof (insert_keeps_packed T_default fuel t k v r t' Hp H) as (Hp' & Hcfg' & Hcnt').
  pose proof (insert_keeps_mapped T_default fuel t k v r t' Hp Hmap H) as [Hmap' _].
  specialize (Hcnt' Hcnt). pose proof Hp as (Hl & Hr & Hn).
  assert (Hocc0 : 0 <= occupied_count (mTable t)) by (unfold occupied_count; lia).
  set (m := TableSize_ (mStats t)) in *.
  remember (loadFactor_exceeds (Count_ (mStats t) + 1) m (MaxLoadFactor_ cfg))
    as grows eqn:Hgrows.
  set (grown := grows = true).
  assert (Hsizes : occupied_count (mTable t') < TableSize_ (mStats t') /\
                   occupied_count (mTable t') <= occupied_count (mTable t) + 1 /\
                   (TableSize_ (mStats t') = m \/
                    TableSize_ (mStats t') = next_capacity cfg m /\ grown)).
  { unfold insert in H. fold m in H.
    assert (Hgoal : forall tg,
      occupied_count (mTable tg) = occupied_count (mTable t) ->
      (TableSize_ (mStats tg) = m /\ occupied_count (mTable t) + 1 < m) \/
      (TableSize_ (mStats tg) = next_capacity cfg m /\ grown) ->
      match InsertInTable (mConfig tg) fuel (mTable tg) (TableSize_ (mStats tg)) k v
              (Probes_ (mStats tg)) with
      | (Done table', probes) =>
          (Done tt,
           mkTable table' (mConfig tg)
             (mkStats (u32 (Count_ (mStats tg) + 1)) (TableSize_ (mStats tg)) probes
                (Expansions_ (mStats tg))) (freed tg))
      | (Throw e, probes) => (Throw e, with_probes probes tg)
      | (Fault, probes) => (Fault, with_probes probes tg)
      | (Timeout, probes) => (Timeout, with_probes probes tg)
      end = (r, t') ->
      occupied_count (mTable t') < TableSize_ (mStats t') /\
      occupied_count (mTable t') <= occupied_count (mTable t) + 1 /\
      (TableSize_ (mStats t') = m \/
       TableSize_ (mStats t') = next_capacity cfg m /\ grown)).
    { intros tg Hocc Hsize H'.
      destruct (InsertInTable _ _ _ _ _ _ _) as [[tb' | e | |] p'] eqn:Hins;
        injection H' as <- <-;
        cbn [with_probes with_stats set_Probes mTable mStats TableSize_].
      2-4: rewrite Hocc; split; [destruct Hsize as [[-> ?] | [-> _]]; lia |];
           split; [lia |]; destruct Hsize as [[-> _] | [-> ?]]; auto.
      apply InsertInTable_Done_contents in Hins as (Hperm & _ & _).
      assert (Ho : occupied_count tb' = occupied_count (mTable t) + 1)
        by (rewrite <- Hocc, !occupied_count_entries, Hperm; cbn [length]; lia).
      rewrite Ho. split; [destruct Hsize as [[-> ?] | [-> _]]; lia |].
      split; [lia |]. destruct Hsize as [[-> _] | [-> ?]]; auto. }
    rewrite Hcfg in H.
    rewrite (u32_small (Count_ (mStats t) + 1)) in H by (unfold UINT_MOD; lia).
    rewrite <- Hgrows in H. unfold grown in *. clear grown.
    destruct grows.
    - destruct (GrowTable T_default fuel t) as [rg tg] eqn:Hg.
      pose proof (GrowTable_cases T_default fuel t rg tg Hg) as Hc.
      destruct rg as [[] | e | |].
      + destruct Hc as (_ & _ & _ & Hsz & _). rewrite Hcfg in Hsz. fold m in Hsz.
        apply GrowTable_Done in Hg as (Hperm & _ & _); [| exact Hl].
        apply (Hgoal tg); [| right; split; [assumption | reflexivity] | assumption].
        now rewrite !occupied_count_entries, Hperm.
      + injection H as <- <-. destruct Hc as (-> & _ & _ & _ & -> & _). fold m.
        split; [lia |]. split; [lia | auto].
      + injection H as <- <-. destruct Hc as (-> & _ & _ & _ & -> & _). fold m.
        split; [lia |]. split; [lia | auto].
      + injection H as <- <-. destruct Hc as (-> & _ & _ & _ & -> & _). fold m.
        split; [lia |]. split; [lia | auto].
    - apply (Hgoal t); [reflexivity | left | assumption].
      split; [reflexivity |].
      rewrite Hcnt in Hgrows.
      destruct (Z.eq_dec (occupied_count (mTable t) + 1) m) as [Heq | Hne]; [| lia].
      rewrite Heq in Hgrows. congruence. }
  destruct Hsizes as (Hroom' & Hone & Hsz').
  split; [| split; [rewrite Hcnt', Hcnt; exact Hone | exact Hsz']].
  unfold packed_map. rewrite Hcfg', Hcfg. auto.
Qed.

Lemma clear_keeps_packed_map t (r : outcome unit) t' :
  packed_map cfg t -> 0 < TableSize_ (mStats t) -> clear t = (r, t') ->
  packed_map cfg t' /\ TableSize_ (mStats t') = TableSize_ (mStats t) /\
  Count_ (mStats t') <= Count_ (mStats t).
Proof.
  intros Hinv Hpos H. pose proof (packed_map_count t Hinv) as Hc0.
  destruct Hinv as (Hcfg & Hp & Hmap & Hcnt & Hroom).
  pose proof (clear_keeps_packed t r t' Hp H) as (Hp' & Hcfg' & Hcnt').
  pose proof (clear_keeps_mapped t r t' Hp H) as Hmap'.
  specialize (Hcnt' Hcnt). destruct Hp as (Hl & Hr & Hn).
  destruct t as [tb c0 st fr]. cbn [mTable mStats mConfig] in *.
  unfold clear in H. cbn [mStats] in H.
  destruct (clear_loop_spec tb [] c0 st fr) as (st' & fr' & Hloop & Hsz & _).
  cbn [app length] in Hloop. rewrite <- Hl, Hloop in H. injection H as <- <-.
  cbn [mTable mStats mConfig] in *.
  assert (Hzero : occupied_count (map (fun s => set_State s UNOCCUPIED) tb) = 0).
  { rewrite occupied_count_keys, keys_of_unoccupied. reflexivity. }
  split; [| split; [exact Hsz | rewrite Hcnt', Hzero; exact Hc0]].
  unfold packed_map. cbn [mTable mStats mConfig].
  split; [assumption |]. split; [assumption |]. split; [assumption |].
  split; [assumption |].
  rewrite Hzero, Hsz. lia.
Qed.

(** The calls that may add an entry. *)
Lemma do_call_keeps_packed_map (fuel : nat) t (c : call T) (r : outcome unit) t' :
  packed_map cfg t -> roomy_capacity cfg (TableSize_ (mStats t)) = true ->
  do_call T_default fuel t c = (r, t') ->
  r = Done tt \/ (exists e, r = Throw e) ->
  packed_map cfg t' /\
  Count_ (mStats t') <= Count_ (mStats t) + (if is_insert c then 1 else 0) /\
  (TableSize_ (mStats t') = TableSize_ (mStats t) \/
   is_insert c = true /\
   TableSize_ (mStats t') = next_capacity cfg (TableSize_ (mStats t)) /\
   loadFactor_exceeds (Count_ (mStats t) + 1) (TableSize_ (mStats t))
     (MaxLoadFactor_ cfg) = true).
Proof.
  intros Hinv Hroomy H Hr.
  pose proof (roomy_capacity_spec _ Hroomy) as (Hm & Hnext & _).
  destruct c as [k v | k | k |]; cbn [do_call] in H; cbn [is_insert].
  - destruct (insert_keeps_packed_map fuel t k v r t' Hinv Hroomy H)
      as (Hinv' & Hcount & [Hsz | [Hsz Hload]]);
      (split; [assumption |]; split; [assumption |]; auto).
  - destruct (remove_keeps_packed_map cfg _ Hm Hpack Hlin fuel t k r t' Hinv eq_refl H)
      as [_ Hkeep].
    destruct (Hkeep Hr) as (Hinv' & Hsz & Hcount).
    split; [assumption |]. split; [lia | auto].
  - destruct (find fuel t k) as [r1 t1] eqn:Hf. apply find_same in Hf.
    pose proof (packed_map_same cfg _ _ Hf Hinv) as Hinv'.
    destruct Hf as (_ & _ & _ & Hcount & Hsz & _).
    destruct r1; injection H as <- <-; (split; [assumption |]; split; [lia | auto]).
  - apply clear_keeps_packed_map in H as (? & ? & ?); [| assumption | lia].
    split; [assumption |]. split; [lia | auto].
Qed.

(** A run along a chain of [n] expansions: [P] holds of the first
    [n + 1] capacities, and the last one holds the entries of the table
    and one more for each [insert] to come, and [K] besides. *)
Lemma run_packed_map (P : Z -> Prop) (fuel : nat) (cs : list (call T)) (K : nat) :
  (forall m, P m -> roomy_capacity cfg m = true) ->
  forall (n : nat) t t', packed_map cfg t ->
    Forall P (capacities cfg (TableSize_ (mStats t)) n) ->
    holds_without_growth cfg (capacity_after cfg (TableSize_ (mStats t)) n)
      (Z.to_nat (Count_ (mStats t)) + insert_calls cs + K) = true ->
    run T_default fuel t cs = Some t' ->
    packed_map cfg t' /\
    exists n' : nat,
      Forall P (capacities cfg (TableSize_ (mStats t')) n') /\
      holds_without_growth cfg (capacity_after cfg (TableSize_ (mStats t')) n')
        (Z.to_nat (Count_ (mStats t')) + K) = true.
Proof.
  intros HP.
  induction cs as [| c cs IH]; intros n t t' Hinv Hcaps Hholds H; cbn [run] in H.
  - injection H as <-. split; [assumption |]. exists n. split; [assumption |].
    cbn [insert_calls] in Hholds. now rewrite Nat.add_0_r in Hholds.
  - destruct (capacities_head cfg (TableSize_ (mStats t)) n) as [tl Htl].
    pose proof Hcaps as Hhead. rewrite Htl in Hhead. apply Forall_cons in Hhead as [Hm _].
    apply HP in Hm.
    destruct (do_call T_default fuel t c) as [r t1] eqn:Hcall.
    pose proof (packed_map_count t Hinv) as Hc0.
    assert (Hstep : r = Done tt \/ (exists e, r = Throw e) ->
              run T_default fuel t1 cs = Some t' ->
              packed_map cfg t' /\
              exists n' : nat,
                Forall P (capacities cfg (TableSize_ (mStats t')) n') /\
                holds_without_growth cfg (capacity_after cfg (TableSize_ (mStats t')) n')
                  (Z.to_nat (Count_ (mStats t')) + K) = true).
    { intros Hr Hrun.
      destruct (do_call_keeps_packed_map fuel t c r t1 Hinv Hm Hcall Hr)
        as (Hinv1 & Hcount & Hsz).
      pose proof (packed_map_count t1 Hinv1) as Hc1.
      assert (Hfewer : (Z.to_nat (Count_ (mStats t1)) + insert_calls cs + K
                        <= Z.to_nat (Count_ (mStats t)) + insert_calls (c :: cs) + K)%nat).
      { destruct c; cbn [is_insert insert_calls] in *; lia. }
      destruct Hsz as [Hsz | (Hins & Hsz & Hload)].
      - apply (IH n t1); try assumption; rewrite Hsz; [assumption |].
        now apply (holds_without_growth_fewer _ _ _ _ Hholds).
      - destruct (growth_in_chain cfg n (TableSize_ (mStats t)) (Count_ (mStats t) + 1) _
                    Hholds) as [n1 ->]; [| assumption |].
        { destruct c; try discriminate. cbn [insert_calls is_insert]. lia. }
        cbn [capacities capacity_after] in Hcaps, Hholds.
        apply Forall_cons in Hcaps as [_ Hcaps].
        apply (IH n1 t1); try assumption; rewrite Hsz; [assumption |].
        now apply (holds_without_growth_fewer _ _ _ _ Hholds). }
    destruct r as [[] | e | |]; try discriminate; apply Hstep; eauto.
Qed.

Lemma packed_map_new :
  0 < u32 (InitialTableSize_ cfg) -> packed_map cfg (OAHashTable_new T_default cfg).
Proof.
  intros Hm0.
  split; [reflexivity |]. split; [apply packed_new |]. split.
  { split; [apply reachable_fresh |].
    cbn [OAHashTable_new mTable]. rewrite keys_of_replicate_fresh. constructor. }
  cbn [OAHashTable_new mTable mStats Count_ TableSize_].
  rewrite occupied_count_keys, keys_of_replicate_fresh.
  split; [reflexivity | cbn; lia].
Qed.

(** X21: under PACK with linear probing, a table built from a new one
    by any sequence of [insert], [remove], [find] and [clear] calls,
    whatever each of them returned or threw, is a finite map, when the
    capacities of the first [n] expansions are at most 2^31, grow from
    one to the next and leave a slot free (the load test, in double
    arithmetic, asks for a growth before the last slot is filled), and
    the load test does not ask for an expansion after the [n]-th for as
    many entries as the sequence has [insert] calls.  No key is held
    twice and there is no tombstone; [Count_] is the number of occupied
    slots, and a slot is free; [find] returns [v] for [k] exactly when
    an occupied slot holds the pair (given more fuel than there are
    slots, it does return for every key held); [insert] returns only
    for a key not yet held; and [remove] throws E_ITEM_NOT_FOUND only.
    A [remove] whose repair loop copies a key onto itself ends the run:
    that copy is undefined. *)
Theorem PACK_linear_run_is_map (fuel : nat) (cs : list (call T)) (n : nat) t :
  forallb (roomy_capacity cfg)
    (capacities cfg (u32 (InitialTableSize_ cfg)) n) = true ->
  holds_without_growth cfg (capacity_after cfg (u32 (InitialTableSize_ cfg)) n)
    (insert_calls cs) = true ->
  run T_default fuel (OAHashTable_new T_default cfg) cs = Some t ->
  NoDup (keys_of (mTable t)) /\ no_tombstone (mTable t) /\
  Count_ (mStats t) = occupied_count (mTable t) /\
  occupied_count (mTable t) < TableSize_ (mStats t) /\
  (forall (fuel' : nat) k (v : T),
     (k, v) ∈ entries_of (mTable t) -> (length (mTable t) < fuel')%nat ->
     fst (find fuel' t k) = Done v) /\
  (forall (fuel' : nat) k (v : T),
     fst (find fuel' t k) = Done v -> (k, v) ∈ entries_of (mTable t)) /\
  (forall (fuel' : nat) k (v : T) t',
     insert T_default fuel' t k v = (Done tt, t') -> k ∉ keys_of (mTable t)) /\
  (forall (fuel' : nat) k (e : OAHASHTABLE_EXCEPTION),
     fst (remove fuel' t k) = Throw e -> e = E_ITEM_NOT_FOUND).
Proof.
  intros Hcaps Hholds H.
  assert (Hall : Forall (fun m => roomy_capacity cfg m = true)
                   (capacities cfg (u32 (InitialTableSize_ cfg)) n)).
  { rewrite forallb_forall in Hcaps. apply Forall_forall.
    intros m Hin. apply Hcaps. now apply list_elem_of_In. }
  assert (Hnew : packed_map cfg (OAHashTable_new T_default cfg)).
  { destruct (capacities_head cfg (u32 (InitialTableSize_ cfg)) n) as [tl Htl].
    pose proof Hall as Hhead. rewrite Htl in Hhead. apply Forall_cons in Hhead as [Hm0 _].
    apply roomy_capacity_spec in Hm0 as [Hm0 _]. apply packed_map_new. lia. }
  apply (run_packed_map (fun m => roomy_capacity cfg m = true) fuel cs 0 (fun m Hm => Hm) n)
    in H as [Hinv (n' & Hcaps' & _)]; [| assumption | assumption |].
  2:{ cbn [OAHashTable_new mStats Count_ TableSize_].
      now rewrite Nat.add_0_r. }
  destruct (capacities_head cfg (TableSize_ (mStats t)) n') as [tl Htl].
  rewrite Htl in Hcaps'. apply Forall_cons in Hcaps' as [Hroomy _].
  destruct Hinv as (Hcfg & Hp & [Hreach Hnd] & Hcnt & Hroom).
  pose proof Hp as (Hl & Hr & Hn).
  split; [exact Hnd |]. split; [exact Hn |]. split; [exact Hcnt |]. split; [exact Hroom |].
  split; [| split; [| split]].
  - intros fuel' k v Hin Hfuel. apply find_present; try assumption. lia.
  - intros fuel' k v Hf.
    destruct (find fuel' t k) as [r t1] eqn:Hfind. cbn [fst] in Hf. subst r.
    apply find_Done_slot in Hfind as (i & s & Hs & <- & <- & Hst).
    apply (entries_of_slot _ i); [assumption |].
    pose proof (no_tombstone_slot _ _ _ Hn Hs). destruct Hst; congruence.
  - intros fuel' k v t' Hins.
    apply insert_keeps_mapped in Hins as [_ Hnot]; [auto | assumption | split; assumption].
  - intros fuel' k e Hrem.
    destruct (remove fuel' t k) as [r t2] eqn:Hremove. cbn [fst] in Hrem. subst r.
    apply roomy_capacity_spec in Hroomy as [Hm _].
    destruct (remove_keeps_packed_map cfg _ Hm Hpack Hlin fuel' t k (Throw e) t2)
      as [Honly _]; [| reflexivity | assumption | now apply Honly].
    exact (conj Hcfg (conj Hp (conj (conj Hreach Hnd) (conj Hcnt Hroom)))).
Qed.

(** *** Every call ends *)

Lemma InsertInTable_loop_meets tb (m : Z) k (st h : Z) (n : nat) s :
  slot_at tb (probe_index m st h n) = Some s -> State s = OCCUPIED -> Key s = k ->
  (forall j : nat, (j < n)%nat ->
     exists sj, slot_at tb (probe_index m st h j) = Some sj /\
                State sj = OCCUPIED /\ Key sj <> k) ->
  forall (fuel j : nat) (p : Z),
    (j <= n)%nat -> (n - j < fuel)%nat ->
    exists p',
      InsertInTable_loop fuel tb m k st (probe_index m st h j) p = (Throw E_DUPLICATE, p').
Proof.
  intros Hs Ho Hk Hpath.
  induction fuel as [| fuel IH]; intros j p Hj Hfuel; [lia |].
  cbn [InsertInTable_loop].
  destruct (Nat.eq_dec j n) as [-> | Hne].
  - rewrite Hs, Ho. apply String.eqb_eq in Hk. rewrite Hk. eauto.
  - destruct (Hpath j) as (sj & Hsj & Hoj & Hkj); [lia |].
    rewrite Hsj, Hoj. apply String.eqb_neq in Hkj. rewrite Hkj.
    change (advance (probe_index m st h j) st m) with (probe_index m st h (S j)).
    apply IH; lia.
Qed.

(** [InsertInTable] throws E_DUPLICATE for a key that is held. *)
Lemma InsertInTable_present (Config : OAHTConfig) (fuel : nat) tb (m : Z) k (v : T) (p : Z) :
  reachable Config m tb -> k ∈ keys_of tb -> (length tb < fuel)%nat ->
  exists p', InsertInTable Config fuel tb m k v p = (Throw E_DUPLICATE, p').
Proof.
  intros Hreach Hin Hfuel. apply keys_of_elem in Hin as (i & s & Hs & Ho & Hk).
  destruct (Hreach i s Hs Ho) as (n & Hn & Hpath). rewrite Hk in Hn, Hpath.
  rewrite <- Hn in Hs.
  pose proof (path_short _ _ _ _ _ _ _ Hs Hk Hpath) as Hshort.
  destruct (InsertInTable_loop_meets tb m k _ _ n s Hs Ho Hk Hpath fuel 0%nat p)
    as [p' Hloop]; [lia | lia |].
  cbn [probe_index] in Hloop. unfold InsertInTable. rewrite Hloop. eauto.
Qed.

Lemma packed_map_inserts_inv (allkeys : list string) t :
  packed_map cfg t -> (forall k, k ∈ keys_of (mTable t) -> k ∈ allkeys) ->
  inserts_inv cfg allkeys t.
Proof.
  intros (Hcfg & (Hl & Hr & Hn) & [Hreach Hnd] & Hcnt & Hroom) Hsub.
  constructor; try assumption. lia.
Qed.

(** A capacity that is good for linear probing leaves a slot free when
    the load test asks for a growth before the last slot is filled. *)
Lemma good_capacity_roomy (allkeys : list string) (m : Z) :
  good_capacity cfg allkeys m = true ->
  loadFactor_exceeds m m (MaxLoadFactor_ cfg) = true ->
  roomy_capacity cfg m = true.
Proof.
  intros H Hfull. apply good_capacity_spec in H as (Hm & _ & Hnext & _).
  unfold roomy_capacity. rewrite Hfull.
  repeat (apply andb_true_intro; split); try reflexivity; lia.
Qed.

Lemma insert_returns (allkeys : list string) (fuel : nat) t k (v : T) :
  let m := TableSize_ (mStats t) in
  packed_map cfg t -> (forall k', k' ∈ keys_of (mTable t) -> k' ∈ allkeys) ->
  good_capacity cfg allkeys m = true ->
  (loadFactor_exceeds (u32 (Count_ (mStats t) + 1)) m (MaxLoadFactor_ cfg) = true ->
   good_capacity cfg allkeys (next_capacity cfg m) = true /\
   next_capacity cfg m < Z.of_nat fuel) ->
  k ∈ allkeys ->
  m < Z.of_nat fuel ->
  exists (r : outcome unit) t',
    insert T_default fuel t k v = (r, t') /\
    (r = Done tt \/ r = Throw E_DUPLICATE) /\
    (forall k', k' ∈ keys_of (mTable t') -> k' ∈ allkeys).
Proof.
  intros m Hinv Hsub Hg Hnext Hk Hf.
  pose proof (packed_map_inserts_inv allkeys t Hinv Hsub) as Hi.
  destruct (decide (k ∈ keys_of (mTable t))) as [Hin | Hnot].
  2:{ destruct (insert_step T_default cfg allkeys t k v fuel Hi)
        as (t1 & p & Hins & _ & _ & Hkeys & _); try assumption.
      exists (Done tt), t1. split; [exact Hins |]. split; [now left |].
      intros k' Hk'. rewrite Hkeys in Hk'. apply elem_of_cons in Hk' as [-> | Hk']; auto. }
  destruct Hinv as (Hcfg & (Hl & Hr & Hn) & [Hreach Hnd] & Hcnt & Hroom).
  unfold insert. fold m. rewrite Hcfg.
  destruct (loadFactor_exceeds _ _ _).
  - destruct (Hnext eq_refl) as [Hg' Hf'].
    destruct (GrowTable_ok T_default cfg allkeys t fuel Hi Hg Hg' Hf')
      as (tg & Hgrow & Hig & Hsz & _ & Hkeys & _).
    rewrite Hgrow.
    destruct (InsertInTable_present (mConfig tg) fuel (mTable tg) (TableSize_ (mStats tg))
                k v (Probes_ (mStats tg))) as [p' Hins].
    + apply (GrowTable_mapped T_default fuel t tg Hgrow).
    + now rewrite Hkeys.
    + rewrite (inv_length _ _ _ Hig), Hsz. fold m. lia.
    + rewrite Hins. exists (Throw E_DUPLICATE), (with_probes p' tg).
      split; [reflexivity |]. split; [now right |].
      intros k' Hk'. apply Hsub. now rewrite <- Hkeys.
  - destruct (InsertInTable_present (mConfig t) fuel (mTable t) (TableSize_ (mStats t))
                k v (Probes_ (mStats t))) as [p' Hins];
      [exact Hreach | assumption | fold m in Hl; lia |].
    rewrite Hins. exists (Throw E_DUPLICATE), (with_probes p' t).
    split; [reflexivity |]. split; [now right |]. exact Hsub.
Qed.

Lemma find_returns (fuel : nat) t k :
  length (mTable t) = Z.to_nat (TableSize_ (mStats t)) ->
  0 < TableSize_ (mStats t) <= 2 ^ 31 ->
  0 <= start_of (mConfig t) k (TableSize_ (mStats t)) < TableSize_ (mStats t) ->
  0 <= stride_of (mConfig t) k (TableSize_ (mStats t)) <= TableSize_ (mStats t) ->
  TableSize_ (mStats t) < Z.of_nat fuel ->
  exists (r : outcome T) t',
    find fuel t k = (r, t') /\ ((exists v, r = Done v) \/ r = Throw E_ITEM_NOT_FOUND).
Proof.
  intros Hl Hm Hh Hst Hfuel.
  destruct (IndexOf_returns fuel t k Hl Hm Hh Hst Hfuel) as ([index slot] & t0 & HI).
  pose proof (IndexOf_same _ _ _ _ _ HI) as [(Htb & _) _].
  pose proof (IndexOf_Done _ _ _ _ _ _ HI) as Hfound.
  unfold find. rewrite HI.
  destruct (Z.eqb_spec index (-1)) as [| Hne].
  { exists (Throw E_ITEM_NOT_FOUND), t0. split; [reflexivity | now right]. }
  destruct slot as [i |]; [| contradiction].
  destruct Hfound as (_ & _ & s & Hs & _).
  cbn [mbind option_bind]. rewrite Htb, Hs.
  exists (Done (Data s)), t0. split; [reflexivity | left; eauto].
Qed.

(** Every call ends, given fuel for two rounds of the array: it
    returns or throws, or it is a [remove] that stops at undefined
    behaviour. *)
Lemma do_call_ends (allkeys : list string) (fuel : nat) t (c : call T) :
  let m := TableSize_ (mStats t) in
  packed_map cfg t -> (forall k, k ∈ keys_of (mTable t) -> k ∈ allkeys) ->
  good_capacity cfg allkeys m = true ->
  (is_insert c = true ->
   loadFactor_exceeds (Count_ (mStats t) + 1) m (MaxLoadFactor_ cfg) = true ->
   good_capacity cfg allkeys (next_capacity cfg m) = true /\
   next_capacity cfg m < Z.of_nat fuel) ->
  (forall k, call_key c = Some k -> k ∈ allkeys) ->
  2 * m < Z.of_nat fuel ->
  exists (r : outcome unit) t',
    do_call T_default fuel t c = (r, t') /\
    (r = Done tt \/ (exists e, r = Throw e) \/
     r = Fault /\ exists k, c = call_remove k) /\
    (r <> Fault -> forall k, k ∈ keys_of (mTable t') -> k ∈ allkeys).
Proof.
  intros m Hinv Hsub Hg Hnext Hkey Hf.
  pose proof (good_capacity_spec _ _ _ Hg) as (Hm & _ & _ & Hgood).
  pose proof (packed_map_count t Hinv) as Hc0.
  pose proof Hinv as (Hcfg & (Hl & Hr & Hn) & _ & Hcnt & Hroom).
  destruct c as [k v | k | k |]; cbn [do_call].
  - destruct (insert_returns allkeys fuel t k v) as (r & t' & Hins & Hr' & Hsub');
      try assumption; [| now apply Hkey | fold m; lia |].
    { fold m. rewrite u32_small by (unfold UINT_MOD; fold m in Hroom; lia).
      now apply Hnext. }
    exists r, t'. split; [assumption |]. split; [| auto].
    destruct Hr' as [-> | ->]; eauto.
  - destruct (remove_ends cfg m ltac:(lia) Hpack Hlin allkeys fuel t k)
      as (r & t' & Hrem & Hr' & Hsub'); try assumption; try reflexivity.
    + intros k' Hk'. destruct (Hgood k' Hk') as [(_ & Hs & _) Hshort]. auto.
    + now apply Hkey.
    + exists r, t'. split; [assumption |]. split; [| assumption].
      destruct Hr' as [-> | [-> | ->]]; eauto.
  - destruct (Hgood k) as [(_ & Hs & Hst & _) _]; [now apply Hkey |].
    destruct (find_returns fuel t k) as (r & t' & Hfind & Hr');
      try assumption; rewrite ?Hcfg; try assumption; try (fold m; lia).
    rewrite Hfind. pose proof (find_same _ _ _ _ _ Hfind) as (Htb & _).
    destruct Hr' as [[v ->] | ->]; cbn [forget].
    + exists (Done tt), t'. split; [reflexivity |]. split; [now left |]. now rewrite Htb.
    + exists (Throw E_ITEM_NOT_FOUND), t'.
      split; [reflexivity |]. split; [eauto |]. now rewrite Htb.
  - destruct t as [tb c0 st fr]. cbn [mTable mStats mConfig] in *.
    unfold clear. cbn [mStats].
    destruct (clear_loop_spec tb [] c0 st fr) as (st' & fr' & Hloop & _).
    cbn [app length] in Hloop. rewrite <- Hl, Hloop.
    exists (Done tt), (mkTable (map (fun s => set_State s UNOCCUPIED) tb) c0 st' fr').
    split; [reflexivity |]. split; [now left |].
    cbn [mTable]. rewrite keys_of_unoccupied. intros _ k Hk. inversion Hk.
Qed.

Lemma call_keys_cons (c : call T) (cs : list (call T)) k :
  call_key c = Some k \/ k ∈ call_keys cs -> k ∈ call_keys (c :: cs).
Proof.
  unfold call_keys. intros [Hc | Hk].
  - destruct c; cbn in *; try discriminate; injection Hc as ->; apply list_elem_of_here.
  - destruct c; cbn; try (now apply list_elem_of_further). exact Hk.
Qed.

(** A run completes, or stops at a [remove] in undefined behaviour. *)
Lemma run_ends (allkeys : list string) (fuel : nat) (cs : list (call T)) :
  forall (n : nat) t, packed_map cfg t ->
    (forall k, k ∈ keys_of (mTable t) -> k ∈ allkeys) ->
    Forall (fun m => good_capacity cfg allkeys m = true /\
                     loadFactor_exceeds m m (MaxLoadFactor_ cfg) = true /\
                     2 * m < Z.of_nat fuel)
      (capacities cfg (TableSize_ (mStats t)) n) ->
    holds_without_growth cfg (capacity_after cfg (TableSize_ (mStats t)) n)
      (Z.to_nat (Count_ (mStats t)) + insert_calls cs) = true ->
    (forall k, k ∈ call_keys cs -> k ∈ allkeys) ->
    (exists t', run T_default fuel t cs = Some t') \/
    (exists (cs1 : list (call T)) k (cs2 : list (call T)) t1,
       cs = cs1 ++ call_remove k :: cs2 /\
       run T_default fuel t cs1 = Some t1 /\
       fst (remove fuel t1 k) = Fault).
Proof.
  induction cs as [| c cs IH]; intros n t Hinv Hsub Hcaps Hholds Hkeys; cbn [run];
    [left; eauto |].
  destruct (capacities_head cfg (TableSize_ (mStats t)) n) as [tl Htl].
  pose proof Hcaps as Hhead. rewrite Htl in Hhead.
  apply Forall_cons in Hhead as [(Hg & Hfull & Hf) _].
  pose proof (good_capacity_spec _ _ _ Hg) as (Hm & _ & Hlt & _).
  pose proof (packed_map_count t Hinv) as Hc0.
  assert (Hchain : is_insert c = true ->
            loadFactor_exceeds (Count_ (mStats t) + 1) (TableSize_ (mStats t))
              (MaxLoadFactor_ cfg) = true ->
            exists n1, n = S n1).
  { intros Hins Hload.
    apply (growth_in_chain cfg n (TableSize_ (mStats t)) (Count_ (mStats t) + 1) _ Hholds);
      [| assumption].
    destruct c; try discriminate. cbn [insert_calls is_insert]. lia. }
  destruct (do_call_ends allkeys fuel t c) as (r & t1 & Hcall & Hr & Hsub1);
    try assumption; [| intros k Hk; apply Hkeys, call_keys_cons; now left |].
  { intros Hins Hload. destruct (Hchain Hins Hload) as [n1 ->].
    cbn [capacities] in Hcaps. apply Forall_cons in Hcaps as [_ Hcaps].
    destruct (capacities_head cfg (next_capacity cfg (TableSize_ (mStats t))) n1)
      as [tl1 Htl1].
    rewrite Htl1 in Hcaps. apply Forall_cons in Hcaps as [(Hg' & _ & Hf') _].
    split; [assumption | lia]. }
  rewrite Hcall.
  assert (Hrest : r = Done tt \/ (exists e, r = Throw e) ->
            (exists t', run T_default fuel t1 cs = Some t') \/
            (exists (cs1 : list (call T)) k (cs2 : list (call T)) t2,
               cs = cs1 ++ call_remove k :: cs2 /\
               run T_default fuel t1 cs1 = Some t2 /\
               fst (remove fuel t2 k) = Fault)).
  { intros Hr'.
    destruct (do_call_keeps_packed_map fuel t c r t1 Hinv
                (good_capacity_roomy _ _ Hg Hfull) Hcall Hr')
      as (Hinv1 & Hcount & Hsz).
    pose proof (packed_map_count t1 Hinv1) as Hc1.
    assert (Hfewer : (Z.to_nat (Count_ (mStats t1)) + insert_calls cs
                      <= Z.to_nat (Count_ (mStats t)) + insert_calls (c :: cs))%nat).
    { destruct c; cbn [is_insert insert_calls] in *; lia. }
    assert (Hnofault : r <> Fault) by (destruct Hr' as [-> | [e ->]]; discriminate).
    assert (Hnext : exists n1,
              Forall (fun m => good_capacity cfg allkeys m = true /\
                               loadFactor_exceeds m m (MaxLoadFactor_ cfg) = true /\
                               2 * m < Z.of_nat fuel)
                (capacities cfg (TableSize_ (mStats t1)) n1) /\
              holds_without_growth cfg (capacity_after cfg (TableSize_ (mStats t1)) n1)
                (Z.to_nat (Count_ (mStats t1)) + insert_calls cs) = true).
    { destruct Hsz as [Hsz | (Hins & Hsz & Hload)].
      - exists n. rewrite Hsz. split; [assumption |].
        now apply (holds_without_growth_fewer _ _ _ _ Hholds).
      - destruct (Hchain Hins Hload) as [n1 ->]. exists n1. rewrite Hsz.
        cbn [capacities capacity_after] in Hcaps, Hholds.
        apply Forall_cons in Hcaps as [_ Hcaps]. split; [assumption |].
        now apply (holds_without_growth_fewer _ _ _ _ Hholds). }
    destruct Hnext as (n1 & Hcaps1 & Hholds1).
    apply (IH n1 t1 Hinv1 (Hsub1 Hnofault) Hcaps1 Hholds1).
    intros k Hk. apply Hkeys, call_keys_cons. now right. }
  assert (Hgoes : r = Done tt \/ (exists e, r = Throw e) ->
            forall cs1 : list (call T),
              run T_default fuel t (c :: cs1) = run T_default fuel t1 cs1).
  { intros Hr' cs1. cbn [run]. rewrite Hcall. now destruct Hr' as [-> | [e ->]]. }
  destruct Hr as [Hr | [Hr | [-> [k ->]]]].
  - destruct (Hrest (or_introl Hr))
      as [[t' Hdone] | (cs1 & k & cs2 & t2 & -> & Hrun & Hfault)].
    + left. exists t'. subst r. exact Hdone.
    + right. exists (c :: cs1), k, cs2, t2. split; [reflexivity |].
      rewrite (Hgoes (or_introl Hr)). auto.
  - destruct (Hrest (or_intror Hr))
      as [[t' Hdone] | (cs1 & k & cs2 & t2 & -> & Hrun & Hfault)].
    + left. exists t'. destruct Hr as [e ->]. exact Hdone.
    + right. exists (c :: cs1), k, cs2, t2. split; [reflexivity |].
      rewrite (Hgoes (or_intror Hr)). auto.
  - right. exists [], k, cs, t. split; [reflexivity |]. split; [reflexivity |].
    cbn [do_call] in Hcall. now rewrite Hcall.
Qed.

(** X22: under PACK with linear probing, no call of a sequence of
    [insert], [remove], [find] and [clear] calls on a new table runs
    out of steps, given fuel for two rounds of the largest array, and
    no [insert], [find] or [clear] leaves the array: the run completes,
    every call returning or throwing, or it stops at a [remove] in
    undefined behaviour (the repair loop copies a key onto itself when
    the open spot it finds for the key is the slot the key is in).
    This holds when at each of the capacities of the first [n]
    expansions (below 2^31, growing from one to the next, the growth
    target fitting an [unsigned], with the load test asking for a
    growth before the last slot is filled) the
    primary hash function is in range for the keys of the calls, these
    keys are shorter than MAX_KEYLEN, and the load test does not ask
    for an expansion after the [n]-th for as many entries as the
    sequence has [insert] calls. *)
Theorem PACK_linear_calls_end (fuel : nat) (cs : list (call T)) (n : nat) :
  let caps := capacities cfg (u32 (InitialTableSize_ cfg)) n in
  forallb (good_capacity cfg (call_keys cs)) caps = true ->
  forallb (fun m => loadFactor_exceeds m m (MaxLoadFactor_ cfg)) caps = true ->
  holds_without_growth cfg (capacity_after cfg (u32 (InitialTableSize_ cfg)) n)
    (insert_calls cs) = true ->
  (2 * fuel_bound caps <= fuel)%nat ->
  (exists t, run T_default fuel (OAHashTable_new T_default cfg) cs = Some t) \/
  (exists (cs1 : list (call T)) k (cs2 : list (call T)) t1,
     cs = cs1 ++ call_remove k :: cs2 /\
     run T_default fuel (OAHashTable_new T_default cfg) cs1 = Some t1 /\
     fst (remove fuel t1 k) = Fault).
Proof.
  intros caps Hgood Hfull Hholds Hfuel.
  assert (Hall : Forall (fun m => good_capacity cfg (call_keys cs) m = true /\
                                  loadFactor_exceeds m m (MaxLoadFactor_ cfg) = true /\
                                  2 * m < Z.of_nat fuel) caps).
  { pose proof (fuel_bound_covers caps (fuel_bound caps) (Nat.le_refl _)) as Hcov.
    rewrite forallb_forall in Hgood, Hfull. rewrite Forall_forall in Hcov |- *.
    intros m Hin. split; [apply Hgood; now apply list_elem_of_In |].
    split; [apply Hfull; now apply list_elem_of_In |].
    specialize (Hcov m Hin). lia. }
  destruct (capacities_head cfg (u32 (InitialTableSize_ cfg)) n) as [tl Htl].
  pose proof Hall as Hhead. unfold caps in Hhead. rewrite Htl in Hhead.
  apply Forall_cons in Hhead as [(Hg0 & _) _].
  apply good_capacity_spec in Hg0 as (Hm0 & _).
  apply (run_ends (call_keys cs) fuel cs n); try assumption.
  - apply packed_map_new. lia.
  - cbn [OAHashTable_new mTable]. rewrite keys_of_replicate_fresh.
    intros k Hk. inversion Hk.
  - auto.
Qed.

End PackedLinearRuns.

(** ** The properties above at sample tables *)

Section Instances.

Import Samples.
Local Open Scope string_scope.

Lemma insert_then_find_witness :
  insert 0 50 mark7_AH_removed "O" 5
  = (Done tt, snd (insert 0 50 mark7_AH_removed "O" 5)) /\
  fst (find 50 (snd (insert 0 50 mark7_AH_removed "O" 5)) "O") = Done 5.
Proof.
  assert (H : insert 0 50 mark7_AH_removed "O" 5
              = (Done tt, snd (insert 0 50 mark7_AH_removed "O" 5)))
    by (vm_compute; reflexivity).
  split; [exact H |].
  apply (insert_then_find 0 50 mark7_AH_removed _ "O" 5 H).
  vm_compute. reflexivity.
Defined.

Lemma insert_adds_entry_witness :
  entries_of (mTable (snd (insert 0 50 pack3_A "B" 2)))
  ≡ₚ ("B", 2) :: entries_of (mTable pack3_A) /\
  Count_ (mStats (snd (insert 0 50 pack3_A "B" 2))) = u32 (Count_ (mStats pack3_A) + 1) /\
  TableSize_ (mStats (snd (insert 0 50 pack3_A "B" 2))) = 7.
Proof.
  destruct (insert_adds_entry 0 50 pack3_A (snd (insert 0 50 pack3_A "B" 2)) "B" 2)
    as (H & _ & Hc & _); [vm_compute; reflexivity | vm_compute; reflexivity |].
  split; [exact H |]. split; [exact Hc |]. vm_compute. reflexivity.
Defined.

Lemma GrowTable_effect_witness :
  entries_of (mTable (snd (GrowTable 0 50 thirds3_A))) ≡ₚ entries_of (mTable thirds3_A) /\
  no_tombstone (mTable (snd (GrowTable 0 50 thirds3_A))) /\
  TableSize_ (mStats (snd (GrowTable 0 50 thirds3_A)))
  = next_capacity (thirds 3) (TableSize_ (mStats thirds3_A)) /\
  TableSize_ (mStats (snd (GrowTable 0 50 thirds3_A))) = 7.
Proof.
  destruct (GrowTable_effect 0 50 thirds3_A (Done tt) (snd (GrowTable 0 50 thirds3_A)))
    as (H & Hn & _ & Hsz & _); [vm_compute; reflexivity | vm_compute; reflexivity |].
  split; [exact H |]. split; [exact Hn |]. split; [exact Hsz |]. vm_compute. reflexivity.
Defined.

Lemma find_sound_witness :
  exists (i : Z) s,
    slot_at (mTable mark7_A_removed) i = Some s /\ Key s = "A" /\ Data s = 1 /\
    (State s = OCCUPIED \/ State s = DELETED).
Proof.
  apply (find_sound 50 mark7_A_removed "A" 1 (snd (find 50 mark7_A_removed "A"))).
  vm_compute. reflexivity.
Defined.

Lemma find_bounded_witness :
  (exists v, fst (find 50 mark7_AH_removed "O") = Done v) \/
  fst (find 50 mark7_AH_removed "O") = Throw E_ITEM_NOT_FOUND.
Proof.
  apply (find_bounded 50 mark7_AH_removed "O").
  - vm_compute. reflexivity.
  - vm_compute. split; [reflexivity | discriminate].
  - vm_compute. split; [discriminate | reflexivity].
  - vm_compute. split; discriminate.
  - vm_compute. reflexivity.
Defined.

Lemma remove_MARK_effect_witness :
  exists (i : Z) s,
    slot_at (mTable mark7_A) i = Some s /\ Key s = "A" /\
    mTable (snd (remove 50 mark7_A "A")) = store_at (mTable mark7_A) i (set_State s DELETED) /\
    Count_ (mStats (snd (remove 50 mark7_A "A"))) = u32 (Count_ (mStats mark7_A) - 1).
Proof.
  destruct (remove_MARK_effect 50 mark7_A (snd (remove 50 mark7_A "A")) "A")
    as (i & s & Hs & Hk & Htb & _ & _ & Hc & _);
    [vm_compute; reflexivity | vm_compute; reflexivity |].
  exists i, s. auto.
Defined.

Lemma remove_PACK_effect_witness :
  entries_of (mTable releasing7_AHO) = [("A", 1); ("H", 2); ("O", 3)] /\
  entries_of (mTable (snd (remove 50 releasing7_AHO "A"))) = [("H", 2); ("O", 3)] /\
  exists v : Z,
    entries_of (mTable releasing7_AHO)
    ≡ₚ ("A", v) :: entries_of (mTable (snd (remove 50 releasing7_AHO "A"))) /\
    occupied_count (mTable (snd (remove 50 releasing7_AHO "A")))
    = occupied_count (mTable releasing7_AHO) - 1 /\
    no_tombstone (mTable (snd (remove 50 releasing7_AHO "A"))) /\
    freed (snd (remove 50 releasing7_AHO "A")) = v :: freed releasing7_AHO.
Proof.
  split; [vm_compute; reflexivity |]. split; [vm_compute; reflexivity |].
  destruct (remove_PACK_effect 50 releasing7_AHO (snd (remove 50 releasing7_AHO "A")) "A")
    as (v & H & Ho & Hn & _ & _ & _ & Hf).
  - vm_compute. reflexivity.
  - vm_compute. repeat (constructor; [discriminate |]). constructor.
  - vm_compute. reflexivity.
  - exists v. auto.
Defined.

(** The copy of a key onto itself: capacity 7, linear probing, PACK;
    "A" is in slot 2 and "B" in slot 3, its own first choice.
    [remove "A"] marks slot 3 unoccupied and re-inserts "B", which goes
    back to slot 3. *)
Lemma remove_copies_key_onto_itself :
  let t := after (linear 7 PACK) [call_insert "A" 1; call_insert "B" 2] in
  start_of (linear 7 PACK) "A" 7 = 2 /\ start_of (linear 7 PACK) "B" 7 = 3 /\
  fst (remove 50 t "A") = Fault /\
  run 0 50 t [call_remove "A"] = None.
Proof. vm_compute. repeat split; reflexivity. Qed.


Lemma clear_spec_witness :
  exists t',
    clear mark7_A = (Done tt, t') /\
    TableSize_ (mStats t') = TableSize_ (mStats mark7_A) /\
    mTable t' = map (fun s => set_State s UNOCCUPIED) (mTable mark7_A) /\
    Count_ (mStats t') = u32 (Count_ (mStats mark7_A) - occupied_count (mTable mark7_A)).
Proof.
  destruct (clear_spec mark7_A) as (t' & H1 & H2 & H3 & H4 & _).
  - vm_compute. reflexivity.
  - vm_compute. split; [discriminate | reflexivity].
  - exists t'. auto.
Defined.

Lemma delete_releases_witness :
  OAHashTable_delete releasing7_AB_A_removed = (Done tt, [2; 1]).
Proof.
  rewrite (delete_releases releasing7_AB_A_removed) by (vm_compute; reflexivity).
  vm_compute. reflexivity.
Defined.

Lemma new_table_lookup_witness :
  fst (find 1 (new (linear 7 MARK)) "A") = Throw E_ITEM_NOT_FOUND /\
  fst (remove 1 (new (linear 7 MARK)) "A") = Throw E_ITEM_NOT_FOUND /\
  Probes_ (mStats (snd (find 1 (new (linear 7 MARK)) "A"))) = 1.
Proof.
  destruct (new_table_lookup 0 (linear 7 MARK) "A" 0%nat) as (_ & _ & _ & _ & Hf & Hr & Hp).
  - vm_compute. split; [discriminate | reflexivity].
  - split; [exact Hf |]. split; [exact Hr | exact Hp].
Defined.

Lemma probe_sequence_prime_witness :
  (forall n : nat, probe_index 7 3 2 n = (2 + Z.of_nat n * 3) mod 7) /\
  (forall a b : nat, (a < b)%nat -> Z.of_nat b < 7 ->
     probe_index 7 3 2 a <> probe_index 7 3 2 b) /\
  (forall i, 0 <= i < 7 -> exists n : nat, Z.of_nat n < 7 /\ probe_index 7 3 2 n = i).
Proof.
  apply (probe_sequence_prime 7 3 2).
  - apply is_prime_sound. vm_compute. reflexivity.
  - lia.
  - lia.
  - lia.
Defined.

Lemma InsertInTable_PACK_outcomes_witness :
  fst (InsertInTable (linear 7 PACK) 50 (mTable pack7_A) 7 "A" 2 0) = Throw E_DUPLICATE /\
  "A" ∈ keys_of (mTable pack7_A).
Proof.
  assert (E : fst (InsertInTable (linear 7 PACK) 50 (mTable pack7_A) 7 "A" 2 0)
              = Throw E_DUPLICATE) by (vm_compute; reflexivity).
  split; [exact E |].
  pose proof (InsertInTable_PACK_outcomes (linear 7 PACK) 50 (mTable pack7_A) 7 "A" 2 0) as H.
  rewrite E in H. apply H.
  - reflexivity.
  - vm_compute. reflexivity.
  - lia.
  - vm_compute. split; [discriminate | reflexivity].
  - vm_compute. split; discriminate.
  - vm_compute. reflexivity.
Defined.


Lemma count_is_occupied_count_witness :
  run 0 50 (OAHashTable_new 0 (double 3 MARK)) remove_free_calls
  = Some (after (double 3 MARK) remove_free_calls) /\
  Count_ (mStats (after (double 3 MARK) remove_free_calls))
  = occupied_count (mTable (after (double 3 MARK) remove_free_calls)) /\
  Count_ (mStats (after (double 3 MARK) remove_free_calls)) = 2.
Proof.
  assert (H : run 0 50 (OAHashTable_new 0 (double 3 MARK)) remove_free_calls
              = Some (after (double 3 MARK) remove_free_calls)) by (vm_compute; reflexivity).
  split; [exact H |].
  destruct (count_is_occupied_count 0 (double 3 MARK) 50 remove_free_calls _ eq_refl H)
    as (Hc & _).
  split; [exact Hc |]. vm_compute. reflexivity.
Defined.

Lemma policy_matters_to_remove_only_witness :
  run 0 50 (repolicy PACK (new (double 3 MARK))) remove_free_calls
  = repolicy PACK <$> run 0 50 (new (double 3 MARK)) remove_free_calls.
Proof.
  apply (policy_matters_to_remove_only 0 PACK 50 remove_free_calls (new (double 3 MARK))).
  - split; [vm_compute; reflexivity |].
    split; [vm_compute; split; [discriminate | reflexivity] |].
    vm_compute. repeat (constructor; [discriminate |]). constructor.
  - reflexivity.
Defined.

Lemma remove_free_run_is_map_witness :
  run 0 50 (OAHashTable_new 0 (double 3 MARK)) remove_free_calls
  = Some (after (double 3 MARK) remove_free_calls) /\
  NoDup (keys_of (mTable (after (double 3 MARK) remove_free_calls))) /\
  ("K", 6) ∈ entries_of (mTable (after (double 3 MARK) remove_free_calls)) /\
  fst (find 50 (after (double 3 MARK) remove_free_calls) "K") = Done 6.
Proof.
  assert (H : run 0 50 (OAHashTable_new 0 (double 3 MARK)) remove_free_calls
              = Some (after (double 3 MARK) remove_free_calls)) by (vm_compute; reflexivity).
  split; [exact H |].
  destruct (remove_free_run_is_map 0 (double 3 MARK) 50 remove_free_calls _ eq_refl H)
    as (Hnd & Hfind & _).
  assert (Hin : ("K", 6) ∈ entries_of (mTable (after (double 3 MARK) remove_free_calls))).
  { vm_compute. repeat constructor. }
  split; [exact Hnd |]. split; [exact Hin |].
  apply Hfind; [exact Hin |]. vm_compute. lia.
Defined.

Lemma remove_then_find_MARK_witness :
  remove 50 mark7_A "A" = (Done tt, snd (remove 50 mark7_A "A")) /\
  exists (i : Z) s,
    slot_at (mTable (snd (remove 50 mark7_A "A"))) i = Some s /\ State s = DELETED /\
    Key s = "A" /\ fst (find 50 (snd (remove 50 mark7_A "A")) "A") = Done (Data s).
Proof.
  assert (H : remove 50 mark7_A "A" = (Done tt, snd (remove 50 mark7_A "A")))
    by (vm_compute; reflexivity).
  split; [exact H |].
  destruct (remove_then_find_MARK 50 mark7_A _ "A" eq_refl H) as (_ & i & s & Hs).
  exists i, s. exact Hs.
Defined.

Lemma PACK_linear_run_is_map_witness :
  length long_calls = 41%nat /\
  run 0 200 (OAHashTable_new 0 (linear 7 PACK)) long_calls = Some long_table /\
  capacities (linear 7 PACK) 7 3 = [7; 17; 37; 79] /\
  TableSize_ (mStats long_table) = 79 /\
  Count_ (mStats long_table) = 29 /\
  NoDup (keys_of (mTable long_table)) /\
  fst (find 200 long_table "Z") = Done 26.
Proof.
  assert (H : run 0 200 (OAHashTable_new 0 (linear 7 PACK)) long_calls = Some long_table)
    by (vm_compute; reflexivity).
  split; [reflexivity |]. split; [exact H |].
  split; [vm_compute; reflexivity |]. split; [vm_compute; reflexivity |].
  destruct (PACK_linear_run_is_map 0 (linear 7 PACK) eq_refl eq_refl 200 long_calls
              3 long_table) as (Hnd & _ & Hc & _ & Hfind & _).
  - vm_compute. reflexivity.
  - vm_compute. reflexivity.
  - exact H.
  - split; [rewrite Hc; vm_compute; reflexivity |]. split; [exact Hnd |].
    apply Hfind; [| vm_compute; lia].
    apply (bool_decide_unpack _). vm_compute. exact I.
Defined.

Lemma PACK_linear_calls_end_witness :
  (exists t, run 0 200 (OAHashTable_new 0 (linear 7 PACK)) long_calls = Some t) \/
  (exists (cs1 : list (call Z)) k (cs2 : list (call Z)) t1,
     long_calls = (cs1 ++ call_remove k :: cs2)%list /\
     run 0 200 (OAHashTable_new 0 (linear 7 PACK)) cs1 = Some t1 /\
     fst (remove 200 t1 k) = Fault).
Proof.
  apply (PACK_linear_calls_end 0 (linear 7 PACK) eq_refl eq_refl 200 long_calls 3).
  - vm_compute. reflexivity.
  - vm_compute. reflexivity.
  - vm_compute. reflexivity.
  - apply Nat.leb_le. vm_compute. reflexivity.
Defined.

End Instances.
